(** * ThreatIntel-GPT: scoring, technique mapping and correlation

    A shallow embedding of the pure core of the package
    [threatintel_gpt]:

    - [analyzer.py]   : [_calculate_threat_score], [_get_severity],
                        [IOC_PATTERNS], [detect_ioc_type], [analyze_ioc],
                        [_build_analysis_prompt], [_parse_llm_response];
    - [mitre.py]      : [TECHNIQUE_KEYWORDS], [TACTIC_MAPPING], [map_to_mitre],
                        [_get_technique_details], [_get_technique_name],
                        [search_techniques], [get_tactics],
                        [get_techniques_by_tactic];
    - [correlator.py] : [add_threat], [find_related], [_calculate_similarity],
                        [_find_cross_type_correlations], [cluster_threats],
                        [get_statistics];
    - [llm_engine.py] : [analyze], [_mock_response].

    What lies outside the program is a parameter of the function that
    reads it: the clock, the answer of the cache, the language model
    and the case mapping [str.lower] of the interpreter, of which only
    the effect on ASCII text is assumed, where a theorem needs it
    ([PyStr.lowers_ascii]).

    Python values are represented as follows.
    - [str]   : [string], the bytes of the UTF-8 encoding of the text, so
                that an ASCII character is one byte; substrings,
                prefixes and splitting at an ASCII character are the
                same on the bytes as on the characters, and a slice
                [s[:n]] counts characters ([PyStr.take_chars]);
    - [int]   : [Z] (unbounded), [len(...)] is [length] of a list;
    - [float] : a rational number that is a finite IEEE-754 binary64
                value; arithmetic on floats rounds to nearest, ties to
                even (module [Float64]);
    - [list]  : [list];
    - [defaultdict(list)] keyed by strings : [gmap string (list _)];
    - a dict literal iterated in declaration order : an association list;
    - a regular expression : a term of [Regex.regex], matched by
      derivatives. *)

From Stdlib Require Import ZArith QArith Qround Qpower Qminmax Lia Lqa.
From Stdlib Require Import Ascii String SpecFloat.
From stdpp Require Import base list strings gmap fin_maps sorting.

#[local] Open Scope Z_scope.
#[local] Open Scope string_scope.
#[local] Open Scope list_scope.

(* ===================================================================== *)
(** ** Python floats: finite binary64 values as rationals                *)
(* ===================================================================== *)

Module Float64.

#[local] Open Scope Q_scope.

(** Precision of the significand and exponent of the least subnormal. *)
Definition prec : Z := 53.
Definition emin : Z := -1074.

(** [mag x], for [0 < x], is the integer [e] with [2^(e-1) <= x < 2^e]. *)
Definition mag (x : Q) : Z :=
  let e0 := (Z.log2 (Qnum x) - Z.log2 (Zpos (Qden x)))%Z in
  if Qle_bool (2 ^ e0) x then (e0 + 1)%Z else e0.

(** Exponent of the unit in the last place of the binade of [x]. *)
Definition cexp (x : Q) : Z := Z.max (mag x - prec) emin.

(** Round a rational to the nearest integer, ties to the even one. *)
Definition rne (m : Q) : Z :=
  let f := Qfloor m in
  match Qcompare (m - inject_Z f) (1 # 2) with
  | Lt => f
  | Gt => (f + 1)%Z
  | Eq => if Z.even f then f else (f + 1)%Z
  end.

Definition round_pos (x : Q) : Q :=
  let e := cexp x in Qred (inject_Z (rne (x / 2 ^ e)) * 2 ^ e).

(** Round-to-nearest-even into binary64.  The model covers the finite
    range: results stay below [2^1024] in every use made of it here. *)
Definition round64 (x : Q) : Q :=
  match Qcompare x 0 with
  | Eq => 0
  | Gt => round_pos x
  | Lt => - round_pos (- x)
  end.

(** [x] is (the value of) a binary64 number. *)
Definition is_float (x : Q) : Prop := round64 x == x.

(** A decimal literal of the source denotes the nearest binary64 value. *)
Definition lit (q : Q) : Q := round64 q.

(** [float(k)] for a Python int [k]. *)
Definition of_int (k : Z) : Q := round64 (inject_Z k).

Definition fadd (x y : Q) : Q := round64 (x + y).
Definition fmul (x y : Q) : Q := round64 (x * y).

(** Comparisons of floats are exact. *)
Definition fle (x y : Q) : bool := Qle_bool x y.
Definition flt (x y : Q) : bool := negb (Qle_bool y x).

(** The builtin [min(a, b)] on two arguments: [b] when [b < a], else [a]. *)
Definition py_min (a b : Q) : Q := if flt b a then b else a.

(** The rational value of a finite number of the standard library's
    IEEE-754 specification ([SpecFloat]), and the representation of a
    positive binary64 value there; used to compare [fmul] and [fadd]
    with [SFmul] and [SFadd] on sample inputs. *)
Definition of_spec (f : spec_float) : Q :=
  match f with
  | S754_finite s m e =>
      Qred ((if s then - (1) else 1) * inject_Z (Z.pos m) * 2 ^ e)
  | _ => 0
  end.

Definition to_spec (x : Q) : spec_float :=
  let e := cexp x in
  match rne (x / 2 ^ e) with
  | Z.pos m => S754_finite false m e
  | _ => S754_zero false
  end.

End Float64.

(* ===================================================================== *)
(** ** Python strings                                                    *)
(* ===================================================================== *)

Module PyStr.

(** [c.lower()] on an ASCII character. *)
Definition lower_ascii (c : ascii) : ascii :=
  let n := nat_of_ascii c in
  if (Nat.leb 65 n && Nat.leb n 90)%bool then ascii_of_nat (n + 32) else c.

(** [s.lower()] for an ASCII text [s]: the letters A to Z are folded,
    every other character is kept. *)
Fixpoint lower (s : string) : string :=
  match s with
  | EmptyString => EmptyString
  | String c s' => String (lower_ascii c) (lower s')
  end.

(** The text is ASCII: every byte is below 128. *)
Fixpoint is_ascii (s : string) : bool :=
  match s with
  | EmptyString => true
  | String c s' => Nat.ltb (nat_of_ascii c) 128 && is_ascii s'
  end.

(** What is assumed of the method [str.lower], for which [str_lower]
    stands: on ASCII text it is [lower].  On other text its value
    depends on the Unicode tables of the interpreter and is left open. *)
Definition lowers_ascii (str_lower : string -> string) : Prop :=
  forall s : string, is_ascii s = true -> str_lower s = lower s.

(** A byte [10xxxxxx], which continues a character of several bytes. *)
Definition is_continuation (c : ascii) : bool :=
  let n := nat_of_ascii c in
  (Nat.leb 128 n && Nat.ltb n 192)%bool.

(** [len(s)]: the number of characters, that is of the bytes that start
    one. *)
Fixpoint char_count (s : string) : nat :=
  match s with
  | EmptyString => O
  | String c s' =>
      if is_continuation c then char_count s' else S (char_count s')
  end.

(** [s[:n]] for [n >= 0]: the bytes of the first [n] characters. *)
Fixpoint take_chars (n : nat) (s : string) : string :=
  match s with
  | EmptyString => EmptyString
  | String c s' =>
      if is_continuation c then String c (take_chars n s')
      else match n with
           | O => EmptyString
           | S n' => String c (take_chars n' s')
           end
  end.

(** [s.startswith(p)]. *)
Fixpoint startswith (s p : string) : bool :=
  match p, s with
  | EmptyString, _ => true
  | String a p', String b s' => if Ascii.eqb a b then startswith s' p' else false
  | String _ _, EmptyString => false
  end.

(** [sub in s]: [sub] occurs in [s] as a substring. *)
Fixpoint contains (s sub : string) : bool :=
  startswith s sub ||
  match s with
  | EmptyString => false
  | String _ s' => contains s' sub
  end.

(** [s.split(".")]: the maximal dot-free pieces of [s], never empty. *)
Fixpoint split_dot (s : string) : list string :=
  match s with
  | EmptyString => [EmptyString]
  | String c s' =>
      if Ascii.eqb c "."%char then EmptyString :: split_dot s'
      else match split_dot s' with
           | p :: ps => String c p :: ps
           | [] => [String c EmptyString]
           end
  end.

(** [l[:k]] for a Python int [k]: a negative [k] counts from the end. *)
Definition slice_to {A : Type} (l : list A) (k : Z) : list A :=
  if (0 <=? k)%Z then take (Z.to_nat k) l
  else take (Z.to_nat (Z.of_nat (length l) + k)) l.

(** [l[-1]] for a list of strings that is not empty. *)
Definition last_item (l : list string) : string := List.last l EmptyString.

(** [d.get(k)] on a dictionary given by its items in declaration order. *)
Fixpoint dict_get {V : Type} (d : list (string * V)) (k : string) : option V :=
  match d with
  | [] => None
  | (k', v) :: d' => if decide (k' = k) then Some v else dict_get d' k
  end.

(** *** Vocabulary: occurrence up to the case of the ASCII letters *)

(** One of the letters A to Z. *)
Definition is_upper (c : ascii) : Prop :=
  (nat_of_ascii "A"%char <= nat_of_ascii c <= nat_of_ascii "Z"%char)%nat.

(** The character [c] of a text reads [k] once lower-cased: a letter A
    to Z becomes the letter 32 places further, any other character is
    kept. *)
Definition folds_to (c k : ascii) : Prop :=
  (is_upper c /\ nat_of_ascii k = (nat_of_ascii c + 32)%nat)
  \/ (~ is_upper c /\ k = c).

(** [keyword] occurs in [text] when the case of the letters of [text]
    is ignored. *)
Definition occurs_ignoring_case (keyword text : string) : Prop :=
  exists pre mid post : string,
    text = (pre ++ mid ++ post)%string
    /\ Forall2 folds_to (list_ascii_of_string mid) (list_ascii_of_string keyword).

End PyStr.

(* ===================================================================== *)
(** ** mitre.py: keyword matching against the technique catalog          *)
(* ===================================================================== *)

Module Mitre.
Import PyStr.

Definition TECHNIQUE_KEYWORDS : list (string * list string) :=
  [ ("T1566", ["phishing"; "spearphishing"; "email attack"]);
    ("T1059", ["command"; "script"; "powershell"; "cmd"; "bash"]);
    ("T1105", ["download"; "ingress tool transfer"; "file transfer"]);
    ("T1071", ["http"; "https"; "web protocol"; "application layer"]);
    ("T1090", ["proxy"; "vpn"; "tunnel"]);
    ("T1189", ["drive-by"; "watering hole"; "compromised website"]);
    ("T1190", ["exploit"; "vulnerability"; "cve"]);
    ("T1133", ["vpn"; "remote access"; "external remote services"]);
    ("T1078", ["valid account"; "credential"; "stolen credentials"]);
    ("T1110", ["brute force"; "password spray"; "credential stuffing"]);
    ("T1486", ["ransomware"; "encryption"; "data encrypted"]);
    ("T1485", ["data destruction"; "delete"; "wipe"]);
    ("T1567", ["exfiltration"; "data theft"; "upload"]);
    ("T1021", ["rdp"; "remote desktop"; "remote services"]);
    ("T1003", ["credential dump"; "lsass"; "mimikatz"]) ].

Definition TACTIC_MAPPING : list (string * string) :=
  [ ("T1566", "Initial Access");
    ("T1059", "Execution");
    ("T1105", "Command and Control");
    ("T1071", "Command and Control");
    ("T1090", "Command and Control");
    ("T1189", "Initial Access");
    ("T1190", "Initial Access");
    ("T1133", "Persistence");
    ("T1078", "Defense Evasion");
    ("T1110", "Credential Access");
    ("T1486", "Impact");
    ("T1485", "Impact");
    ("T1567", "Exfiltration");
    ("T1021", "Lateral Movement");
    ("T1003", "Credential Access") ].

(** The two lists the function builds: [matched_techniques] and
    [matched_tactics]. *)
Record matched := Matched {
  matched_techniques : list string;
  matched_tactics : list string
}.

(** The value of [tactic and tactic not in matched_tactics]. *)
Definition new_tactic (tactic : option string) (tactics : list string) : bool :=
  match tactic with
  | Some t => bool_decide (t ≠ EmptyString) && bool_decide (t ∉ tactics)
  | None => false
  end.

Section Mapper.
(** The class attributes read through [self]. *)
Variable technique_keywords : list (string * list string).
Variable tactic_mapping : list (string * string).

(** The body run when a keyword of [technique_id] occurs in the text. *)
Definition record_match (technique_id : string) (st : matched) : matched :=
  if decide (technique_id ∈ matched_techniques st) then st
  else
    let techniques := matched_techniques st ++ [technique_id] in
    (* Add corresponding tactic *)
    let tactic := dict_get tactic_mapping technique_id in
    if new_tactic tactic (matched_tactics st)
    then Matched techniques (matched_tactics st ++ [default EmptyString tactic])
    else Matched techniques (matched_tactics st).

(** The inner loop [for keyword in keywords: ... break]. *)
Fixpoint scan_keywords (technique_id : string) (keywords : list string)
    (description_lower : string) (st : matched) : matched :=
  match keywords with
  | [] => st
  | keyword :: rest =>
      if contains description_lower keyword
      then record_match technique_id st (* break *)
      else scan_keywords technique_id rest description_lower st
  end.

(** The outer loop over [TECHNIQUE_KEYWORDS.items()]. *)
Definition scan_catalog (description_lower : string) : matched :=
  fold_left
    (fun st '(technique_id, keywords) =>
       scan_keywords technique_id keywords description_lower st)
    technique_keywords (Matched [] []).
End Mapper.

(** [map_to_mitre(description)]; [str_lower] is the method [str.lower]
    that [description.lower()] calls.  The ["details"] entry of the
    result is derived from [matched_techniques]
    ([MitreCatalog.map_to_mitre_details]). *)
Definition map_to_mitre (str_lower : string -> string) (description : string)
    : matched :=
  let description_lower := str_lower description in
  scan_catalog TECHNIQUE_KEYWORDS TACTIC_MAPPING description_lower.

(** *** Vocabulary of the statements about [map_to_mitre] *)

(** The first occurrences of the elements of a list, in order. *)
Fixpoint first_occurrences (l : list string) : list string :=
  match l with
  | [] => []
  | x :: l' => x :: filter (fun y => y ≠ x) (first_occurrences l')
  end.

(** Some keyword of a catalog entry occurs in the lower-cased text. *)
Definition keyword_hit (description_lower : string)
    (entry : string * list string) : bool :=
  existsb (contains description_lower) entry.2.

(** The tactic a technique contributes: its entry in the mapping, when
    it is a non-empty string. *)
Definition tactic_of (tactic_mapping : list (string * string))
    (technique_id : string) : option string :=
  match dict_get tactic_mapping technique_id with
  | Some t => if decide (t = EmptyString) then None else Some t
  | None => None
  end.

(** The tactics accumulated along a list of newly matched ids. *)
Definition add_tactic (tactic_mapping : list (string * string))
    (tactics : list string) (technique_id : string) : list string :=
  match tactic_of tactic_mapping technique_id with
  | Some t => if decide (t ∈ tactics) then tactics else tactics ++ [t]
  | None => tactics
  end.

End Mitre.

(* ===================================================================== *)
(** ** analyzer.py: threat score and severity                            *)
(* ===================================================================== *)

Module Analyzer.
Import Float64.

(** [_calculate_threat_score(parsed_data, mitre_mapping)].  The two
    arguments are the results of the dictionary lookups the function
    makes: [confidence] is [parsed_data.get("confidence")] and
    [techniques] is [mitre_mapping.get("techniques")]; [None] stands for
    an absent key, replaced by the defaults [0.5] and [[]]. *)
Definition _calculate_threat_score
    (confidence : option Q) (techniques : option (list string)) : Q :=
  let base_score := lit 50 in
  (* Adjust based on MITRE techniques *)
  let technique_count := Z.of_nat (length (default [] techniques)) in
  let base_score := fadd base_score (of_int (Z.min (technique_count * 5) 30)) in
  (* Adjust based on confidence *)
  let confidence := default (lit 0.5) confidence in
  let base_score := fmul base_score confidence in
  py_min base_score (lit 100).

(** [_get_severity(threat_score)]: the score is compared with the
    integers 80, 60, 40 and 20, from the highest down. *)
Definition _get_severity (threat_score : Q) : string :=
  if fle (inject_Z 80) threat_score then "CRITICAL"
  else if fle (inject_Z 60) threat_score then "HIGH"
  else if fle (inject_Z 40) threat_score then "MEDIUM"
  else if fle (inject_Z 20) threat_score then "LOW"
  else "INFO".

(** The score as the specification writes it:
    [min((50.0 + min(n * 5, 30)) * c, 100.0)], the product being the
    binary64 product. *)
Definition score_formula (n : Z) (c : Q) : Q :=
  Qmin (fmul (50 + inject_Z (Z.min (n * 5) 30))%Q c) 100.

End Analyzer.

(* ===================================================================== *)
(** ** correlator.py: the threat database and related-threat queries     *)
(* ===================================================================== *)

Module Correlator.
Import PyStr Float64.

(** [_calculate_similarity(ioc1, ioc2, ioc_type)].  Inside the [try]
    block only [str.split], slicing and list comparison are evaluated;
    none of them raises on strings, so the handler is never entered and
    the block either returns or falls through to the final [return 0.3]. *)
Definition _calculate_similarity (ioc1 ioc2 ioc_type : string) : Q :=
  if decide (ioc_type = "ip") then
    (* Check if IPs are in same subnet *)
    let parts1 := split_dot ioc1 in
    let parts2 := split_dot ioc2 in
    if decide (take 3 parts1 = take 3 parts2) then lit 0.8  (* Same /24 subnet *)
    else if decide (take 2 parts1 = take 2 parts2) then lit 0.6  (* Same /16 subnet *)
    else lit 0.3
  else if decide (ioc_type = "domain") then
    (* Check if domains share TLD or structure *)
    if decide (last_item (split_dot ioc1) = last_item (split_dot ioc2))
    then lit 0.6
    else lit 0.3
  else if decide (ioc_type ∈ ["hash_md5"; "hash_sha1"; "hash_sha256"]) then
    (* Exact match only for hashes *)
    if decide (ioc1 = ioc2) then lit 1.0 else lit 0.0
  else lit 0.3.  (* Default low similarity *)

(** [_initialize_rules()]: the rule names with their ["enabled"] flag. *)
Definition correlation_rules : list (string * bool) :=
  [ ("ip_to_domain", true); ("hash_to_campaign", true);
    ("temporal_clustering", true) ].

Section Store.
(** The type of the [metadata] dictionaries, which the correlator
    stores and returns without inspecting them. *)
Context {Meta : Type}.

(** An entry of [threat_database]. *)
Record threat_entry := ThreatEntry {
  t_ioc : string;
  t_type : string;
  t_metadata : Meta;
  t_timestamp : Z
}.

(** An element of the list [find_related] returns. *)
Record related_threat := RelatedThreat {
  r_ioc : string;
  r_type : string;
  r_similarity : Q;
  r_relationship : string;
  r_metadata : Meta
}.

(** [add_threat(ioc, ioc_type, metadata)] on [self.threat_database], a
    [defaultdict(list)]; [now] is the reading of [datetime.utcnow()]
    taken by the call. *)
Definition add_threat (db : gmap string (list threat_entry))
    (ioc ioc_type : string) (metadata : Meta) (now : Z)
    : gmap string (list threat_entry) :=
  let threat_entry := ThreatEntry ioc ioc_type metadata now in
  <[ioc_type := default [] (db !! ioc_type) ++ [threat_entry]]> db.

(** The first loop of [find_related]: threats of the same type. *)
Definition same_type_scan (db : gmap string (list threat_entry))
    (ioc ioc_type : string) : list related_threat :=
  omap (fun threat =>
          if decide (t_ioc threat ≠ ioc) then
            let similarity := _calculate_similarity ioc (t_ioc threat) ioc_type in
            if flt (lit 0.5) similarity
            then Some (RelatedThreat (t_ioc threat) (t_type threat) similarity
                                     "same_type" (t_metadata threat))
            else None
          else None)
       (default [] (db !! ioc_type)).

(** [_find_cross_type_correlations(ioc, ioc_type)]. *)
Definition _find_cross_type_correlations (db : gmap string (list threat_entry))
    (ioc ioc_type : string) : list related_threat :=
  if decide (ioc_type = "ip") then
    (* In real implementation, check DNS records *)
    map (fun domain_threat =>
           RelatedThreat (t_ioc domain_threat) "domain" (lit 0.7)
                         "dns_resolution" (t_metadata domain_threat))
        (default [] (db !! "domain"))
  else [].

(** [list.sort(key=lambda x: x["similarity"], reverse=True)]: the sort
    is stable, elements with equal keys keep their relative order.  It
    is written as an insertion sort; the sorted stable rearrangement of
    a list is unique, so the algorithm does not matter. *)
Fixpoint insert_desc (x : related_threat) (l : list related_threat)
    : list related_threat :=
  match l with
  | [] => [x]
  | y :: l' =>
      if flt (r_similarity x) (r_similarity y) then y :: insert_desc x l'
      else x :: l
  end.

Definition sort_by_similarity_desc (l : list related_threat)
    : list related_threat :=
  foldr insert_desc [] l.

(** [find_related(ioc, ioc_type, max_results)]. *)
Definition find_related (db : gmap string (list threat_entry))
    (ioc ioc_type : string) (max_results : Z) : list related_threat :=
  (* Find by same type *)
  let related_threats := same_type_scan db ioc ioc_type in
  (* Find cross-type correlations *)
  let cross_type_related := _find_cross_type_correlations db ioc ioc_type in
  let related_threats := related_threats ++ cross_type_related in
  (* Sort by similarity and limit results *)
  let related_threats := sort_by_similarity_desc related_threats in
  slice_to related_threats max_results.

(** Descending order of similarity. *)
Definition by_similarity_desc (x y : related_threat) : Prop :=
  (r_similarity y <= r_similarity x)%Q.

(** The elements of similarity [s], in the order of the list. *)
Definition with_similarity (s : Q) (l : list related_threat)
    : list related_threat :=
  List.filter (fun r => Qeq_bool (r_similarity r) s) l.

(** The result of [get_statistics()]. *)
Record statistics := Statistics {
  total_threats : nat;
  by_type : gmap string nat;
  correlation_rules_active : nat
}.

Definition get_statistics (db : gmap string (list threat_entry)) : statistics :=
  Statistics
    (map_fold (fun _ threats total => length threats + total)%nat 0%nat db)
    (length <$> db)
    (length (filter (fun rule => rule.2 = true) correlation_rules)).
End Store.

Arguments threat_entry : clear implicits.
Arguments related_threat : clear implicits.
Arguments statistics : clear implicits.

End Correlator.

(* ===================================================================== *)
(** ** mitre.py: technique details, search and tactic lookups            *)
(* ===================================================================== *)

Module MitreCatalog.
Import PyStr Mitre.

(** The dictionary [technique_names] of [_get_technique_name]. *)
Definition technique_names : list (string * string) :=
  [ ("T1566", "Phishing");
    ("T1059", "Command and Scripting Interpreter");
    ("T1105", "Ingress Tool Transfer");
    ("T1071", "Application Layer Protocol");
    ("T1090", "Proxy");
    ("T1189", "Drive-by Compromise");
    ("T1190", "Exploit Public-Facing Application");
    ("T1133", "External Remote Services");
    ("T1078", "Valid Accounts");
    ("T1110", "Brute Force");
    ("T1486", "Data Encrypted for Impact");
    ("T1485", "Data Destruction");
    ("T1567", "Exfiltration Over Web Service");
    ("T1021", "Remote Services");
    ("T1003", "OS Credential Dumping") ].

(** [_get_technique_name(technique_id)]. *)
Definition _get_technique_name (technique_id : string) : string :=
  default "Unknown Technique" (dict_get technique_names technique_id).

(** An element of the list [_get_technique_details] returns. *)
Record technique_detail := TechniqueDetail {
  d_id : string;
  d_name : string;
  d_tactic : string;
  d_url : string
}.

(** [_get_technique_details(technique_ids)]. *)
Definition _get_technique_details (technique_ids : list string)
    : list technique_detail :=
  map (fun tech_id =>
         TechniqueDetail
           tech_id
           (_get_technique_name tech_id)
           (default "Unknown" (dict_get TACTIC_MAPPING tech_id))
           ("https://attack.mitre.org/techniques/" ++ tech_id ++ "/"))
      technique_ids.

(** The ["details"] entry of the dictionary [map_to_mitre] returns. *)
Definition map_to_mitre_details (str_lower : string -> string)
    (description : string) : list technique_detail :=
  _get_technique_details (matched_techniques (map_to_mitre str_lower description)).

(** An element of the list [search_techniques] returns. *)
Record search_result := SearchResult {
  s_id : string;
  s_name : string;
  s_tactic : option string;
  s_keywords : list string;
  s_url : string
}.

(** The inner loop of [search_techniques]: [keywords] is what is left to
    scan of [all_keywords], the keywords of the technique. *)
Fixpoint search_keywords (tech_id : string) (all_keywords keywords : list string)
    (query_lower : string) (results : list search_result) : list search_result :=
  match keywords with
  | [] => results
  | keyword :: rest =>
      if contains keyword query_lower || contains query_lower keyword
      then results ++ [SearchResult
                         tech_id
                         (_get_technique_name tech_id)
                         (dict_get TACTIC_MAPPING tech_id)
                         all_keywords
                         ("https://attack.mitre.org/techniques/" ++ tech_id ++ "/")]
           (* break *)
      else search_keywords tech_id all_keywords rest query_lower results
  end.

(** [search_techniques(query)]; [str_lower] is the method [str.lower]
    that [query.lower()] calls. *)
Definition search_techniques (str_lower : string -> string) (query : string)
    : list search_result :=
  let query_lower := str_lower query in
  fold_left
    (fun results '(tech_id, keywords) =>
       search_keywords tech_id keywords keywords query_lower results)
    TECHNIQUE_KEYWORDS [].

(** [get_tactics()] is [list(set(TACTIC_MAPPING.values()))]: the set of
    the tactics, listed in an order the language leaves unspecified. *)
Definition get_tactics : gset string := list_to_set (TACTIC_MAPPING.*2).

(** [get_techniques_by_tactic(tactic)]. *)
Definition get_techniques_by_tactic (tactic : string) : list string :=
  (filter (fun entry => entry.2 = tactic) TACTIC_MAPPING).*1.

(** A keyword of the entry contains the query or occurs in it. *)
Definition search_hit (query_lower : string) (entry : string * list string) : bool :=
  existsb (fun keyword => contains keyword query_lower || contains query_lower keyword)
          entry.2.

(** The result [search_techniques] builds for a catalog entry. *)
Definition result_of (entry : string * list string) : search_result :=
  SearchResult entry.1 (_get_technique_name entry.1)
               (dict_get TACTIC_MAPPING entry.1) entry.2
               ("https://attack.mitre.org/techniques/" ++ entry.1 ++ "/").

End MitreCatalog.

(* ===================================================================== *)
(** ** correlator.py: temporal clustering                                 *)
(* ===================================================================== *)

Module Clustering.
Import PyStr Correlator.

Section Clusters.
Context {Meta : Type}.

(** A cluster of the list [cluster_threats] returns; [c_time_window] is
    the window whose text the source stores under ["time_window"]. *)
Record cluster := Cluster {
  c_cluster_id : Z;
  c_threat_count : nat;
  c_time_window : Z;
  c_threats : list (threat_entry Meta)
}.

(** The list [recent_threats] built by the two nested loops. *)
Definition recent_threats (items : list (string * list (threat_entry Meta)))
    (now time_window : Z) : list (threat_entry Meta) :=
  flat_map
    (fun '(ioc_type, threats) =>
       filter (fun threat => now - t_timestamp threat <= time_window) threats)
    items.

(** [cluster_threats(time_window)].  [items] is
    [self.threat_database.items()], the types with their threats in the
    order the dictionary iterates them; [now] is the reading of
    [datetime.utcnow()]; times and durations are counted in one unit. *)
Definition cluster_threats (items : list (string * list (threat_entry Meta)))
    (now time_window : Z) : list cluster :=
  (* Simple temporal clustering *)
  let recent := recent_threats items now time_window in
  match recent with
  | [] => []
  | _ :: _ =>
      [Cluster 1 (length recent) time_window
               (slice_to recent 10)]  (* Limit to 10 for display *)
  end.
End Clusters.

Arguments cluster : clear implicits.

End Clustering.

(* ===================================================================== *)
(** ** Regular expressions as [re.match] uses them                       *)
(* ===================================================================== *)

Module Regex.

(** The regular expressions the patterns of [IOC_PATTERNS] are built
    from.  [Class p] is a bracket expression or a literal character. *)
Inductive regex : Type :=
| Void
| Eps
| Class (p : ascii -> bool)
| Cat (r1 r2 : regex)
| Alt (r1 r2 : regex)
| Star (r : regex).

(** The strings a regular expression matches as a whole. *)
Inductive lang : regex -> list ascii -> Prop :=
| lang_eps : lang Eps []
| lang_class p c : p c = true -> lang (Class p) [c]
| lang_cat r1 r2 s1 s2 : lang r1 s1 -> lang r2 s2 -> lang (Cat r1 r2) (s1 ++ s2)
| lang_alt_l r1 r2 s : lang r1 s -> lang (Alt r1 r2) s
| lang_alt_r r1 r2 s : lang r2 s -> lang (Alt r1 r2) s
| lang_star_nil r : lang (Star r) []
| lang_star_cons r s1 s2 : lang r s1 -> lang (Star r) s2 -> lang (Star r) (s1 ++ s2).

Fixpoint nullable (r : regex) : bool :=
  match r with
  | Void => false
  | Eps => true
  | Class _ => false
  | Cat r1 r2 => nullable r1 && nullable r2
  | Alt r1 r2 => nullable r1 || nullable r2
  | Star _ => true
  end.

(** Derivative: what is left to match after reading the character [c]. *)
Fixpoint deriv (c : ascii) (r : regex) : regex :=
  match r with
  | Void => Void
  | Eps => Void
  | Class p => if p c then Eps else Void
  | Cat r1 r2 =>
      if nullable r1 then Alt (Cat (deriv c r1) r2) (deriv c r2)
      else Cat (deriv c r1) r2
  | Alt r1 r2 => Alt (deriv c r1) (deriv c r2)
  | Star r1 => Cat (deriv c r1) (Star r1)
  end.

(** The whole of [s] is matched. *)
Fixpoint matches (r : regex) (s : list ascii) : bool :=
  match s with
  | [] => nullable r
  | c :: s' => matches (deriv c r) s'
  end.

(** Some initial segment of [s] is matched. *)
Fixpoint matches_prefix (r : regex) (s : list ascii) : bool :=
  nullable r ||
  match s with
  | [] => false
  | c :: s' => matches_prefix (deriv c r) s'
  end.

(** [r?], [r+], [r{n}], [r{0,n}], [r{m,n}] and [r{m,}]. *)
Definition opt (r : regex) : regex := Alt r Eps.
Definition plus (r : regex) : regex := Cat r (Star r).

Fixpoint rep (n : nat) (r : regex) : regex :=
  match n with
  | O => Eps
  | S n' => Cat r (rep n' r)
  end.

Fixpoint rep_upto (n : nat) (r : regex) : regex :=
  match n with
  | O => Eps
  | S n' => opt (Cat r (rep_upto n' r))
  end.

Definition rep_range (m n : nat) (r : regex) : regex :=
  Cat (rep m r) (rep_upto (n - m) r).

Definition rep_from (m : nat) (r : regex) : regex := Cat (rep m r) (Star r).

(** A literal character and a literal string. *)
Definition chr (c : ascii) : regex := Class (Ascii.eqb c).

Fixpoint str (s : string) : regex :=
  match s with
  | EmptyString => Eps
  | String c s' => Cat (chr c) (str s')
  end.

(** A pattern anchored at the start by [^]: its body, and whether it
    ends with [$]. *)
Record pattern := Pattern {
  body : regex;
  dollar : bool
}.

Definition newline : ascii := "010"%char.

(** [re.match(pattern, s)] finds a match.  [re.match] matches at the
    start of [s]; [$] holds at the end of [s] and just before a newline
    that ends [s], so [body$] matches when [s] is a string of [body]
    possibly followed by one newline; without [$] an initial segment of
    [s] has to match. *)
Definition re_match (p : pattern) (s : string) : bool :=
  let l := list_ascii_of_string s in
  if dollar p then matches (Cat (body p) (opt (chr newline))) l
  else matches_prefix (body p) l.

(** Every character of [s] belongs to the class [p]. *)
Definition all_in (p : ascii -> bool) (s : list ascii) : Prop :=
  Forall (fun c => p c = true) s.

End Regex.

(* ===================================================================== *)
(** ** analyzer.py: detection of the IOC type                            *)
(* ===================================================================== *)

Module Detect.
Import Regex.

(** Membership in a range of ASCII codes, bounds included. *)
Definition in_range (lo hi c : ascii) : bool :=
  (Nat.leb (nat_of_ascii lo) (nat_of_ascii c)
   && Nat.leb (nat_of_ascii c) (nat_of_ascii hi))%bool.

(** [[0-9]], [[a-zA-Z]], [[a-zA-Z0-9]], [[a-zA-Z0-9-]], [[a-fA-F0-9]],
    [[a-zA-Z0-9._%+-]] and [[a-zA-Z0-9.-]]. *)
Definition digit (c : ascii) : bool := in_range "0" "9" c.
Definition alpha (c : ascii) : bool := in_range "a" "z" c || in_range "A" "Z" c.
Definition alnum (c : ascii) : bool := alpha c || digit c.
Definition alnum_dash (c : ascii) : bool := alnum c || Ascii.eqb c "-".
Definition hex (c : ascii) : bool :=
  in_range "a" "f" c || in_range "A" "F" c || digit c.
Definition email_local (c : ascii) : bool :=
  alnum c || Ascii.eqb c "." || Ascii.eqb c "_" || Ascii.eqb c "%"
  || Ascii.eqb c "+" || Ascii.eqb c "-".
Definition email_host (c : ascii) : bool :=
  alnum c || Ascii.eqb c "." || Ascii.eqb c "-".

(** [^(?:[0-9]{1,3}\.){3}[0-9]{1,3}$] *)
Definition ip_pattern : pattern :=
  Pattern (Cat (rep 3 (Cat (rep_range 1 3 (Class digit)) (chr ".")))
               (rep_range 1 3 (Class digit)))
          true.

(** [^[a-zA-Z0-9][a-zA-Z0-9-]{0,61}[a-zA-Z0-9]?\.[a-zA-Z]{2,}$] *)
Definition domain_pattern : pattern :=
  Pattern (Cat (Class alnum)
          (Cat (rep_range 0 61 (Class alnum_dash))
          (Cat (opt (Class alnum))
          (Cat (chr ".") (rep_from 2 (Class alpha))))))
          true.

(** [^https?://] *)
Definition url_pattern : pattern :=
  Pattern (Cat (str "http") (Cat (opt (chr "s")) (str "://"))) false.

(** [^[a-fA-F0-9]{32}$], [^[a-fA-F0-9]{40}$] and [^[a-fA-F0-9]{64}$] *)
Definition hash_pattern (n : nat) : pattern := Pattern (rep n (Class hex)) true.

(** [^[a-zA-Z0-9._%+-]+@[a-zA-Z0-9.-]+\.[a-zA-Z]{2,}$] *)
Definition email_pattern : pattern :=
  Pattern (Cat (plus (Class email_local))
          (Cat (chr "@")
          (Cat (plus (Class email_host))
          (Cat (chr ".") (rep_from 2 (Class alpha))))))
          true.

Definition IOC_PATTERNS : list (string * pattern) :=
  [ ("ip", ip_pattern);
    ("domain", domain_pattern);
    ("url", url_pattern);
    ("hash_md5", hash_pattern 32);
    ("hash_sha1", hash_pattern 40);
    ("hash_sha256", hash_pattern 64);
    ("email", email_pattern) ].

(** The loop of [detect_ioc_type] over [patterns.items()]. *)
Fixpoint first_match (patterns : list (string * pattern)) (ioc : string)
    : option string :=
  match patterns with
  | [] => None
  | (ioc_type, pattern) :: rest =>
      if re_match pattern ioc then Some ioc_type else first_match rest ioc
  end.

(** [detect_ioc_type(ioc)]. *)
Definition detect_ioc_type (ioc : string) : option string :=
  first_match IOC_PATTERNS ioc.

(** *** Vocabulary of the statements about [detect_ioc_type] *)

Definition dot : ascii := "."%char.
Definition at_sign : ascii := "@"%char.

(** The characters of a string. *)
Definition chars (s : string) : list ascii := list_ascii_of_string s.

(** One to three decimal digits. *)
Definition octet (o : string) : Prop :=
  (1 <= length (chars o) <= 3)%nat /\ all_in digit (chars o).

(** At least two letters. *)
Definition tld (t : string) : Prop :=
  (2 <= length (chars t))%nat /\ all_in alpha (chars t).

(** A single host label as [domain_pattern] accepts it: a letter or
    digit, up to 61 letters, digits or hyphens, and possibly one more
    letter or digit. *)
Definition host_label (l : string) : Prop :=
  exists (a : ascii) (middle final : list ascii),
    chars l = a :: middle ++ final
    /\ alnum a = true
    /\ (length middle <= 61)%nat /\ all_in alnum_dash middle
    /\ (length final <= 1)%nat /\ all_in alnum final.

(** The same on lists of characters. *)
Definition octet_chars (o : list ascii) : Prop :=
  (1 <= length o <= 3)%nat /\ all_in digit o.

Definition tld_chars (t : list ascii) : Prop :=
  (2 <= length t)%nat /\ all_in alpha t.

(** The characters the patterns ending with [$] can match, and those
    that are no at sign and no dot. *)
Definition plain (c : ascii) : bool := email_local c || Ascii.eqb c "@".
Definition not_at (c : ascii) : bool := negb (Ascii.eqb c "@").
Definition not_dot (c : ascii) : bool := negb (Ascii.eqb c ".").

(** The last character of [w] belongs to the class [p]. *)
Definition last_is (p : ascii -> bool) (w : list ascii) : Prop :=
  exists c, last w = Some c /\ p c = true.

(** A non-empty string of characters of the class [p]. *)
Definition some_of (p : ascii -> bool) (s : string) : Prop :=
  (1 <= length (chars s))%nat /\ all_in p (chars s).

(** The hash type whose pattern asks for [n] characters. *)
Definition hash_type_of_length (n : nat) : option string :=
  if Nat.eqb n 32 then Some "hash_md5"
  else if Nat.eqb n 40 then Some "hash_sha1"
  else if Nat.eqb n 64 then Some "hash_sha256"
  else None.

(** Nothing or one newline: what [$] tolerates after the match. *)
Definition line_end (e : string) : Prop := e = "" \/ e = String newline "".

End Detect.

(* ===================================================================== *)
(** ** llm_engine.py: the language model and its mock                    *)
(* ===================================================================== *)

Module LLMEngine.
Import Regex.

(** The text made of the given lines, each one ended by a newline. *)
Definition text (lines : list string) : string :=
  fold_right (fun line rest => line ++ String newline rest)%string "" lines.

(** [_mock_response(prompt)]: the same text for every prompt. *)
Definition _mock_response (prompt : string) : string :=
  text
    [ "";
      "THREAT ANALYSIS (Mock Mode):";
      "";
      "The analyzed indicator appears to be potentially malicious based on pattern analysis.";
      "";
      "Key Findings:";
      "- Indicator shows characteristics associated with known threat patterns";
      "- Recommended blocking at network perimeter";
      "- Monitor for related indicators";
      "- Review historical logs for similar patterns";
      "";
      "MITRE ATT&CK Mapping:";
      "- Tactic: Initial Access, Execution";
      "- Technique: T1566 (Phishing), T1059 (Command and Scripting Interpreter)";
      "";
      "Confidence Level: Medium (0.6)";
      "";
      "Recommendations:";
      "1. Implement network-level blocking";
      "2. Enhance monitoring and detection rules";
      "3. Conduct threat hunting activities";
      "4. Update threat intelligence feeds";
      "";
      "Note: This is a mock response. Configure OpenAI API key for full functionality." ].

(** [analyze(prompt)].  [llm] is [self.llm]: [None] without an API key,
    otherwise the model, whose call [predict(prompt)] returns a text or
    raises ([None]). *)
Definition analyze (llm : option (string -> option string)) (prompt : string)
    : string :=
  match llm with
  | None => _mock_response prompt
  | Some predict =>
      match predict prompt with
      | Some response => response
      | None => _mock_response prompt
      end
  end.

End LLMEngine.

(* ===================================================================== *)
(** ** analyzer.py: the analysis of one indicator                        *)
(* ===================================================================== *)

Module ThreatAnalyzer.
Import Float64 PyStr Regex Detect Mitre Analyzer Correlator LLMEngine.

(** [parsed_data], a dictionary with these four keys. *)
Record parsed_data := ParsedData {
  p_description : string;
  p_recommendations : list string;
  p_sources : list string;
  p_confidence : Q
}.

(** [_parse_llm_response(response)]; [response[:500]] is the text of
    the first 500 characters. *)
Definition _parse_llm_response (response : string) : parsed_data :=
  {| p_description :=
       if String.eqb response "" then "No description available"
       else take_chars 500 response;
     p_recommendations :=
       [ "Monitor network traffic for suspicious activity";
         "Block the indicator at perimeter defenses";
         "Review logs for related indicators";
         "Update threat intelligence feeds" ];
     p_sources := ["LLM Analysis"];
     p_confidence := lit 0.7 |}.

(** [_build_analysis_prompt(ioc, ioc_type, context)].  [context] is the
    text the dictionary is formatted to, [None] for no dictionary or an
    empty one. *)
Definition _build_analysis_prompt (ioc ioc_type : string) (context : option string)
    : string :=
  let prompt :=
    text [ "Analyze the following security indicator:";
           "";
           "IOC: " ++ ioc;
           "Type: " ++ ioc_type ]%string in
  let prompt :=
    match context with
    | Some context => (prompt ++ text [ ""; "Additional Context:"; context ])%string
    | None => prompt
    end in
  (prompt ++ text
    [ "";
      "Provide a comprehensive threat intelligence analysis including:";
      "1. Threat description and potential impact";
      "2. Known attack patterns or campaigns";
      "3. Recommended mitigation actions";
      "4. Confidence level (0-1)";
      "5. Related IOCs or threat actors if known";
      "";
      "Format the response as structured data." ])%string.

(** A string that counts as true: present and not empty. *)
Definition truthy (o : option string) : option string :=
  match o with
  | Some EmptyString => None
  | _ => o
  end.

Section Analysis.

Context {Meta : Type}.

Record ThreatAnalysisResult := {
  res_ioc : string;
  res_ioc_type : string;
  res_threat_score : Q;
  res_severity : string;
  res_mitre_tactics : list string;
  res_mitre_techniques : list string;
  res_description : string;
  res_recommendations : list string;
  res_sources : list string;
  res_timestamp : string;
  res_confidence : Q;
  res_related_threats : list (@related_threat Meta)
}.

(** [analyze_ioc(ioc, ioc_type, context)].  [str_lower] is the method
    [str.lower], [db] the correlator's [threat_database], [llm] the
    engine's model, [cached] what the cache answered for the key of
    [ioc] ([None] without a cache, on a miss and on a cache error) and
    [now] the text of the clock reading. *)
Definition analyze_ioc (str_lower : string -> string)
    (db : gmap string (list (@threat_entry Meta)))
    (llm : option (string -> option string))
    (cached : option ThreatAnalysisResult) (now : string)
    (ioc : string) (ioc_type : option string) (context : option string)
    : ThreatAnalysisResult :=
  (* Auto-detect IOC type if not provided *)
  let ioc_type :=
    match truthy ioc_type with
    | Some ioc_type => ioc_type
    | None =>
        match truthy (detect_ioc_type ioc) with
        | Some ioc_type => ioc_type
        | None => "unknown"
        end
    end in
  (* Check cache *)
  match cached with
  | Some cached_result => cached_result
  | None =>
      (* Build analysis prompt *)
      let prompt := _build_analysis_prompt ioc ioc_type context in
      (* Get LLM analysis *)
      let llm_response := analyze llm prompt in
      (* Parse LLM response *)
      let parsed_data := _parse_llm_response llm_response in
      (* Map to MITRE ATT&CK *)
      let mitre_mapping := map_to_mitre str_lower (p_description parsed_data) in
      (* Calculate threat score *)
      let threat_score :=
        _calculate_threat_score (Some (p_confidence parsed_data))
                                (Some (matched_techniques mitre_mapping)) in
      (* Get related threats *)
      let related_threats := find_related db ioc ioc_type 10 in
      {| res_ioc := ioc;
         res_ioc_type := ioc_type;
         res_threat_score := threat_score;
         res_severity := _get_severity threat_score;
         res_mitre_tactics := matched_tactics mitre_mapping;
         res_mitre_techniques := matched_techniques mitre_mapping;
         res_description := p_description parsed_data;
         res_recommendations := p_recommendations parsed_data;
         res_sources := p_sources parsed_data;
         res_timestamp := now;
         res_confidence := p_confidence parsed_data;
         res_related_threats := related_threats |}
  end.

End Analysis.

End ThreatAnalyzer.

(* ===================================================================== *)
(** * Properties                                                         *)
(* ===================================================================== *)

Module Float64Facts.
Import Float64.
#[local] Open Scope Q_scope.

Lemma pow2_pos (e : Z) : 0 < 2 ^ e.
Proof. apply Qpower_0_lt. reflexivity. Qed.

Lemma pow2_neq0 (e : Z) : ~ 2 ^ e == 0.
Proof. pose proof (pow2_pos e). lra. Qed.

Lemma pow2_add (a b : Z) : 2 ^ (a + b) == 2 ^ a * 2 ^ b.
Proof. apply Qpower_plus. discriminate. Qed.

Lemma pow2_le (a b : Z) : (a <= b)%Z -> 2 ^ a <= 2 ^ b.
Proof. intros H. apply Qpower_le_compat_l; [exact H | discriminate]. Qed.

Lemma pow2_lt (a b : Z) : (a < b)%Z -> 2 ^ a < 2 ^ b.
Proof. intros H. apply Qpower_lt_compat_l; [exact H | reflexivity]. Qed.

Lemma pow2_lt_inv (a b : Z) : 2 ^ a < 2 ^ b -> (a < b)%Z.
Proof. intros H. apply (Qpower_lt_compat_l_inv 2); [exact H | reflexivity]. Qed.

Lemma pow2_of_Z (n : Z) : (0 <= n)%Z -> 2 ^ n == inject_Z (2 ^ n).
Proof. intros H. symmetry. apply (Zpower_Qpower 2 n H). Qed.

(** [mag] brackets its argument between two consecutive powers of two. *)
Lemma mag_spec (x : Q) : 0 < x -> 2 ^ (mag x - 1) <= x /\ x < 2 ^ mag x.
Proof.
  intros Hx. unfold mag.
  destruct x as [n d]. cbn [Qnum Qden].
  assert (Hn : (0 < n)%Z) by (unfold Qlt in Hx; cbn in Hx; lia).
  set (a := Z.log2 n). set (b := Z.log2 (Z.pos d)).
  assert (Ha : (2 ^ a <= n < 2 ^ (a + 1))%Z).
  { pose proof (Z.log2_spec n Hn) as H. rewrite <- Z.add_1_r in H. exact H. }
  assert (Hb : (2 ^ b <= Z.pos d < 2 ^ (b + 1))%Z).
  { pose proof (Z.log2_spec (Z.pos d) eq_refl) as H.
    rewrite <- Z.add_1_r in H. exact H. }
  assert (Ha0 : (0 <= a)%Z) by apply Z.log2_nonneg.
  assert (Hb0 : (0 <= b)%Z) by apply Z.log2_nonneg.
  assert (Hxq : n # d == inject_Z n / inject_Z (Z.pos d)).
  { rewrite (Qmake_Qdiv n d). reflexivity. }
  assert (Hd : 0 < inject_Z (Z.pos d)) by (unfold Qlt; cbn; lia).
  assert (Hlo : 2 ^ (a - b - 1) <= n # d).
  { replace (a - b - 1)%Z with (a + - (b + 1))%Z by lia.
    rewrite pow2_add, Qpower_opp, (pow2_of_Z a), (pow2_of_Z (b + 1)) by lia.
    rewrite Hxq.
    assert (H1 : inject_Z (2 ^ a) <= inject_Z n) by (rewrite <- Zle_Qle; lia).
    assert (H2 : inject_Z (Z.pos d) <= inject_Z (2 ^ (b + 1)))
      by (rewrite <- Zle_Qle; lia).
    assert (H3 : 0 < inject_Z (2 ^ a)).
    { rewrite <- (pow2_of_Z a) by lia. apply pow2_pos. }
    apply Qle_shift_div_l; [exact Hd |].
    assert (E : inject_Z (2 ^ a) * / inject_Z (2 ^ (b + 1)) * inject_Z (Z.pos d)
                == inject_Z (2 ^ a) * inject_Z (Z.pos d) / inject_Z (2 ^ (b + 1)))
      by (field; lra).
    rewrite E. apply Qle_shift_div_r; [lra |].
    rewrite <- !inject_Z_mult, <- Zle_Qle. nia. }
  assert (Hhi : n # d < 2 ^ (a - b + 1)).
  { replace (a - b + 1)%Z with ((a + 1) + - b)%Z by lia.
    rewrite pow2_add, Qpower_opp, (pow2_of_Z (a + 1)), (pow2_of_Z b) by lia.
    rewrite Hxq.
    assert (H1 : inject_Z n < inject_Z (2 ^ (a + 1))) by (rewrite <- Zlt_Qlt; lia).
    assert (H2 : inject_Z (2 ^ b) <= inject_Z (Z.pos d))
      by (rewrite <- Zle_Qle; lia).
    assert (H3 : 0 < inject_Z (2 ^ b)).
    { rewrite <- (pow2_of_Z b) by lia. apply pow2_pos. }
    apply Qlt_shift_div_r; [exact Hd |].
    assert (E : inject_Z (2 ^ (a + 1)) * / inject_Z (2 ^ b) * inject_Z (Z.pos d)
                == inject_Z (2 ^ (a + 1)) * inject_Z (Z.pos d) / inject_Z (2 ^ b))
      by (field; lra).
    rewrite E. apply Qlt_shift_div_l; [lra |].
    rewrite <- !inject_Z_mult, <- Zlt_Qlt. nia. }
  destruct (Qle_bool (2 ^ (a - b)) (n # d)) eqn:E.
  - apply Qle_bool_iff in E. split.
    + replace (a - b + 1 - 1)%Z with (a - b)%Z by lia. exact E.
    + exact Hhi.
  - split.
    + exact Hlo.
    + destruct (Qlt_le_dec (n # d) (2 ^ (a - b))) as [H | H]; [exact H |].
      apply Qle_bool_iff in H. congruence.
Qed.

Lemma mag_unique (x : Q) (e : Z) : 2 ^ (e - 1) <= x -> x < 2 ^ e -> mag x = e.
Proof.
  intros Hlo Hhi.
  assert (Hx : 0 < x) by (pose proof (pow2_pos (e - 1)); lra).
  destruct (mag_spec x Hx) as [Mlo Mhi].
  assert (mag x - 1 < e)%Z by (apply pow2_lt_inv; lra).
  assert (e - 1 < mag x)%Z by (apply pow2_lt_inv; lra).
  lia.
Qed.

Lemma mag_le (x : Q) (e : Z) : 0 < x -> x < 2 ^ e -> (mag x <= e)%Z.
Proof.
  intros Hx Hhi. destruct (mag_spec x Hx) as [Mlo _].
  assert (mag x - 1 < e)%Z by (apply pow2_lt_inv; lra). lia.
Qed.

(** *** Rounding to an integer *)

Lemma rne_floor (m : Q) : (Qfloor m <= rne m <= Qfloor m + 1)%Z.
Proof.
  unfold rne; cbv zeta. destruct (Qcompare _ _); [destruct (Z.even _) | |]; lia.
Qed.

Lemma rne_le_int (m : Q) (M : Z) : m <= inject_Z M -> (rne m <= M)%Z.
Proof.
  intros H.
  pose proof (Qfloor_resp_le _ _ H) as Hf. rewrite Qfloor_Z in Hf.
  destruct (Z.eq_dec (Qfloor m) M) as [E | NE].
  - pose proof (Qfloor_le m) as Hm. rewrite E in Hm.
    unfold rne; cbv zeta. rewrite E.
    assert (L : m - inject_Z M < 1 # 2) by lra.
    rewrite (proj1 (Qlt_alt _ _) L). lia.
  - pose proof (rne_floor m). lia.
Qed.

Lemma rne_nonneg (m : Q) : 0 <= m -> (0 <= rne m)%Z.
Proof.
  intros H. pose proof (Qfloor_resp_le _ _ H) as Hf.
  change (Qfloor 0) with 0%Z in Hf. pose proof (rne_floor m). lia.
Qed.

Lemma inject_Z_pred (M : Z) : inject_Z (M - 1) == inject_Z M - 1.
Proof. unfold Z.sub. rewrite inject_Z_plus, inject_Z_opp. reflexivity. Qed.

Lemma rne_below_half (m : Q) (M : Z) :
  m < inject_Z M - (1 # 2) -> (rne m <= M - 1)%Z.
Proof.
  intros H.
  assert (Hf : (Qfloor m <= M - 1)%Z).
  { pose proof (Qfloor_le m) as Hm.
    assert (Hlt : inject_Z (Qfloor m) < inject_Z M) by lra.
    rewrite <- Zlt_Qlt in Hlt. lia. }
  destruct (Z.eq_dec (Qfloor m) (M - 1)%Z) as [E | NE].
  - unfold rne; cbv zeta. rewrite E.
    assert (L : m - inject_Z (M - 1) < 1 # 2).
    { rewrite inject_Z_pred. lra. }
    rewrite (proj1 (Qlt_alt _ _) L). lia.
  - pose proof (rne_floor m). lia.
Qed.

Lemma rne_int (k : Z) : rne (inject_Z k) = k.
Proof.
  unfold rne; cbv zeta. rewrite Qfloor_Z.
  assert (L : inject_Z k - inject_Z k < 1 # 2) by lra.
  rewrite (proj1 (Qlt_alt _ _) L). reflexivity.
Qed.

(** *** Rounding into binary64 *)

Lemma round_pos_eq (x : Q) :
  round_pos x == inject_Z (rne (x / 2 ^ cexp x)) * 2 ^ cexp x.
Proof. unfold round_pos. apply Qred_correct. Qed.

Lemma round_pos_nonneg (x : Q) : 0 <= x -> 0 <= round_pos x.
Proof.
  intros Hx. rewrite round_pos_eq.
  pose proof (pow2_pos (cexp x)) as Hp.
  apply Qmult_le_0_compat; [| lra].
  change 0 with (inject_Z 0). rewrite <- Zle_Qle. apply rne_nonneg.
  apply Qle_shift_div_l; [exact Hp | lra].
Qed.

(** A positive integer below [2^53] bounds the rounding of whatever it
    bounds: it is itself a binary64 value on the grid of every smaller
    binade. *)
Lemma round_pos_le_int (x : Q) (B : Z) :
  0 < x -> x <= inject_Z B -> (B < 2 ^ 53)%Z -> round_pos x <= inject_Z B.
Proof.
  intros Hx HB Hsmall.
  assert (Hm : (mag x <= 53)%Z).
  { apply mag_le; [exact Hx |]. rewrite (pow2_of_Z 53) by lia.
    apply Qle_lt_trans with (inject_Z B); [exact HB |].
    rewrite <- Zlt_Qlt. exact Hsmall. }
  assert (He : (cexp x <= 0)%Z) by (unfold cexp, prec, emin; lia).
  rewrite round_pos_eq. set (e := cexp x) in *.
  pose proof (pow2_pos e) as Hp.
  assert (Hgrid : inject_Z B / 2 ^ e == inject_Z (B * 2 ^ (- e))).
  { rewrite inject_Z_mult, <- (pow2_of_Z (- e)) by lia.
    rewrite Qpower_opp. field. apply pow2_neq0. }
  assert (Hr : (rne (x / 2 ^ e) <= B * 2 ^ (- e))%Z).
  { apply rne_le_int. rewrite <- Hgrid.
    apply Qmult_le_compat_r; [exact HB |].
    apply Qlt_le_weak, Qinv_lt_0_compat, Hp. }
  apply Qle_trans with (inject_Z (B * 2 ^ (- e)) * 2 ^ e).
  - apply Qmult_le_compat_r; [| lra]. rewrite <- Zle_Qle. exact Hr.
  - rewrite <- Hgrid. field_simplify; [lra | apply pow2_neq0].
Qed.

Lemma round64_0 : round64 0 = 0.
Proof. reflexivity. Qed.

Lemma round64_pos (x : Q) : 0 < x -> round64 x = round_pos x.
Proof. intros H. unfold round64. rewrite (proj1 (Qgt_alt _ _) H). reflexivity. Qed.

Lemma round64_nonneg (x : Q) : 0 <= x -> 0 <= round64 x.
Proof.
  intros H. unfold round64. destruct (Qcompare_spec x 0) as [E | L | G].
  - lra.
  - lra.
  - apply round_pos_nonneg. lra.
Qed.

Lemma round64_le_int (x : Q) (B : Z) :
  0 <= x -> x <= inject_Z B -> (B < 2 ^ 53)%Z -> round64 x <= inject_Z B.
Proof.
  intros H0 HB Hs. unfold round64. destruct (Qcompare_spec x 0) as [E | L | G].
  - lra.
  - lra.
  - apply round_pos_le_int; assumption.
Qed.

Lemma mag_proper (x y : Q) : 0 < x -> x == y -> mag x = mag y.
Proof.
  intros Hx E. destruct (mag_spec x Hx) as [Lo Hi].
  symmetry. apply mag_unique; rewrite <- E; assumption.
Qed.

Lemma rne_proper (x y : Q) : x == y -> rne x = rne y.
Proof.
  intros E. unfold rne; cbv zeta. rewrite (Qfloor_comp x y E).
  replace (Qcompare (x - inject_Z (Qfloor y)) (1 # 2))
    with (Qcompare (y - inject_Z (Qfloor y)) (1 # 2)); [reflexivity |].
  apply Qcompare_comp; [rewrite E |]; reflexivity.
Qed.

Lemma round_pos_proper (x y : Q) : 0 < x -> x == y -> round_pos x = round_pos y.
Proof.
  intros Hx E. unfold round_pos, cexp. rewrite (mag_proper x y Hx E).
  apply Qred_complete.
  rewrite (rne_proper (x / 2 ^ Z.max (mag y - prec) emin)
                      (y / 2 ^ Z.max (mag y - prec) emin)); [reflexivity |].
  rewrite E. reflexivity.
Qed.

(** Rounding respects the equality of rationals, and its result is a
    reduced fraction: equal values round to identical terms. *)
Lemma round64_proper (x y : Q) : x == y -> round64 x = round64 y.
Proof.
  intros E. unfold round64.
  rewrite (Qcompare_comp x y E 0 0 (Qeq_refl 0)).
  destruct (Qcompare_spec y 0) as [E0 | L | G].
  - reflexivity.
  - f_equal. apply round_pos_proper; [lra | rewrite E; reflexivity].
  - apply round_pos_proper; [lra | exact E].
Qed.

(** A binary64 value below one is at most the predecessor of one. *)
Lemma float_below_one (c : Q) :
  is_float c -> c < 1 -> c <= 1 - (1 # 9007199254740992).
Proof.
  intros Hf H1. destruct (Qlt_le_dec 0 c) as [Hc | Hc]; [| lra].
  unfold is_float in Hf. rewrite (round64_pos c Hc), round_pos_eq in Hf.
  assert (Hm : (mag c <= 0)%Z) by (apply mag_le; [exact Hc | exact H1]).
  destruct (mag_spec c Hc) as [_ Hhi].
  destruct (Z.eq_dec (mag c) 0%Z) as [E0 | NE].
  - unfold cexp, prec, emin in Hf. rewrite E0 in Hf.
    change (Z.max (0 - 53) (-1074)) with (-53)%Z in Hf.
    set (k := rne (c / 2 ^ (-53))) in Hf.
    assert (P : 2 ^ (-53) == 1 # 9007199254740992) by reflexivity.
    rewrite P in Hf.
    assert (Hk : (k <= 9007199254740991)%Z).
    { assert (Hlt : inject_Z k < inject_Z 9007199254740992).
      { change (inject_Z 9007199254740992) with (9007199254740992 # 1). lra. }
      rewrite <- Zlt_Qlt in Hlt. lia. }
    rewrite Zle_Qle in Hk.
    change (inject_Z 9007199254740991) with (9007199254740991 # 1) in Hk. lra.
  - assert (Hh : 2 ^ mag c <= 2 ^ (-1)) by (apply pow2_le; lia).
    assert (P : 2 ^ (-1) == 1 # 2) by reflexivity. rewrite P in Hh.
    set (p := 2 ^ mag c) in *. lra.
Qed.

(** The product of eighty and a binary64 value below one rounds to a
    value below eighty. *)
Lemma round64_80_strict (c : Q) :
  is_float c -> 0 <= c -> c < 1 -> round64 (80 * c) < 80.
Proof.
  intros Hf H0 H1. pose proof (float_below_one c Hf H1) as Hc.
  destruct (Qlt_le_dec (80 * c) 64) as [Hs | Hs].
  - apply Qle_lt_trans with (inject_Z 64); [| reflexivity].
    apply round64_le_int; [lra | change (inject_Z 64) with 64; lra | reflexivity].
  - assert (Hx : 0 < 80 * c) by lra.
    rewrite (round64_pos _ Hx), round_pos_eq.
    assert (Hm : mag (80 * c) = 7%Z).
    { apply mag_unique.
      - change (2 ^ (7 - 1)) with 64. exact Hs.
      - change (2 ^ 7) with 128. lra. }
    unfold cexp, prec, emin. rewrite Hm.
    change (Z.max (7 - 53) (-1074)) with (-46)%Z.
    assert (P : 2 ^ (-46) == 1 # 70368744177664) by reflexivity.
    set (k := rne (80 * c / 2 ^ (-46))).
    assert (Hk : (k <= 5629499534213120 - 1)%Z).
    { apply rne_below_half. rewrite P.
      change (inject_Z 5629499534213120) with (5629499534213120 # 1).
      unfold Qdiv. change (/ (1 # 70368744177664)) with (70368744177664 # 1). lra. }
    rewrite Zle_Qle in Hk.
    change (inject_Z (5629499534213120 - 1)) with (5629499534213119 # 1) in Hk.
    rewrite P. lra.
Qed.
(** On sample inputs the model computes what the standard library's
    specification of IEEE-754 arithmetic computes at precision 53 and
    maximal exponent 1024, subnormal results included. *)
Example agrees_with_SpecFloat :
  of_spec (SFmul 53 1024 (to_spec 55) (to_spec (lit 0.7))) = fmul 55 (lit 0.7)
  /\ of_spec (SFmul 53 1024 (to_spec 80) (to_spec (lit 0.9999999999999999)))
     = fmul 80 (lit 0.9999999999999999)
  /\ of_spec (SFmul 53 1024 (to_spec 75) (to_spec (lit 0.1))) = fmul 75 (lit 0.1)
  /\ of_spec (SFmul 53 1024 (to_spec 65) (to_spec (lit 1e-310)))
     = fmul 65 (lit 1e-310)
  /\ of_spec (SFmul 53 1024 (to_spec (lit 0.3)) (to_spec (lit 1e-310)))
     = fmul (lit 0.3) (lit 1e-310)
  /\ of_spec (SFadd 53 1024 (to_spec (lit 0.1)) (to_spec (lit 0.2)))
     = fadd (lit 0.1) (lit 0.2).
Proof. vm_compute. repeat split. Qed.

(** Literals and small integers are binary64 values. *)
Example literals_are_floats :
  is_float (lit 0.7) /\ is_float (lit 0.5) /\ is_float (lit 0.3)
  /\ is_float 0 /\ is_float 1 /\ is_float 80 /\ is_float (lit 79.999).
Proof. vm_compute. repeat split. Qed.

(** The literal [0.7] is the binary64 number [0x1.6666666666666p-1]. *)
Example lit_0_7 : lit 0.7 = 3152519739159347 # 4503599627370496.
Proof. vm_compute. reflexivity. Qed.

End Float64Facts.

Module AnalyzerFacts.
Import Float64 Float64Facts Analyzer.
#[local] Open Scope Q_scope.

(** The capped technique bonus takes one of seven values. *)
Lemma bonus_cases (n : nat) :
  let b := Z.min (Z.of_nat n * 5) 30 in
  (b = 0 \/ b = 5 \/ b = 10 \/ b = 15 \/ b = 20 \/ b = 25 \/ b = 30)%Z
  /\ (b = 30%Z <-> (6 <= n)%nat).
Proof. cbv zeta. split; lia. Qed.

(** [50.0 + bonus] is computed without rounding error. *)
Lemma base_exact (n : nat) :
  fadd (lit 50) (of_int (Z.min (Z.of_nat n * 5) 30))
  = inject_Z (50 + Z.min (Z.of_nat n * 5) 30).
Proof.
  destruct (bonus_cases n) as [H _]. cbv zeta in H.
  destruct H as [-> | [-> | [-> | [-> | [-> | [-> | ->]]]]]]; vm_compute; reflexivity.
Qed.

Lemma score_unfold (n : nat) (ts : list string) (c : Q) :
  length ts = n ->
  _calculate_threat_score (Some c) (Some ts)
  = py_min (fmul (inject_Z (50 + Z.min (Z.of_nat n * 5) 30)) c) (inject_Z 100).
Proof.
  intros <-. unfold _calculate_threat_score. cbn [default from_option].
  rewrite base_exact. reflexivity.
Qed.

Lemma product_bounds (b : Z) (c : Q) :
  (50 <= b <= 80)%Z -> 0 <= c <= 1 ->
  0 <= fmul (inject_Z b) c <= inject_Z b.
Proof.
  intros Hb [H0 H1].
  assert (Hb' : 50 <= inject_Z b <= 80).
  { split; [change 50 with (inject_Z 50) | change 80 with (inject_Z 80)];
      rewrite <- Zle_Qle; lia. }
  assert (Hp : 0 <= inject_Z b * c <= inject_Z b) by (split; nra).
  unfold fmul. split.
  - apply round64_nonneg. lra.
  - apply round64_le_int; [lra | lra | lia].
Qed.

Lemma py_min_below (x y : Q) : x <= y -> py_min x y = x.
Proof.
  intros H. unfold py_min, flt.
  apply Qle_bool_iff in H. rewrite H. reflexivity.
Qed.

(** One matched technique and the confidence [0.7] that
    [_parse_llm_response] reports: the score is 38.5, of severity LOW. *)
Example score_phishing_0_7 :
  _calculate_threat_score (Some (lit 0.7)) (Some ["T1566"]) = 77 # 2
  /\ _get_severity (77 # 2) = "LOW".
Proof. vm_compute. split; reflexivity. Qed.

(** Absent keys take the defaults: no technique, confidence [0.5]. *)
Example score_defaults : _calculate_threat_score None None = 25.
Proof. vm_compute. reflexivity. Qed.

Lemma bonus_range (n : nat) : (50 <= 50 + Z.min (Z.of_nat n * 5) 30 <= 80)%Z.
Proof. lia. Qed.

(** C1. For every list of matched techniques (of length [n]) and every
    confidence [c] in [[0,1]], the computed threat score equals
    [min((50.0 + min(n * 5, 30)) * c, 100.0)], the product being the
    binary64 one (and the exact one whenever the exact product is a
    binary64 value); it lies in [[0,100]], and is zero when the
    confidence is zero. *)
Theorem threat_score_formula_and_range (techniques : list string) (c : Q) :
  0 <= c <= 1 ->
  let n := Z.of_nat (length techniques) in
  let s := _calculate_threat_score (Some c) (Some techniques) in
  s == score_formula n c
  /\ (is_float ((50 + inject_Z (Z.min (n * 5) 30)) * c) ->
      s == Qmin ((50 + inject_Z (Z.min (n * 5) 30)) * c) 100)
  /\ 0 <= s <= 100
  /\ (c == 0 -> s == 0).
Proof.
  intros Hc n s. subst n s.
  rewrite (score_unfold (length techniques) techniques c eq_refl).
  set (b := (50 + Z.min (Z.of_nat (length techniques) * 5) 30)%Z).
  pose proof (bonus_range (length techniques)) as Hb. fold b in Hb.
  destruct (product_bounds b c Hb Hc) as [Plo Phi].
  assert (Hb80 : inject_Z b <= 80).
  { change 80 with (inject_Z 80). rewrite <- Zle_Qle. lia. }
  rewrite py_min_below by (change (inject_Z 100) with 100; lra).
  assert (Eb : (50 + inject_Z (Z.min (Z.of_nat (length techniques) * 5) 30)) * c
               == inject_Z b * c).
  { unfold b. rewrite inject_Z_plus. reflexivity. }
  assert (Ef : fmul (50 + inject_Z (Z.min (Z.of_nat (length techniques) * 5) 30)) c
               = fmul (inject_Z b) c).
  { unfold fmul. apply round64_proper. exact Eb. }
  split; [| split; [| split]].
  - unfold score_formula. rewrite Ef. symmetry. apply Q.min_l. lra.
  - intros Hfl. unfold is_float in Hfl. fold (fmul (50 + inject_Z
      (Z.min (Z.of_nat (length techniques) * 5) 30)) c) in Hfl.
    rewrite Ef in Hfl. rewrite <- Hfl. symmetry. apply Q.min_l. lra.
  - lra.
  - intros E. unfold fmul.
    rewrite (round64_proper (inject_Z b * c) 0) by (rewrite E; ring).
    reflexivity.
Qed.

Lemma threat_score_formula_and_range_witness :
  0 <= 1 # 2 <= 1 /\
  _calculate_threat_score (Some (1 # 2)) (Some ["T1566"; "T1059"]) == 30.
Proof.
  split; [split; discriminate |].
  destruct (threat_score_formula_and_range ["T1566"; "T1059"] (1 # 2)) as [E _].
  - split; discriminate.
  - rewrite E. vm_compute. reflexivity.
Defined.

(** C2. The severity is a function of the score alone, decided by the
    inclusive lower bounds 80, 60, 40, 20 taken from the highest down;
    the five tiers are pairwise disjoint and cover every score; 80.0 is
    CRITICAL and 79.999 is HIGH. *)
Theorem severity_tiers (s : Q) :
  (_get_severity s = "CRITICAL" <-> 80 <= s) /\
  (_get_severity s = "HIGH" <-> 60 <= s < 80) /\
  (_get_severity s = "MEDIUM" <-> 40 <= s < 60) /\
  (_get_severity s = "LOW" <-> 20 <= s < 40) /\
  (_get_severity s = "INFO" <-> s < 20) /\
  _get_severity 80 = "CRITICAL" /\
  _get_severity (lit 79.999) = "HIGH".
Proof.
  unfold _get_severity, fle.
  change (inject_Z 80) with 80. change (inject_Z 60) with 60.
  change (inject_Z 40) with 40. change (inject_Z 20) with 20.
  destruct (Qle_bool 80 s) eqn:E80; [| destruct (Qle_bool 60 s) eqn:E60;
    [| destruct (Qle_bool 40 s) eqn:E40; [| destruct (Qle_bool 20 s) eqn:E20]]].
  all: repeat match goal with
       | H : Qle_bool _ _ = true |- _ => apply Qle_bool_iff in H
       | H : Qle_bool ?a ?b = false |- _ =>
           assert (b < a) by
             (destruct (Qlt_le_dec b a) as [L | L]; [exact L |];
              apply Qle_bool_iff in L; congruence);
           clear H
       end.
  all: repeat split; try discriminate; try lra; intros; try lra.
Qed.

Lemma severity_critical_iff (s : Q) : _get_severity s = "CRITICAL" <-> 80 <= s.
Proof.
  unfold _get_severity, fle. change (inject_Z 80) with 80.
  destruct (Qle_bool 80 s) eqn:E.
  - apply Qle_bool_iff in E. split; [intros _; exact E | reflexivity].
  - split.
    + repeat (destruct (Qle_bool _ s)); discriminate.
    + intros H. apply Qle_bool_iff in H. congruence.
Qed.

(** C10. For every list of matched techniques (of length [n]) and every
    binary64 confidence [c] in [[0,1]], the product computed before the
    final [min] is at most 80, so the clamp at 100 returns it unchanged;
    the score is 80, equivalently the severity is CRITICAL, exactly when
    [c = 1] and [n >= 6]. *)
Theorem threat_score_at_most_80 (techniques : list string) (c : Q) :
  is_float c -> 0 <= c <= 1 ->
  let n := length techniques in
  let product := fmul (fadd (lit 50) (of_int (Z.min (Z.of_nat n * 5) 30))) c in
  let s := _calculate_threat_score (Some c) (Some techniques) in
  s <= 80 /\ s = product /\
  (s == 80 <-> c == 1 /\ (6 <= n)%nat) /\
  (_get_severity s = "CRITICAL" <-> c == 1 /\ (6 <= n)%nat).
Proof.
  intros Hf Hc n product s. subst product s.
  rewrite (score_unfold n techniques c eq_refl), base_exact.
  destruct (bonus_cases n) as [_ H30].
  pose proof (bonus_range n) as Hb. cbv zeta in H30.
  set (b := (50 + Z.min (Z.of_nat n * 5) 30)%Z) in *.
  destruct (product_bounds b c Hb Hc) as [Plo Phi].
  assert (Hb80 : inject_Z b <= 80).
  { change 80 with (inject_Z 80). rewrite <- Zle_Qle. lia. }
  rewrite py_min_below by (change (inject_Z 100) with 100; lra).
  assert (Hiff : fmul (inject_Z b) c == 80 <-> c == 1 /\ (6 <= n)%nat).
  { split.
    - intros E. assert (Eb : b = 80%Z).
      { assert (L : inject_Z 80 <= inject_Z b) by (change (inject_Z 80) with 80; lra).
        rewrite <- Zle_Qle in L. lia. }
      split; [| apply H30; lia].
      destruct (Qlt_le_dec c 1) as [Lt1 | Ge1]; [| lra].
      pose proof (round64_80_strict c Hf (proj1 Hc) Lt1) as Hs.
      rewrite Eb in E. unfold fmul in E. change (inject_Z 80) with 80 in E. lra.
    - intros [E1 H6]. apply H30 in H6.
      assert (Eb : b = 80%Z) by lia. rewrite Eb. unfold fmul.
      rewrite (round64_proper (inject_Z 80 * c) 80) by (rewrite E1; reflexivity).
      reflexivity. }
  split; [lra | split; [reflexivity | split; [exact Hiff |]]].
  rewrite severity_critical_iff, <- Hiff. split; intros H; lra.
Qed.

Lemma threat_score_at_most_80_witness :
  _calculate_threat_score (Some 1)
    (Some ["T1566"; "T1059"; "T1105"; "T1071"; "T1090"; "T1189"]) == 80.
Proof.
  pose proof (threat_score_at_most_80
                ["T1566"; "T1059"; "T1105"; "T1071"; "T1090"; "T1189"] 1) as H.
  cbv zeta in H. apply H.
  - reflexivity.
  - split; discriminate.
  - split; [reflexivity | cbn; lia].
Defined.
End AnalyzerFacts.

(** Strings: occurrence, lower-casing of ASCII text, slices and
    dictionaries given by their items. *)
Module PyStrFacts.
Import PyStr.
#[local] Open Scope string_scope.

Lemma append_cons (c : ascii) (a b : string) :
  String c a ++ b = String c (a ++ b).
Proof. reflexivity. Qed.

Lemma startswith_spec (s p : string) :
  startswith s p = true <-> exists rest, s = p ++ rest.
Proof.
  revert s. induction p as [| a p IH]; intros s.
  - split; [intros _; exists s; reflexivity | intros _; destruct s; reflexivity].
  - destruct s as [| b s]; cbn [startswith].
    + split; [discriminate | intros [rest H]; discriminate H].
    + destruct (Ascii.eqb_spec a b) as [-> | Hne].
      * rewrite IH. split; intros [rest H]; exists rest.
        -- simpl. rewrite H. reflexivity.
        -- simpl in H. injection H as H. exact H.
      * split; [discriminate | intros [rest H]; simpl in H; injection H as Hc _; congruence].
Qed.

(** [contains s sub] holds exactly when [sub] occurs in [s]. *)
Lemma contains_spec (s sub : string) :
  contains s sub = true <-> exists pre post, s = pre ++ sub ++ post.
Proof.
  induction s as [| c s IH]; cbn [contains].
  - rewrite orb_false_r, startswith_spec. split.
    + intros [rest H]. exists "", rest. exact H.
    + intros (pre & post & H). destruct pre; [| discriminate H].
      exists post. exact H.
  - rewrite orb_true_iff, startswith_spec, IH. split.
    + intros [[rest H] | (pre & post & H)].
      * exists "", rest. exact H.
      * exists (String c pre), post. simpl. rewrite H. reflexivity.
    + intros (pre & post & H). destruct pre as [| c' pre].
      * left. exists post. exact H.
      * right. exists pre, post. simpl in H. injection H as _ H. exact H.
Qed.

Lemma append_assoc (a b c : string) : (a ++ b) ++ c = a ++ b ++ c.
Proof.
  induction a as [| x a IH]; [reflexivity |].
  rewrite !append_cons, IH. reflexivity.
Qed.

Lemma contains_refl (s : string) : contains s s = true.
Proof.
  apply contains_spec. exists "", "". change ("" ++ s ++ "") with (s ++ "").
  induction s as [| c s IH]; [reflexivity |].
  rewrite append_cons, <- IH. reflexivity.
Qed.

Lemma contains_empty (s : string) : contains s "" = true.
Proof. apply contains_spec. exists "", s. reflexivity. Qed.

Lemma contains_trans (s t u : string) :
  contains s t = true -> contains t u = true -> contains s u = true.
Proof.
  rewrite !contains_spec. intros (p1 & q1 & ->) (p2 & q2 & ->).
  exists (p1 ++ p2), (q2 ++ q1). rewrite !append_assoc. reflexivity.
Qed.

Lemma contains_in_empty (sub : string) : contains "" sub = true -> sub = "".
Proof.
  rewrite contains_spec. intros (pre & post & H).
  destruct pre; [| discriminate H]. destruct sub; [reflexivity | discriminate H].
Qed.

Lemma lower_append (a b : string) : lower (a ++ b) = lower a ++ lower b.
Proof.
  induction a as [| c a IH]; [reflexivity |].
  rewrite append_cons. cbn [lower]. rewrite append_cons, IH. reflexivity.
Qed.

Lemma lower_contains (s sub : string) :
  contains s sub = true -> contains (lower s) (lower sub) = true.
Proof.
  rewrite !contains_spec. intros (pre & post & ->).
  exists (lower pre), (lower post). rewrite !lower_append. reflexivity.
Qed.

Lemma lower_ascii_idem (c : ascii) : lower_ascii (lower_ascii c) = lower_ascii c.
Proof.
  destruct c as [[] [] [] [] [] [] [] []]; vm_compute; reflexivity.
Qed.

Lemma lower_idem (s : string) : lower (lower s) = lower s.
Proof.
  induction s as [| c s IH]; simpl; [reflexivity |].
  rewrite lower_ascii_idem, IH. reflexivity.
Qed.

Lemma dict_get_Some {V : Type} (d : list (string * V)) (k : string) (v : V) :
  dict_get d k = Some v -> (k, v) ∈ d.
Proof.
  induction d as [| [k' v'] d IH]; cbn [dict_get]; [discriminate |].
  destruct (decide (k' = k)) as [-> | _].
  - intros [= ->]. left.
  - intros H. right. apply IH, H.
Qed.

Lemma dict_get_None {V : Type} (d : list (string * V)) (k : string) :
  dict_get d k = None <-> k ∉ d.*1.
Proof.
  induction d as [| [k' v'] d IH]; cbn [dict_get fmap list_fmap fst].
  - split; [intros _ H; inversion H | reflexivity].
  - destruct (decide (k' = k)) as [-> | Hne].
    + split; [discriminate | intros H; exfalso; apply H; left].
    + rewrite IH, not_elem_of_cons. split; [intros H; split; congruence | tauto].
Qed.

Lemma dict_get_NoDup {V : Type} (d : list (string * V)) (k : string) (v : V) :
  NoDup (d.*1) -> (k, v) ∈ d -> dict_get d k = Some v.
Proof.
  induction d as [| [k' v'] d IH]; cbn [dict_get fmap list_fmap fst];
    intros Hnd Hin; [inversion Hin |].
  apply NoDup_cons in Hnd as [Hk' Hnd].
  destruct (decide (k' = k)) as [-> | Hne].
  - apply elem_of_cons in Hin as [[= ->] | Hin]; [reflexivity |].
    exfalso. apply Hk'. apply list_elem_of_fmap. exists (k, v). split; [reflexivity | exact Hin].
  - apply elem_of_cons in Hin as [[= -> ->] | Hin]; [congruence |].
    apply IH; assumption.
Qed.

(** *** ASCII text and its lower-casing *)

Lemma lowers_ascii_lower : lowers_ascii lower.
Proof. intros s _. reflexivity. Qed.

Lemma is_ascii_append (a b : string) :
  is_ascii (a ++ b) = (is_ascii a && is_ascii b)%bool.
Proof.
  induction a as [| c a IH]; [reflexivity |].
  rewrite append_cons. cbn [is_ascii]. rewrite IH, andb_assoc. reflexivity.
Qed.

Lemma is_ascii_contains (s sub : string) :
  is_ascii s = true -> contains s sub = true -> is_ascii sub = true.
Proof.
  intros Ha Hc. apply contains_spec in Hc as (pre & post & ->).
  rewrite !is_ascii_append in Ha.
  apply andb_true_iff in Ha as [_ Ha]. apply andb_true_iff in Ha as [Ha _].
  exact Ha.
Qed.

Lemma lower_ascii_folds (c k : ascii) : lower_ascii c = k <-> folds_to c k.
Proof.
  unfold lower_ascii, folds_to, is_upper. cbv zeta.
  change (nat_of_ascii "A"%char) with 65%nat.
  change (nat_of_ascii "Z"%char) with 90%nat.
  destruct (Nat.leb_spec 65 (nat_of_ascii c)) as [H1 | H1];
    destruct (Nat.leb_spec (nat_of_ascii c) 90) as [H2 | H2]; cbn [andb].
  - split.
    + intros <-. left. split; [lia |]. apply nat_ascii_embedding. lia.
    + intros [[_ E] | [Hn _]]; [| lia]. rewrite <- E. apply ascii_nat_embedding.
  - split; [intros <-; right; split; [lia | reflexivity] |].
    intros [[Hu _] | [_ E]]; [lia | congruence].
  - split; [intros <-; right; split; [lia | reflexivity] |].
    intros [[Hu _] | [_ E]]; [lia | congruence].
  - split; [intros <-; right; split; [lia | reflexivity] |].
    intros [[Hu _] | [_ E]]; [lia | congruence].
Qed.

Lemma lower_eq_folds (w k : string) :
  lower w = k <-> Forall2 folds_to (list_ascii_of_string w) (list_ascii_of_string k).
Proof.
  revert k. induction w as [| c w IH]; intros [| d k];
    cbn [lower list_ascii_of_string].
  - split; [constructor | reflexivity].
  - split; [discriminate | intros H; inversion H].
  - split; [discriminate | intros H; inversion H].
  - split.
    + intros [= Hc Hw].
      constructor; [apply lower_ascii_folds; exact Hc | apply IH; exact Hw].
    + intros H. inversion H; subst.
      f_equal; [apply lower_ascii_folds; assumption | apply IH; assumption].
Qed.

Lemma lower_split (s a b : string) :
  lower s = a ++ b -> exists s1 s2, s = s1 ++ s2 /\ lower s1 = a /\ lower s2 = b.
Proof.
  revert s. induction a as [| c a IH]; intros s H.
  - exists "", s. split; [reflexivity |]. split; [reflexivity | exact H].
  - destruct s as [| x s]; [discriminate H |].
    cbn [lower] in H. rewrite append_cons in H. injection H as Hc H.
    destruct (IH s H) as (s1 & s2 & -> & H1 & H2).
    exists (String x s1), s2. split; [reflexivity |].
    split; [cbn [lower]; rewrite Hc, H1; reflexivity | exact H2].
Qed.

(** A keyword occurs in the lower-cased ASCII text exactly when it
    occurs in the text up to the case of the letters of the text. *)
Lemma contains_lower (text keyword : string) :
  contains (lower text) keyword = true <-> occurs_ignoring_case keyword text.
Proof.
  rewrite contains_spec. unfold occurs_ignoring_case. split.
  - intros (pre & post & H). apply lower_split in H as (s1 & s23 & -> & H1 & H23).
    apply lower_split in H23 as (s2 & s3 & -> & H2 & H3).
    exists s1, s2, s3. split; [reflexivity |]. apply lower_eq_folds. exact H2.
  - intros (pre & mid & post & -> & H). apply lower_eq_folds in H.
    exists (lower pre), (lower post). rewrite !lower_append, H. reflexivity.
Qed.

(** *** Slices of text *)

Lemma ascii_not_continuation (c : ascii) :
  Nat.ltb (nat_of_ascii c) 128 = true -> is_continuation c = false.
Proof.
  unfold is_continuation. cbv zeta. intros H. apply Nat.ltb_lt in H.
  destruct (Nat.leb_spec 128 (nat_of_ascii c)); [lia | reflexivity].
Qed.

Lemma take_chars_count (n : nat) (s : string) :
  (char_count (take_chars n s) <= n)%nat.
Proof.
  revert n. induction s as [| c s IH]; intros n; cbn [take_chars]; [cbn; lia |].
  destruct (is_continuation c) eqn:E.
  - cbn [char_count]. rewrite E. apply IH.
  - destruct n as [| n]; [cbn; lia |].
    cbn [char_count]. rewrite E. specialize (IH n). lia.
Qed.

Lemma take_chars_count_min (n : nat) (s : string) :
  char_count (take_chars n s) = Nat.min n (char_count s).
Proof.
  revert n. induction s as [| c s IH]; intros n; cbn [take_chars char_count];
    [cbn; lia |].
  destruct (is_continuation c) eqn:E.
  - cbn [char_count]. rewrite E. apply IH.
  - destruct n as [| n]; [reflexivity |].
    cbn [char_count]. rewrite E, IH. reflexivity.
Qed.

Lemma take_chars_startswith (n : nat) (s : string) :
  startswith s (take_chars n s) = true.
Proof.
  revert n. induction s as [| c s IH]; intros n; cbn [take_chars]; [reflexivity |].
  destruct (is_continuation c).
  - cbn [startswith]. rewrite Ascii.eqb_refl. apply IH.
  - destruct n as [| n]; [reflexivity |].
    cbn [startswith]. rewrite Ascii.eqb_refl. apply IH.
Qed.

Lemma take_chars_all (n : nat) (s : string) :
  (char_count s <= n)%nat -> take_chars n s = s.
Proof.
  revert n. induction s as [| c s IH]; intros n; cbn [take_chars char_count];
    [reflexivity |].
  destruct (is_continuation c).
  - intros H. rewrite IH by exact H. reflexivity.
  - destruct n as [| n]; [lia |]. intros H. rewrite IH by lia. reflexivity.
Qed.

Lemma take_chars_nonempty (n : nat) (s : string) :
  s <> "" -> take_chars (S n) s <> "".
Proof.
  destruct s as [| c s]; [congruence |]. intros _. cbn [take_chars].
  destruct (is_continuation c); discriminate.
Qed.

(** On ASCII text the characters are the bytes. *)
Lemma take_chars_ascii (n : nat) (s : string) :
  is_ascii s = true -> take_chars n s = substring 0 n s.
Proof.
  revert n. induction s as [| c s IH]; intros n Ha.
  - destruct n; reflexivity.
  - cbn [is_ascii] in Ha. apply andb_true_iff in Ha as [Hc Ha].
    cbn [take_chars]. rewrite (ascii_not_continuation c Hc).
    destruct n as [| n]; [reflexivity |].
    cbn [substring]. rewrite (IH n Ha). reflexivity.
Qed.

(** Two characters of two bytes each, then ASCII: the slice keeps whole
    characters. *)
Example take_chars_two_byte_characters :
  let e := String (ascii_of_nat 195) (String (ascii_of_nat 169) "") in
  take_chars 1 (e ++ e ++ "phishing") = e
  /\ take_chars 3 (e ++ e ++ "phishing") = e ++ e ++ "p"
  /\ char_count (e ++ e ++ "phishing") = 10%nat.
Proof. vm_compute. repeat split. Qed.
End PyStrFacts.

Module MitreFacts.
Import PyStr PyStrFacts Mitre.

Lemma first_occurrences_NoDup (l : list string) : NoDup (first_occurrences l).
Proof.
  induction l as [| x l IH]; cbn [first_occurrences].
  - constructor.
  - constructor.
    + rewrite list_elem_of_filter. intros [H _]. congruence.
    + eapply sublist_NoDup; [exact IH | apply sublist_filter].
Qed.

Section Generic.
Variable tactic_mapping : list (string * string).

Lemma record_match_fresh (technique_id : string) (st : matched) :
  technique_id ∉ matched_techniques st ->
  record_match tactic_mapping technique_id st
  = Matched (matched_techniques st ++ [technique_id])
            (add_tactic tactic_mapping (matched_tactics st) technique_id).
Proof.
  intros Hfresh. unfold record_match, add_tactic, tactic_of, new_tactic.
  rewrite decide_False by exact Hfresh.
  destruct (dict_get tactic_mapping technique_id) as [t |]; [| reflexivity].
  destruct (decide (t = EmptyString)) as [-> | Hne].
  - rewrite bool_decide_eq_false_2 by (intros H; apply H; reflexivity).
    reflexivity.
  - rewrite bool_decide_eq_true_2 by exact Hne.
    destruct (decide (t ∈ matched_tactics st)) as [Hin | Hnin].
    + rewrite bool_decide_eq_false_2 by (intros H; apply H; exact Hin).
      reflexivity.
    + rewrite bool_decide_eq_true_2 by exact Hnin. reflexivity.
Qed.

(** The inner loop records the technique exactly when some keyword
    occurs in the text. *)
Lemma scan_keywords_hit (technique_id : string) (keywords : list string)
    (d : string) (st : matched) :
  scan_keywords tactic_mapping technique_id keywords d st
  = if keyword_hit d (technique_id, keywords)
    then record_match tactic_mapping technique_id st else st.
Proof.
  unfold keyword_hit. cbn [snd].
  induction keywords as [| k ks IH]; cbn [scan_keywords existsb].
  - reflexivity.
  - destruct (contains d k); [reflexivity | exact IH].
Qed.

(** The inner loop stops at the first keyword that occurs: what follows
    it is not examined. *)
Lemma scan_keywords_break (technique_id : string) (before after : list string)
    (keyword d : string) (st : matched) :
  Forall (fun k => contains d k = false) before ->
  contains d keyword = true ->
  scan_keywords tactic_mapping technique_id (before ++ keyword :: after) d st
  = record_match tactic_mapping technique_id st.
Proof.
  intros Hb Hk. induction Hb as [| k ks Hk0 _ IH]; cbn [app scan_keywords].
  - rewrite Hk. reflexivity.
  - rewrite Hk0. exact IH.
Qed.

Lemma fold_scan (catalog : list (string * list string)) (d : string)
    (st : matched) :
  NoDup (catalog.*1) ->
  (forall id, id ∈ catalog.*1 -> id ∉ matched_techniques st) ->
  fold_left
    (fun st '(technique_id, keywords) =>
       scan_keywords tactic_mapping technique_id keywords d st)
    catalog st
  = Matched
      (matched_techniques st ++ (filter (fun e => keyword_hit d e) catalog).*1)
      (fold_left (add_tactic tactic_mapping) (filter (fun e => keyword_hit d e) catalog).*1
                 (matched_tactics st)).
Proof.
  revert st. induction catalog as [| [id kws] cat IH]; intros st Hnd Hfresh.
  - cbn. rewrite app_nil_r. destruct st; reflexivity.
  - cbn [fold_left]. rewrite scan_keywords_hit.
    cbn [fmap list_fmap fst] in Hnd. apply NoDup_cons in Hnd as [Hid Hnd].
    rewrite filter_cons.
    destruct (keyword_hit d (id, kws)) eqn:Hhit.
    + rewrite decide_True by exact I.
      rewrite record_match_fresh by (apply Hfresh; cbn; left).
      rewrite IH; [| exact Hnd |].
      * cbn [matched_techniques matched_tactics fmap list_fmap fst fold_left].
        rewrite <- app_assoc. reflexivity.
      * intros id' Hin. cbn [matched_techniques].
        rewrite elem_of_app, list_elem_of_singleton. intros [H | ->].
        -- revert H. apply Hfresh. cbn. right. exact Hin.
        -- contradiction.
    + rewrite decide_False by (intros H; exact H).
      apply IH; [exact Hnd |].
      intros id' Hin. apply Hfresh. cbn. right. exact Hin.
Qed.

Lemma fold_add_tactic (ids : list string) (acc : list string) :
  fold_left (add_tactic tactic_mapping) ids acc
  = acc ++ filter (fun t => t ∉ acc)
                  (first_occurrences (omap (tactic_of tactic_mapping) ids)).
Proof.
  revert acc. induction ids as [| id ids IH]; intros acc.
  - cbn. rewrite app_nil_r. reflexivity.
  - cbn [fold_left omap list_omap]. unfold add_tactic at 2.
    destruct (tactic_of tactic_mapping id) as [t |]; [| apply IH].
    cbn [first_occurrences]. rewrite IH.
    destruct (decide (t ∈ acc)) as [Hin | Hnin].
    + rewrite filter_cons_False by (intros H; apply H; exact Hin).
      rewrite list_filter_filter. f_equal. apply list_filter_iff.
      intros y. split; [| tauto]. intros Hy. split; [exact Hy |].
      intros ->. apply Hy. exact Hin.
    + rewrite filter_cons_True by exact Hnin.
      rewrite <- app_assoc. cbn [app]. do 2 f_equal.
      rewrite list_filter_filter. apply list_filter_iff.
      intros y. rewrite elem_of_app, list_elem_of_singleton. tauto.
Qed.

Lemma scan_catalog_spec (catalog : list (string * list string)) (d : string) :
  NoDup (catalog.*1) ->
  let hits := (filter (fun e => keyword_hit d e) catalog).*1 in
  scan_catalog catalog tactic_mapping d
  = Matched hits (first_occurrences (omap (tactic_of tactic_mapping) hits)).
Proof.
  intros Hnd hits. unfold scan_catalog.
  rewrite fold_scan; [| exact Hnd | cbn; intros id _ H; inversion H].
  cbn [matched_techniques matched_tactics app]. fold hits.
  rewrite fold_add_tactic. cbn [app]. f_equal.
  rewrite (list_filter_iff _ (fun _ => True)).
  - induction (first_occurrences _) as [| x l IH]; [reflexivity |].
    rewrite filter_cons_True by exact I. f_equal. exact IH.
  - intros y. split; [tauto |]. intros _ H. inversion H.
Qed.
End Generic.

Lemma catalog_ids_NoDup : NoDup (TECHNIQUE_KEYWORDS.*1).
Proof. apply (bool_decide_unpack (NoDup _)). vm_compute. exact I. Qed.

(** Every technique of the catalog has a non-empty tactic. *)
Lemma catalog_tactics (ids : list string) :
  ids `sublist_of` TECHNIQUE_KEYWORDS.*1 ->
  omap (tactic_of TACTIC_MAPPING) ids = omap (dict_get TACTIC_MAPPING) ids.
Proof.
  intros Hsub.
  assert (H : Forall (fun id => tactic_of TACTIC_MAPPING id
                                = dict_get TACTIC_MAPPING id) ids).
  { apply Forall_forall. intros id Hin.
    assert (Hc : id ∈ TECHNIQUE_KEYWORDS.*1) by (eapply elem_of_sublist; eauto).
    clear Hin. revert id Hc. apply Forall_forall.
    repeat constructor. }
  clear Hsub. induction H as [| id ids E _ IH]; [reflexivity |].
  cbn [omap list_omap]. rewrite E, IH. reflexivity.
Qed.

Lemma existsb_elem_of {A : Type} (f : A -> bool) (l : list A) :
  existsb f l = true <-> exists x, x ∈ l /\ f x = true.
Proof.
  rewrite existsb_exists. split; intros (x & H1 & H2); exists x;
    (split; [apply list_elem_of_In; exact H1 | exact H2]).
Qed.

(** Membership in the ids of the entries a predicate selects, for a
    catalog whose ids are pairwise different. *)
Lemma filter_ids_elem_of (hit : string * list string -> bool)
    (catalog : list (string * list string)) (tid : string) (keywords : list string) :
  NoDup (catalog.*1) -> (tid, keywords) ∈ catalog ->
  tid ∈ (filter (fun e => hit e) catalog).*1 <-> hit (tid, keywords) = true.
Proof.
  intros Hnd Hin. rewrite list_elem_of_fmap. split.
  - intros ([tid' kws] & -> & He). apply list_elem_of_filter in He as [Hhit He].
    cbn [fst] in *. apply Is_true_true in Hhit.
    assert (E : Some kws = Some keywords).
    { rewrite <- (dict_get_NoDup catalog tid' kws Hnd He).
      apply (dict_get_NoDup catalog tid' keywords Hnd Hin). }
    injection E as <-. exact Hhit.
  - intros Hhit. exists (tid, keywords). split; [reflexivity |].
    apply list_elem_of_filter. split; [apply Is_true_true; exact Hhit | exact Hin].
Qed.

(** Upper-case letters of the description are folded before matching;
    a keyword of a later technique does not reorder the result. *)
Example map_to_mitre_case_insensitive :
  map_to_mitre lower "Ransomware dropped by a PowerShell SCRIPT"
  = Matched ["T1059"; "T1486"] ["Execution"; "Impact"].
Proof. vm_compute. reflexivity. Qed.

(** Two techniques of one tactic contribute the tactic once. *)
Example map_to_mitre_shared_tactic :
  map_to_mitre lower "phishing mail exploiting a known vulnerability"
  = Matched ["T1566"; "T1190"] ["Initial Access"].
Proof. vm_compute. reflexivity. Qed.

(** C6. [map_to_mitre] lower-cases the description and walks the catalog
    in declaration order: the matched techniques are the ids, in catalog
    order, of the entries one of whose keywords occurs in the lower-cased
    text; the tactics are those of the matched techniques in order of
    first appearance; neither list repeats an element; scanning the
    keywords of a technique stops at the first one that occurs.  This
    holds for every text, [str_lower] being the lower-casing of the
    interpreter.  Where it folds ASCII text as Python does, a technique
    is matched in an ASCII description exactly when one of its keywords
    occurs in the description up to the case of its letters, and the
    text ["powershell was used for lateral movement"] yields T1059 and
    Execution. *)
Theorem map_to_mitre_first_match (str_lower : string -> string)
    (description : string) :
  let d := str_lower description in
  let r := map_to_mitre str_lower description in
  matched_techniques r = (filter (fun e => keyword_hit d e) TECHNIQUE_KEYWORDS).*1
  /\ matched_tactics r
     = first_occurrences (omap (dict_get TACTIC_MAPPING) (matched_techniques r))
  /\ NoDup (matched_techniques r)
  /\ NoDup (matched_tactics r)
  /\ matched_techniques r `sublist_of` TECHNIQUE_KEYWORDS.*1
  /\ (forall (technique_id : string) (before after : list string)
             (keyword : string) (st : matched),
        Forall (fun k => contains d k = false) before ->
        contains d keyword = true ->
        scan_keywords TACTIC_MAPPING technique_id (before ++ keyword :: after) d st
        = record_match TACTIC_MAPPING technique_id st)
  /\ (lowers_ascii str_lower ->
      (is_ascii description = true ->
       forall (technique_id : string) (keywords : list string),
         (technique_id, keywords) ∈ TECHNIQUE_KEYWORDS ->
         technique_id ∈ matched_techniques r
         <-> exists keyword, keyword ∈ keywords
                             /\ occurs_ignoring_case keyword description)
      /\ "T1059" ∈ matched_techniques
                     (map_to_mitre str_lower "powershell was used for lateral movement")
      /\ "Execution" ∈ matched_tactics
                         (map_to_mitre str_lower
                                       "powershell was used for lateral movement")).
Proof.
  intros d r. subst r. unfold map_to_mitre. cbv zeta. fold d.
  rewrite (scan_catalog_spec TACTIC_MAPPING TECHNIQUE_KEYWORDS d catalog_ids_NoDup).
  cbn [matched_techniques matched_tactics].
  set (hits := (filter (fun e => keyword_hit d e) TECHNIQUE_KEYWORDS).*1).
  assert (Hsub : hits `sublist_of` TECHNIQUE_KEYWORDS.*1).
  { unfold hits. apply fmap_sublist, sublist_filter. }
  rewrite (catalog_tactics hits Hsub).
  split; [reflexivity |]. split; [reflexivity |].
  split; [eapply sublist_NoDup; [apply catalog_ids_NoDup | exact Hsub] |].
  split; [apply first_occurrences_NoDup |]. split; [exact Hsub |].
  split; [intros; apply scan_keywords_break; assumption |].
  intros Hl. split; [| split].
  - intros Ha technique_id keywords Hin. unfold hits.
    rewrite (filter_ids_elem_of (keyword_hit d) _ _ _ catalog_ids_NoDup Hin).
    unfold keyword_hit. cbn [snd]. rewrite existsb_elem_of.
    unfold d. rewrite (Hl description Ha).
    split; intros (k & Hk & Hc); exists k; (split; [exact Hk |]);
      apply contains_lower; exact Hc.
  - rewrite (Hl "powershell was used for lateral movement" eq_refl).
    vm_compute. apply list_elem_of_here.
  - rewrite (Hl "powershell was used for lateral movement" eq_refl).
    vm_compute. apply list_elem_of_here.
Qed.

Lemma map_to_mitre_first_match_witness :
  "T1059" ∈ matched_techniques
              (map_to_mitre lower "PowerShell Was Used For Lateral Movement").
Proof.
  destruct (map_to_mitre_first_match lower "PowerShell Was Used For Lateral Movement")
    as (_ & _ & _ & _ & _ & _ & H).
  destruct (H lowers_ascii_lower) as (Hiff & _ & _).
  apply (Hiff eq_refl "T1059" ["command"; "script"; "powershell"; "cmd"; "bash"]).
  - unfold TECHNIQUE_KEYWORDS. right. left.
  - exists "powershell". split; [right; right; left |].
    exists "", "PowerShell", " Was Used For Lateral Movement".
    split; [reflexivity |]. apply lower_eq_folds. reflexivity.
Defined.
End MitreFacts.

Module CorrelatorFacts.
Import PyStr Float64 Float64Facts Correlator.

Lemma flt_spec (x y : Q) : flt x y = true <-> (x < y)%Q.
Proof.
  unfold flt. destruct (Qle_bool y x) eqn:E; cbn.
  - apply Qle_bool_iff in E. split; [discriminate | intros H; lra].
  - split; [intros _ | reflexivity].
    destruct (Qlt_le_dec x y) as [L | L]; [exact L |].
    apply Qle_bool_iff in L. congruence.
Qed.

Lemma flt_false (x y : Q) : flt x y = false <-> (y <= x)%Q.
Proof.
  pose proof (flt_spec x y) as H. destruct (flt x y).
  - split; [discriminate |]. intros L. assert (x < y)%Q by (apply H; reflexivity). lra.
  - split; [intros _ | reflexivity].
    destruct (Qlt_le_dec x y) as [L | L]; [| exact L].
    apply H in L. discriminate.
Qed.

Lemma slice_to_take {A : Type} (l : list A) (k : Z) :
  exists n : nat, slice_to l k = take n l.
Proof. unfold slice_to. destruct (0 <=? k)%Z; eauto. Qed.

Lemma slice_to_length {A : Type} (l : list A) (k : Z) :
  (0 <= k)%Z -> (Z.of_nat (length (slice_to l k)) <= k)%Z.
Proof.
  intros Hk. unfold slice_to.
  destruct (Z.leb_spec 0 k) as [_ | H]; [| lia].
  rewrite length_take. lia.
Qed.

Section Facts.
Context {Meta : Type}.
Implicit Types (db : gmap string (list (threat_entry Meta))).
Implicit Types (l : list (related_threat Meta)) (x y r : related_threat Meta).

Lemma insert_desc_perm x l : insert_desc x l ≡ₚ x :: l.
Proof.
  induction l as [| y l IH]; cbn [insert_desc]; [reflexivity |].
  destruct (flt _ _); [| reflexivity].
  rewrite IH. apply Permutation_swap.
Qed.

Lemma sort_perm l : sort_by_similarity_desc l ≡ₚ l.
Proof.
  induction l as [| x l IH]; cbn; [reflexivity |].
  rewrite insert_desc_perm. constructor. exact IH.
Qed.

Lemma insert_desc_sorted x l :
  StronglySorted by_similarity_desc l ->
  StronglySorted by_similarity_desc (insert_desc x l).
Proof.
  induction 1 as [| y l Hs IH Hy]; cbn [insert_desc].
  - repeat constructor.
  - destruct (flt (r_similarity x) (r_similarity y)) eqn:E.
    + apply flt_spec in E. constructor; [exact IH |].
      rewrite insert_desc_perm. constructor; [| exact Hy].
      unfold by_similarity_desc. lra.
    + apply flt_false in E. constructor; [constructor; assumption |].
      constructor; [exact E |].
      eapply Forall_impl; [exact Hy |].
      unfold by_similarity_desc. intros z Hz. lra.
Qed.

Lemma sort_sorted l : StronglySorted by_similarity_desc (sort_by_similarity_desc l).
Proof.
  induction l as [| x l IH]; cbn; [constructor |].
  apply insert_desc_sorted, IH.
Qed.

(** Insertion moves an element only past strictly greater keys, so it
    keeps the order among the elements of any one similarity. *)
Lemma insert_desc_stable (s : Q) x l :
  with_similarity s (insert_desc x l) = with_similarity s (x :: l).
Proof.
  unfold with_similarity.
  induction l as [| y l IH]; cbn [insert_desc]; [reflexivity |].
  destruct (flt (r_similarity x) (r_similarity y)) eqn:E; [| reflexivity].
  apply flt_spec in E. cbn [List.filter] in *. rewrite IH.
  destruct (Qeq_bool (r_similarity x) s) eqn:Ex;
    destruct (Qeq_bool (r_similarity y) s) eqn:Ey; try reflexivity.
  apply Qeq_bool_iff in Ex, Ey. lra.
Qed.

Lemma sort_stable (s : Q) l :
  with_similarity s (sort_by_similarity_desc l) = with_similarity s l.
Proof.
  induction l as [| x l IH]; [reflexivity |].
  cbn [sort_by_similarity_desc foldr]. rewrite insert_desc_stable.
  unfold with_similarity in *. cbn [List.filter].
  fold (sort_by_similarity_desc l). rewrite IH. reflexivity.
Qed.

Lemma with_similarity_take (s : Q) (n : nat) l :
  with_similarity s (take n l) `prefix_of` with_similarity s l.
Proof.
  exists (with_similarity s (drop n l)). unfold with_similarity.
  rewrite <- List.filter_app, take_drop. reflexivity.
Qed.

Lemma sorted_take (n : nat) l :
  StronglySorted by_similarity_desc l ->
  StronglySorted by_similarity_desc (take n l).
Proof.
  intros H. rewrite <- (take_drop n l) in H.
  apply StronglySorted_app_1_l in H. exact H.
Qed.

Lemma with_similarity_cons (s : Q) x l :
  with_similarity s (x :: l)
  = if Qeq_bool (r_similarity x) s then x :: with_similarity s l
    else with_similarity s l.
Proof. reflexivity. Qed.

Lemma with_similarity_nil_inv l : (forall s, with_similarity s l = []) -> l = [].
Proof.
  destruct l as [| x l]; [reflexivity |]. intros H.
  specialize (H (r_similarity x)). rewrite with_similarity_cons in H.
  rewrite (proj2 (Qeq_bool_iff _ _) (Qeq_refl _)) in H. discriminate H.
Qed.

(** The head of a sorted list bounds the keys of another sorted list
    that has the same elements of each similarity. *)
Lemma sorted_head_le x y l l' :
  StronglySorted by_similarity_desc (y :: l') ->
  (forall s, with_similarity s (x :: l) = with_similarity s (y :: l')) ->
  (r_similarity x <= r_similarity y)%Q.
Proof.
  intros Hs H. specialize (H (r_similarity x)).
  rewrite (with_similarity_cons _ x) in H.
  rewrite (proj2 (Qeq_bool_iff _ _) (Qeq_refl _)) in H.
  assert (Hin : In x (with_similarity (r_similarity x) (y :: l')))
    by (rewrite <- H; left; reflexivity).
  apply List.filter_In in Hin as [Hin Hkey]. apply Qeq_bool_iff in Hkey.
  apply StronglySorted_inv in Hs as [_ Hall].
  destruct Hin as [-> | Hin]; [apply Qle_refl |].
  rewrite List.Forall_forall in Hall. apply (Hall x Hin).
Qed.

(** Two sorted lists with the same elements of each similarity, in the
    same order, are equal. *)
Lemma sorted_stable_unique l l' :
  StronglySorted by_similarity_desc l ->
  StronglySorted by_similarity_desc l' ->
  (forall s, with_similarity s l = with_similarity s l') ->
  l = l'.
Proof.
  revert l'. induction l as [| x l IH]; intros l' Hs Hs' H.
  - symmetry. apply with_similarity_nil_inv. intros s. rewrite <- H. reflexivity.
  - destruct l' as [| y l'].
    + apply with_similarity_nil_inv. intros s. rewrite H. reflexivity.
    + assert (Hxy : (r_similarity x == r_similarity y)%Q).
      { apply Qle_antisym.
        - eapply sorted_head_le; [exact Hs' | exact H].
        - eapply sorted_head_le; [exact Hs | intros s; symmetry; apply H]. }
      assert (Exy : x = y).
      { pose proof (H (r_similarity x)) as Hx.
        rewrite !with_similarity_cons in Hx.
        rewrite (proj2 (Qeq_bool_iff _ _) (Qeq_refl _)) in Hx.
        rewrite (proj2 (Qeq_bool_iff (r_similarity y) _) (Qeq_sym _ _ Hxy)) in Hx.
        congruence. }
      subst y. f_equal.
      apply IH.
      * apply StronglySorted_inv in Hs. tauto.
      * apply StronglySorted_inv in Hs'. tauto.
      * intros s. specialize (H s). rewrite !with_similarity_cons in H.
        destruct (Qeq_bool (r_similarity x) s); congruence.
Qed.

(** Whatever algorithm sorts the list, a sorted rearrangement that keeps
    the order among equal similarities is the one computed here. *)
Lemma stable_sort_unique l l' :
  StronglySorted by_similarity_desc l' ->
  (forall s, with_similarity s l' = with_similarity s l) ->
  l' = sort_by_similarity_desc l.
Proof.
  intros Hs H. apply sorted_stable_unique; [exact Hs | apply sort_sorted |].
  intros s. rewrite H, sort_stable. reflexivity.
Qed.

Lemma elem_of_find_related db (ioc ioc_type : string) (max_results : Z) r :
  r ∈ find_related db ioc ioc_type max_results ->
  r ∈ same_type_scan db ioc ioc_type
  \/ r ∈ _find_cross_type_correlations db ioc ioc_type.
Proof.
  unfold find_related. intros H.
  destruct (slice_to_take (sort_by_similarity_desc
              (same_type_scan db ioc ioc_type
               ++ _find_cross_type_correlations db ioc ioc_type)) max_results)
    as [n E].
  rewrite E in H. apply elem_of_take in H as (i & Hi & _).
  apply list_elem_of_lookup_2 in Hi. rewrite sort_perm in Hi.
  apply elem_of_app in Hi. exact Hi.
Qed.

(** C3 (amended). An element of the result whose IOC value is the
    queried value never comes from the same-type scan: it can only be a
    recorded domain threat carrying that value, returned by the
    cross-type scan of a query of type ["ip"]; its type differs from
    the queried one, so the queried IOC itself (value and type) is never
    returned. *)
Theorem find_related_queried_value_only_cross_type
    db (ioc ioc_type : string) (max_results : Z) r :
  r ∈ find_related db ioc ioc_type max_results ->
  r_ioc r = ioc ->
  ioc_type = "ip" /\ r_type r = "domain" /\ r_type r ≠ ioc_type
  /\ r_relationship r = "dns_resolution"
  /\ exists threat, threat ∈ default [] (db !! "domain") /\ t_ioc threat = ioc.
Proof.
  intros Hin Hv. apply elem_of_find_related in Hin as [Hs | Hc].
  - unfold same_type_scan in Hs.
    apply list_elem_of_omap in Hs as (threat & _ & Hsome).
    destruct (decide (t_ioc threat ≠ ioc)) as [Hne | _]; [| discriminate].
    destruct (flt _ _); [| discriminate].
    injection Hsome as <-. cbn in Hv. contradiction.
  - unfold _find_cross_type_correlations in Hc.
    destruct (decide (ioc_type = "ip")) as [-> | _]; [| inversion Hc].
    apply list_elem_of_fmap in Hc as (threat & -> & Hthreat). cbn in *.
    repeat split; try reflexivity; try discriminate.
    exists threat. split; assumption.
Qed.

(** C5. The result is sorted by descending similarity; among its
    elements of any one similarity the same-type results come first,
    then the cross-type ones, each group in insertion order; it is an
    initial segment of the stably sorted rearrangement of all the
    results found: for a limit [max_results], a count and so not
    negative, the first [max_results] of them, hence at most
    [max_results] elements.  (The slice reads a negative number from the
    end: it then leaves out the last [- max_results] elements.) *)
Theorem find_related_sorted_stable_truncated
    db (ioc ioc_type : string) (max_results : Z) :
  let same := same_type_scan db ioc ioc_type in
  let cross := _find_cross_type_correlations db ioc ioc_type in
  let out := find_related db ioc ioc_type max_results in
  StronglySorted by_similarity_desc out
  /\ (forall s : Q,
        with_similarity s out `prefix_of`
          with_similarity s same ++ with_similarity s cross)
  /\ (exists full,
        full ≡ₚ same ++ cross
        /\ StronglySorted by_similarity_desc full
        /\ (forall s : Q,
              with_similarity s full
              = with_similarity s same ++ with_similarity s cross)
        /\ out `prefix_of` full
        /\ ((0 <= max_results)%Z -> out = take (Z.to_nat max_results) full)
        /\ ((max_results < 0)%Z ->
            out = take (length full - Z.to_nat (- max_results))%nat full))
  /\ ((0 <= max_results)%Z -> (Z.of_nat (length out) <= max_results)%Z).
Proof.
  intros same cross out. subst out. unfold find_related. fold same cross.
  set (full := sort_by_similarity_desc (same ++ cross)).
  assert (Hstable : forall s : Q,
             with_similarity s full
             = with_similarity s same ++ with_similarity s cross).
  { intros s. unfold full. rewrite sort_stable. apply List.filter_app. }
  destruct (slice_to_take full max_results) as [n E].
  split; [| split; [| split]].
  - rewrite E. apply sorted_take, sort_sorted.
  - intros s. rewrite E, <- Hstable. apply with_similarity_take.
  - exists full. split; [apply sort_perm |]. split; [apply sort_sorted |].
    split; [exact Hstable |]. split; [rewrite E; apply prefix_take |].
    split; intros Hk; unfold slice_to;
      destruct (Z.leb_spec 0 max_results) as [H | H]; try lia; [reflexivity |].
    f_equal. lia.
  - apply slice_to_length.
Qed.

(** The total of [get_statistics] after a list is stored under a key. *)
Lemma total_threats_insert db (k : string) (threats : list (threat_entry Meta)) :
  (total_threats (get_statistics (<[k := threats]> db))
   + length (default [] (db !! k))
   = total_threats (get_statistics db) + length threats)%nat.
Proof.
  unfold get_statistics. cbn [total_threats].
  set (f := fun (_ : string) (ts : list (threat_entry Meta)) (total : nat) =>
              (length ts + total)%nat).
  assert (Hcomm : forall (m : gmap string (list (threat_entry Meta)))
                    (j1 j2 : string) z1 z2 (acc : nat),
             j1 ≠ j2 -> m !! j1 = Some z1 -> m !! j2 = Some z2 ->
             f j1 z1 (f j2 z2 acc) = f j2 z2 (f j1 z1 acc)).
  { intros. unfold f. lia. }
  destruct (db !! k) as [old |] eqn:Hk; cbn [default from_option].
  - rewrite <- (insert_delete_eq db).
    rewrite (map_fold_insert_L f 0%nat k threats (delete k db));
      [| apply Hcomm | apply lookup_delete_eq].
    rewrite (map_fold_delete_L f 0%nat k old db); [| apply Hcomm | exact Hk].
    unfold f, id. lia.
  - rewrite (map_fold_insert_L f 0%nat k threats db); [| apply Hcomm | exact Hk].
    unfold f, id. cbn [length]. lia.
Qed.

(** C8. Two calls of [add_threat] with the same arguments append two
    entries to the list of the type, leave the other types alone, and
    raise [total_threats] by exactly two. *)
Theorem add_threat_twice_not_deduplicated
    db (ioc ioc_type : string) (metadata : Meta) (now1 now2 : Z) :
  let db1 := add_threat db ioc ioc_type metadata now1 in
  let db2 := add_threat db1 ioc ioc_type metadata now2 in
  db2 !! ioc_type
  = Some (default [] (db !! ioc_type)
          ++ [ThreatEntry ioc ioc_type metadata now1;
              ThreatEntry ioc ioc_type metadata now2])
  /\ (forall other : string, other ≠ ioc_type -> db2 !! other = db !! other)
  /\ total_threats (get_statistics db2)
     = (total_threats (get_statistics db) + 2)%nat
  /\ total_threats (get_statistics db1)
     = (total_threats (get_statistics db) + 1)%nat.
Proof.
  intros db1 db2. subst db2 db1. unfold add_threat.
  pose proof (total_threats_insert db ioc_type
    (default [] (db !! ioc_type) ++ [ThreatEntry ioc ioc_type metadata now1])) as H1.
  set (db1 := <[ioc_type := default [] (db !! ioc_type)
                  ++ [ThreatEntry ioc ioc_type metadata now1]]> db) in *.
  pose proof (total_threats_insert db1 ioc_type
    (default [] (db1 !! ioc_type) ++ [ThreatEntry ioc ioc_type metadata now2])) as H2.
  assert (E1 : db1 !! ioc_type
               = Some (default [] (db !! ioc_type)
                       ++ [ThreatEntry ioc ioc_type metadata now1]))
    by apply lookup_insert_eq.
  rewrite E1 in *. cbn [default from_option] in *. unfold id in *.
  rewrite !length_app in *. cbn [length] in *.
  split; [| split; [| split]].
  - rewrite lookup_insert_eq, <- app_assoc. reflexivity.
  - intros other Hne. unfold db1. rewrite !lookup_insert_ne by congruence.
    reflexivity.
  - lia.
  - lia.
Qed.
End Facts.

(** C9. The similarity does not depend on the order of the two IOCs. *)
Theorem similarity_symmetric (ioc1 ioc2 ioc_type : string) :
  _calculate_similarity ioc1 ioc2 ioc_type = _calculate_similarity ioc2 ioc1 ioc_type.
Proof.
  unfold _calculate_similarity.
  repeat match goal with
         | |- context [decide ?P] => destruct (decide P)
         end; congruence.
Qed.

(** C7. For the three hash types the similarity is 1.0 when the two
    strings are equal and 0.0 when they differ; it is never the default
    0.3. *)
Theorem similarity_hash_exact (ioc1 ioc2 ioc_type : string) :
  ioc_type ∈ ["hash_md5"; "hash_sha1"; "hash_sha256"] ->
  let s := _calculate_similarity ioc1 ioc2 ioc_type in
  (ioc1 = ioc2 -> s = lit 1.0 /\ s = 1%Q)
  /\ (ioc1 ≠ ioc2 -> s = lit 0.0 /\ s = 0%Q)
  /\ ¬ (s == lit 0.3)%Q.
Proof.
  intros Hin s. subst s. unfold _calculate_similarity.
  assert (Hip : ioc_type ≠ "ip").
  { intros ->. apply list_elem_of_In in Hin. cbn in Hin. intuition discriminate. }
  assert (Hdom : ioc_type ≠ "domain").
  { intros ->. apply list_elem_of_In in Hin. cbn in Hin. intuition discriminate. }
  rewrite (decide_False (P := ioc_type = "ip")) by exact Hip.
  rewrite (decide_False (P := ioc_type = "domain")) by exact Hdom.
  rewrite (decide_True (P := ioc_type ∈ _)) by exact Hin.
  destruct (decide (ioc1 = ioc2)) as [E | NE].
  - split; [intros _; split; reflexivity | split; [contradiction | discriminate]].
  - split; [contradiction | split; [intros _; split; reflexivity | discriminate]].
Qed.

Lemma similarity_hash_exact_witness :
  _calculate_similarity "d41d8cd98f00b204e9800998ecf8427e"
                        "d41d8cd98f00b204e9800998ecf8427e" "hash_md5" = 1%Q.
Proof.
  apply (similarity_hash_exact "d41d8cd98f00b204e9800998ecf8427e"
           "d41d8cd98f00b204e9800998ecf8427e" "hash_md5").
  - apply list_elem_of_In. cbn. left. reflexivity.
  - reflexivity.
Defined.

Lemma take_2_of_3 (l1 l2 : list string) : take 3 l1 = take 3 l2 -> take 2 l1 = take 2 l2.
Proof.
  intros H. assert (E : take 2 (take 3 l1) = take 2 (take 3 l2)) by (rewrite H; reflexivity).
  rewrite !take_take in E. exact E.
Qed.

Lemma similarity_levels_distinct :
  lit 0.8 ≠ lit 0.6 /\ lit 0.8 ≠ lit 0.3 /\ lit 0.6 ≠ lit 0.3.
Proof. repeat split; intros H; vm_compute in H; discriminate H. Qed.

(** C4 (amended). For the type ["ip"] the similarity is defined for
    every pair of strings, well-formed or not, and is decided by their
    leading dot-separated components alone: 0.8 when the first three
    agree, 0.6 when only the first two agree, and the default 0.3
    exactly when the first two differ. *)
Theorem similarity_ip_by_components (ioc1 ioc2 : string) :
  let s := _calculate_similarity ioc1 ioc2 "ip" in
  let parts1 := split_dot ioc1 in
  let parts2 := split_dot ioc2 in
  (s = lit 0.8 \/ s = lit 0.6 \/ s = lit 0.3)
  /\ (s = lit 0.8 <-> take 3 parts1 = take 3 parts2)
  /\ (s = lit 0.6 <-> take 3 parts1 ≠ take 3 parts2 /\ take 2 parts1 = take 2 parts2)
  /\ (s = lit 0.3 <-> take 2 parts1 ≠ take 2 parts2).
Proof.
  intros s parts1 parts2. subst s parts1 parts2. unfold _calculate_similarity.
  destruct similarity_levels_distinct as (D86 & D83 & D63).
  rewrite (decide_True (P := "ip" = "ip")) by reflexivity.
  destruct (decide (take 3 (split_dot ioc1) = take 3 (split_dot ioc2))) as [E3 | N3].
  - pose proof (take_2_of_3 _ _ E3) as E2.
    repeat split; auto; try tauto; congruence.
  - destruct (decide (take 2 (split_dot ioc1) = take 2 (split_dot ioc2))) as [E2 | N2].
    + repeat split; auto; try tauto; congruence.
    + assert (take 3 (split_dot ioc1) = take 3 (split_dot ioc2) -> False)
        by (intros E3; apply take_2_of_3 in E3; contradiction).
      repeat split; auto; try tauto; congruence.
Qed.

(** The claim as stated fails: ["1.2"] has two components only, and its
    similarity with ["1.2.3.4"] is 0.6, not the default. *)
Lemma similarity_ip_malformed_counterexample :
  length (split_dot "1.2") = 2%nat
  /\ _calculate_similarity "1.2" "1.2.3.4" "ip" = lit 0.6
  /\ (lit 0.3 < lit 0.6)%Q.
Proof. vm_compute. repeat split. Qed.

(** The claim as stated fails: a recorded domain threat carrying the
    queried value is returned to a query of type ["ip"]. *)
Lemma find_related_cross_type_counterexample :
  map r_ioc
    (find_related (add_threat (∅ : gmap string (list (threat_entry unit)))
                              "10.0.0.1" "domain" tt 0)
                  "10.0.0.1" "ip" 10)
  = ["10.0.0.1"].
Proof. vm_compute. reflexivity. Qed.

Lemma find_related_queried_value_only_cross_type_witness :
  exists threat : threat_entry unit,
    threat ∈ default [] (add_threat (∅ : gmap string (list (threat_entry unit)))
                                    "10.0.0.1" "domain" tt 0 !! "domain")
    /\ t_ioc threat = "10.0.0.1".
Proof.
  apply (find_related_queried_value_only_cross_type
           (add_threat (∅ : gmap string (list (threat_entry unit)))
                       "10.0.0.1" "domain" tt 0)
           "10.0.0.1" "ip" 10
           (RelatedThreat "10.0.0.1" "domain" (lit 0.7) "dns_resolution" tt)).
  - vm_compute. apply list_elem_of_here.
  - reflexivity.
Defined.

(** A negative limit is read from the end by the slice: with two
    results and the limit [-1] the first one is returned. *)
Example find_related_negative_limit :
  map r_ioc
    (find_related
       (add_threat (add_threat (∅ : gmap string (list (threat_entry unit)))
                               "10.0.0.1" "ip" tt 0)
                   "10.0.0.2" "ip" tt 1)
       "10.0.0.3" "ip" (-1))
  = ["10.0.0.1"].
Proof. vm_compute. reflexivity. Qed.

Lemma find_related_sorted_stable_truncated_witness :
  (Z.of_nat
     (length
        (find_related
           (add_threat (add_threat (∅ : gmap string (list (threat_entry unit)))
                                   "10.0.0.1" "ip" tt 0)
                       "10.0.0.2" "ip" tt 1)
           "10.0.0.3" "ip" 1)) <= 1)%Z.
Proof.
  apply (find_related_sorted_stable_truncated
           (add_threat (add_threat (∅ : gmap string (list (threat_entry unit)))
                                   "10.0.0.1" "ip" tt 0)
                       "10.0.0.2" "ip" tt 1)
           "10.0.0.3" "ip" 1).
  lia.
Defined.
End CorrelatorFacts.

(* ===================================================================== *)
(** * Further properties: the technique catalog                          *)
(* ===================================================================== *)

Module MitreCatalogFacts.
Import PyStr PyStrFacts Mitre MitreFacts MitreCatalog.

Lemma search_keywords_hit (tech_id : string) (all_keywords keywords : list string)
    (q : string) (results : list search_result) :
  search_keywords tech_id all_keywords keywords q results
  = if search_hit q (tech_id, keywords)
    then results ++ [result_of (tech_id, all_keywords)] else results.
Proof.
  unfold search_hit. cbn [snd].
  induction keywords as [| k ks IH]; cbn [search_keywords existsb]; [reflexivity |].
  destruct (contains k q || contains q k); [reflexivity | exact IH].
Qed.

Lemma search_fold (catalog : list (string * list string)) (q : string)
    (results : list search_result) :
  fold_left
    (fun results '(tech_id, keywords) =>
       search_keywords tech_id keywords keywords q results)
    catalog results
  = results ++ map result_of (filter (fun e => search_hit q e) catalog).
Proof.
  revert results. induction catalog as [| [id kws] cat IH]; intros results.
  - cbn. rewrite app_nil_r. reflexivity.
  - cbn [fold_left]. rewrite search_keywords_hit, IH, filter_cons.
    destruct (search_hit q (id, kws)) eqn:E.
    + rewrite decide_True by exact I. cbn [map]. rewrite <- app_assoc. reflexivity.
    + rewrite decide_False by (intros H; exact H). reflexivity.
Qed.

Lemma search_techniques_filter (str_lower : string -> string) (query : string) :
  search_techniques str_lower query
  = map result_of
        (filter (fun e => search_hit (str_lower query) e) TECHNIQUE_KEYWORDS).
Proof. unfold search_techniques. apply search_fold. Qed.

Lemma search_ids (str_lower : string -> string) (query : string) :
  map s_id (search_techniques str_lower query)
  = (filter (fun e => search_hit (str_lower query) e) TECHNIQUE_KEYWORDS).*1.
Proof.
  rewrite search_techniques_filter, map_map. reflexivity.
Qed.

Lemma map_to_mitre_techniques (str_lower : string -> string) (description : string) :
  matched_techniques (map_to_mitre str_lower description)
  = (filter (fun e => keyword_hit (str_lower description) e) TECHNIQUE_KEYWORDS).*1.
Proof.
  unfold map_to_mitre.
  rewrite (scan_catalog_spec TACTIC_MAPPING TECHNIQUE_KEYWORDS _ catalog_ids_NoDup).
  reflexivity.
Qed.

Lemma map_to_mitre_tactics (str_lower : string -> string) (description : string) :
  matched_tactics (map_to_mitre str_lower description)
  = first_occurrences
      (omap (dict_get TACTIC_MAPPING)
            (matched_techniques (map_to_mitre str_lower description))).
Proof.
  rewrite map_to_mitre_techniques. unfold map_to_mitre.
  rewrite (scan_catalog_spec TACTIC_MAPPING TECHNIQUE_KEYWORDS _ catalog_ids_NoDup).
  cbn [matched_tactics]. rewrite catalog_tactics; [reflexivity |].
  apply fmap_sublist, sublist_filter.
Qed.

(** X1. [search_techniques] lists each technique at most once, in the
    order of the catalog, and exactly those one of whose keywords
    contains the lower-cased query or occurs in it, [str_lower] being
    the lower-casing of the interpreter; every result carries the
    keywords, the name and the tactic the tables give for its id. *)
Theorem search_techniques_catalog_order (str_lower : string -> string)
    (query : string) :
  let results := search_techniques str_lower query in
  map s_id results
  = (filter (fun e => search_hit (str_lower query) e) TECHNIQUE_KEYWORDS).*1
  /\ NoDup (map s_id results)
  /\ map s_id results `sublist_of` TECHNIQUE_KEYWORDS.*1
  /\ (forall r, r ∈ results ->
        (s_id r, s_keywords r) ∈ TECHNIQUE_KEYWORDS
        /\ (exists k, k ∈ s_keywords r
                      /\ (contains k (str_lower query) = true
                          \/ contains (str_lower query) k = true))
        /\ s_name r = _get_technique_name (s_id r)
        /\ s_tactic r = dict_get TACTIC_MAPPING (s_id r)).
Proof.
  intros results. subst results.
  assert (Hsub : map s_id (search_techniques str_lower query)
                   `sublist_of` TECHNIQUE_KEYWORDS.*1).
  { rewrite search_ids. apply fmap_sublist, sublist_filter. }
  split; [apply search_ids |]. split; [| split; [exact Hsub |]].
  - eapply sublist_NoDup; [apply catalog_ids_NoDup | exact Hsub].
  - intros r Hr. rewrite search_techniques_filter in Hr.
    apply list_elem_of_fmap in Hr as ([id kws] & -> & He).
    apply list_elem_of_filter in He as [Hhit He].
    cbn [result_of s_id s_keywords s_name s_tactic fst snd].
    split; [exact He |]. split; [| split; reflexivity].
    apply Is_true_true in Hhit. unfold search_hit in Hhit. cbn [snd] in Hhit.
    apply existsb_elem_of in Hhit as (k & Hk & Hor).
    exists k. split; [exact Hk |]. apply orb_true_iff in Hor. exact Hor.
Qed.

(** X2. A technique is returned as soon as the lower-cased query is part
    of one of its keywords, or one of its keywords is part of the
    lower-cased query, [str_lower] being the lower-casing of the
    interpreter; the empty query, which is its own lower-casing, is part
    of every keyword, so it returns the whole catalog. *)
Theorem search_techniques_finds (str_lower : string -> string)
    (query id k : string) (keywords : list string) :
  (id, keywords) ∈ TECHNIQUE_KEYWORDS ->
  k ∈ keywords ->
  contains k (str_lower query) = true \/ contains (str_lower query) k = true ->
  id ∈ map s_id (search_techniques str_lower query)
  /\ (lowers_ascii str_lower ->
      map s_id (search_techniques str_lower "") = TECHNIQUE_KEYWORDS.*1).
Proof.
  intros He Hk Hor. split.
  - rewrite search_ids. apply list_elem_of_fmap. exists (id, keywords).
    split; [reflexivity |]. apply list_elem_of_filter. split; [| exact He].
    apply Is_true_true. unfold search_hit. cbn [snd].
    apply existsb_elem_of. exists k. split; [exact Hk |].
    apply orb_true_iff. exact Hor.
  - intros Hl. rewrite search_ids, (Hl "" eq_refl). vm_compute. reflexivity.
Qed.

Lemma search_techniques_finds_witness :
  "T1133" ∈ map s_id (search_techniques lower "VPN").
Proof.
  apply (search_techniques_finds lower "VPN" "T1133" "vpn"
           ["vpn"; "remote access"; "external remote services"]).
  - apply list_elem_of_In. vm_compute. tauto.
  - apply list_elem_of_here.
  - left. vm_compute. reflexivity.
Defined.

(** X3. Whatever [map_to_mitre] matches in a text, [search_techniques]
    returns for the same text taken as a query. *)
Theorem map_to_mitre_within_search (str_lower : string -> string)
    (text id : string) :
  id ∈ matched_techniques (map_to_mitre str_lower text) ->
  id ∈ map s_id (search_techniques str_lower text).
Proof.
  rewrite map_to_mitre_techniques, search_ids.
  intros H. apply list_elem_of_fmap in H as (e & -> & He).
  apply list_elem_of_filter in He as [Hhit He].
  apply list_elem_of_fmap. exists e. split; [reflexivity |].
  apply list_elem_of_filter. split; [| exact He].
  apply Is_true_true in Hhit. apply Is_true_true.
  unfold keyword_hit in Hhit. unfold search_hit.
  apply existsb_elem_of in Hhit as (k & Hk & Hc).
  apply existsb_elem_of. exists k. split; [exact Hk |].
  rewrite Hc. apply orb_true_r.
Qed.

Lemma map_to_mitre_within_search_witness :
  "T1059" ∈ map s_id (search_techniques lower
                                        "powershell was used for lateral movement").
Proof.
  apply map_to_mitre_within_search. vm_compute. apply list_elem_of_here.
Defined.

Lemma technique_names_keys : technique_names.*1 = TECHNIQUE_KEYWORDS.*1.
Proof. reflexivity. Qed.

Lemma tactic_mapping_keys : TACTIC_MAPPING.*1 = TECHNIQUE_KEYWORDS.*1.
Proof. reflexivity. Qed.

Lemma technique_name_known (tid : string) :
  _get_technique_name tid ≠ "Unknown Technique" <-> tid ∈ TECHNIQUE_KEYWORDS.*1.
Proof.
  unfold _get_technique_name. rewrite <- technique_names_keys.
  destruct (dict_get technique_names tid) as [name |] eqn:E; cbn [default from_option id].
  - split.
    + intros _. apply dict_get_Some in E.
      apply list_elem_of_fmap. exists (tid, name). split; [reflexivity | exact E].
    + intros _. apply dict_get_Some in E.
      assert (H : Forall (fun p => p.2 ≠ "Unknown Technique") technique_names)
        by (repeat constructor; discriminate).
      rewrite Forall_forall in H. apply (H _ E).
  - apply dict_get_None in E. split; [congruence | contradiction].
Qed.

Lemma tactic_known (tid : string) :
  default "Unknown" (dict_get TACTIC_MAPPING tid) ≠ "Unknown"
  <-> tid ∈ TECHNIQUE_KEYWORDS.*1.
Proof.
  rewrite <- tactic_mapping_keys.
  destruct (dict_get TACTIC_MAPPING tid) as [t |] eqn:E; cbn [default from_option id].
  - split.
    + intros _. apply dict_get_Some in E.
      apply list_elem_of_fmap. exists (tid, t). split; [reflexivity | exact E].
    + intros _. apply dict_get_Some in E.
      assert (H : Forall (fun p => p.2 ≠ "Unknown") TACTIC_MAPPING)
        by (repeat constructor; discriminate).
      rewrite Forall_forall in H. apply (H _ E).
  - apply dict_get_None in E. split; [congruence | contradiction].
Qed.

Lemma details_ids (technique_ids : list string) :
  map d_id (_get_technique_details technique_ids) = technique_ids.
Proof. unfold _get_technique_details. rewrite map_map. cbn [d_id]. apply map_id. Qed.

Lemma details_known (technique_ids : list string) (d : technique_detail) :
  d ∈ _get_technique_details technique_ids -> d_id d ∈ TECHNIQUE_KEYWORDS.*1 ->
  d_name d ≠ "Unknown Technique" /\ d_tactic d ≠ "Unknown".
Proof.
  unfold _get_technique_details. intros Hd Hin.
  apply list_elem_of_fmap in Hd as (tid & -> & _). cbn [d_id d_name d_tactic] in *.
  split; [apply technique_name_known | apply tactic_known]; exact Hin.
Qed.

(** X4. [_get_technique_details] returns one record per id, in the order
    given and with repetitions kept; an id of the catalog gets its name
    and tactic, any other id gets ["Unknown Technique"] and ["Unknown"];
    the reference URL is built from the id in both cases. *)
Theorem technique_details_lookup (technique_ids : list string) :
  let details := _get_technique_details technique_ids in
  map d_id details = technique_ids
  /\ (forall d, d ∈ details ->
        d_url d = ("https://attack.mitre.org/techniques/" ++ d_id d ++ "/")%string
        /\ (d_id d ∈ TECHNIQUE_KEYWORDS.*1 ->
              dict_get technique_names (d_id d) = Some (d_name d)
              /\ dict_get TACTIC_MAPPING (d_id d) = Some (d_tactic d)
              /\ d_name d ≠ "Unknown Technique" /\ d_tactic d ≠ "Unknown")
        /\ (d_id d ∉ TECHNIQUE_KEYWORDS.*1 ->
              d_name d = "Unknown Technique" /\ d_tactic d = "Unknown")).
Proof.
  intros details. subst details. unfold _get_technique_details. split.
  - rewrite map_map. cbn [d_id]. apply map_id.
  - intros d Hd. apply list_elem_of_fmap in Hd as (id & -> & _).
    cbn [d_id d_name d_tactic d_url]. split; [reflexivity |]. split.
    + intros Hin.
      pose proof (proj2 (technique_name_known id) Hin) as Hn.
      pose proof (proj2 (tactic_known id) Hin) as Ht.
      unfold _get_technique_name in *.
      destruct (dict_get technique_names id) as [name |];
        [| contradiction Hn; reflexivity].
      destruct (dict_get TACTIC_MAPPING id) as [t |];
        [| contradiction Ht; reflexivity].
      cbn [default from_option] in *. unfold Datatypes.id in *. repeat split; assumption.
    + intros Hnin. unfold _get_technique_name.
      rewrite (proj2 (dict_get_None technique_names id))
        by (rewrite technique_names_keys; exact Hnin).
      rewrite (proj2 (dict_get_None TACTIC_MAPPING id))
        by (rewrite tactic_mapping_keys; exact Hnin).
      split; reflexivity.
Qed.

Lemma first_occurrences_elem_of (l : list string) (x : string) :
  x ∈ first_occurrences l <-> x ∈ l.
Proof.
  induction l as [| y l IH]; cbn [first_occurrences]; [reflexivity |].
  rewrite !elem_of_cons, list_elem_of_filter, IH.
  destruct (decide (x = y)); tauto.
Qed.

Lemma first_occurrences_length (l : list string) :
  (length (first_occurrences l) <= length l)%nat.
Proof.
  induction l as [| y l IH]; cbn [first_occurrences length]; [lia |].
  pose proof (length_filter (fun z => z ≠ y) (first_occurrences l)). lia.
Qed.

Lemma catalog_tactic_total (ids : list string) :
  ids `sublist_of` TECHNIQUE_KEYWORDS.*1 ->
  omap (dict_get TACTIC_MAPPING) ids
  = map (fun id => default "Unknown" (dict_get TACTIC_MAPPING id)) ids.
Proof.
  intros Hsub.
  assert (H : Forall (fun id => is_Some (dict_get TACTIC_MAPPING id)) ids).
  { apply Forall_forall. intros id Hin.
    assert (Hc : id ∈ TECHNIQUE_KEYWORDS.*1) by (eapply elem_of_sublist; eauto).
    clear Hin. revert id Hc. apply Forall_forall.
    repeat constructor; eexists; reflexivity. }
  clear Hsub. induction H as [| id ids [t E] _ IH]; [reflexivity |].
  cbn [omap list_omap map]. rewrite E, IH. reflexivity.
Qed.

(** X5. The details [map_to_mitre] reports are those of the matched
    techniques, one per technique and in the same order; none of them is
    an unknown technique, and their tactics, duplicates removed, are the
    matched tactics. *)
Theorem map_to_mitre_details_consistent (str_lower : string -> string)
    (description : string) :
  let r := map_to_mitre str_lower description in
  let details := map_to_mitre_details str_lower description in
  map d_id details = matched_techniques r
  /\ first_occurrences (map d_tactic details) = matched_tactics r
  /\ (forall d, d ∈ details ->
        d_name d ≠ "Unknown Technique" /\ d_tactic d ≠ "Unknown"
        /\ d_tactic d ∈ matched_tactics r).
Proof.
  intros r details. subst r details. unfold map_to_mitre_details.
  set (ids := matched_techniques (map_to_mitre str_lower description)).
  assert (Hsub : ids `sublist_of` TECHNIQUE_KEYWORDS.*1).
  { unfold ids. rewrite map_to_mitre_techniques.
    apply fmap_sublist, sublist_filter. }
  assert (Htac : map d_tactic (_get_technique_details ids)
                 = omap (dict_get TACTIC_MAPPING) ids).
  { rewrite (catalog_tactic_total ids Hsub).
    unfold _get_technique_details. rewrite map_map. reflexivity. }
  pose proof (details_ids ids) as Hids.
  split; [exact Hids |]. split.
  - rewrite Htac. symmetry. apply map_to_mitre_tactics.
  - intros d Hd.
    assert (Hin : d_id d ∈ TECHNIQUE_KEYWORDS.*1).
    { eapply elem_of_sublist; [| exact Hsub]. rewrite <- Hids.
      apply list_elem_of_fmap. exists d. split; [reflexivity | exact Hd]. }
    destruct (details_known ids d Hd Hin) as [Hn Ht].
    split; [exact Hn |]. split; [exact Ht |].
    rewrite map_to_mitre_tactics. fold ids. rewrite <- Htac.
    apply first_occurrences_elem_of.
    apply list_elem_of_fmap. exists d. split; [reflexivity | exact Hd].
Qed.

Lemma tactic_mapping_NoDup : NoDup (TACTIC_MAPPING.*1).
Proof. rewrite tactic_mapping_keys. apply catalog_ids_NoDup. Qed.

Lemma by_tactic_elem_of (tactic tid : string) :
  tid ∈ get_techniques_by_tactic tactic <-> dict_get TACTIC_MAPPING tid = Some tactic.
Proof.
  unfold get_techniques_by_tactic. rewrite list_elem_of_fmap. split.
  - intros ([k t] & -> & He). apply list_elem_of_filter in He as [Ht He].
    cbn [fst snd] in *. subst t.
    apply dict_get_NoDup; [apply tactic_mapping_NoDup | exact He].
  - intros E. apply dict_get_Some in E. exists (tid, tactic).
    split; [reflexivity |]. apply list_elem_of_filter. split; [reflexivity | exact E].
Qed.

(** X6. [get_techniques_by_tactic] returns, once each and in the order of
    the table, exactly the techniques whose tactic in [TACTIC_MAPPING] is
    the given one; no technique is listed under two tactics; the list is
    empty exactly for a string that is not one of [get_tactics]. *)
Theorem techniques_by_tactic_lookup (tactic : string) :
  let ids := get_techniques_by_tactic tactic in
  (forall tid, tid ∈ ids <-> dict_get TACTIC_MAPPING tid = Some tactic)
  /\ NoDup ids
  /\ ids `sublist_of` TACTIC_MAPPING.*1
  /\ (forall tid other, tid ∈ ids -> tid ∈ get_techniques_by_tactic other ->
        other = tactic)
  /\ (ids = [] <-> tactic ∉ get_tactics).
Proof.
  intros ids. subst ids.
  assert (Hsub : get_techniques_by_tactic tactic `sublist_of` TACTIC_MAPPING.*1).
  { unfold get_techniques_by_tactic. apply fmap_sublist, sublist_filter. }
  split; [intros tid; apply by_tactic_elem_of |].
  split; [eapply sublist_NoDup; [apply tactic_mapping_NoDup | exact Hsub] |].
  split; [exact Hsub |]. split.
  - intros tid other H1 H2. apply by_tactic_elem_of in H1, H2. congruence.
  - unfold get_tactics. rewrite elem_of_list_to_set, list_elem_of_fmap. split.
    + intros Hnil ([k t] & -> & He). cbn [snd] in *.
      assert (Hk : k ∈ get_techniques_by_tactic t).
      { apply by_tactic_elem_of.
        apply dict_get_NoDup; [apply tactic_mapping_NoDup | exact He]. }
      rewrite Hnil in Hk. inversion Hk.
    + intros Hnone. destruct (get_techniques_by_tactic tactic) as [| tid l] eqn:E;
        [reflexivity |]. exfalso. apply Hnone.
      assert (Hin : tid ∈ get_techniques_by_tactic tactic) by (rewrite E; left).
      apply by_tactic_elem_of, dict_get_Some in Hin.
      exists (tid, tactic). split; [reflexivity | exact Hin].
Qed.

Lemma filter_sublist_impl {A : Type} (P Q : A -> Prop)
    `{!forall x, Decision (P x)} `{!forall x, Decision (Q x)} (l : list A) :
  (forall x, P x -> Q x) -> filter P l `sublist_of` filter Q l.
Proof.
  intros Himp. induction l as [| x l IH]; [constructor |].
  rewrite !filter_cons. destruct (decide (P x)) as [HP | HP].
  - rewrite decide_True by (apply Himp, HP). apply sublist_skip, IH.
  - destruct (decide (Q x)); [apply sublist_cons, IH | exact IH].
Qed.

(** X7. Adding text never loses a match: when the lower-cased
    description occurs inside the lower-cased other one, its techniques
    are a subsequence of the other's and its tactics are among the
    other's, [str_lower] being the lower-casing of the interpreter.  For
    ASCII text, which is lower-cased letter by letter, it is enough that
    the description occurs inside the other one.  The empty description
    matches nothing. *)
Theorem map_to_mitre_monotone (str_lower : string -> string) (inner outer : string) :
  contains (str_lower outer) (str_lower inner) = true
  \/ (lowers_ascii str_lower /\ is_ascii outer = true
      /\ contains outer inner = true) ->
  matched_techniques (map_to_mitre str_lower inner)
    `sublist_of` matched_techniques (map_to_mitre str_lower outer)
  /\ (forall t, t ∈ matched_tactics (map_to_mitre str_lower inner) ->
        t ∈ matched_tactics (map_to_mitre str_lower outer))
  /\ (lowers_ascii str_lower -> map_to_mitre str_lower "" = Matched [] []).
Proof.
  intros H.
  assert (Hc : contains (str_lower outer) (str_lower inner) = true).
  { destruct H as [H | (Hl & Ha & Hc)]; [exact H |].
    rewrite (Hl outer Ha), (Hl inner (is_ascii_contains outer inner Ha Hc)).
    apply lower_contains. exact Hc. }
  clear H.
  assert (Hsub : matched_techniques (map_to_mitre str_lower inner)
                   `sublist_of` matched_techniques (map_to_mitre str_lower outer)).
  { rewrite !map_to_mitre_techniques. apply fmap_sublist, filter_sublist_impl.
    intros e He. apply Is_true_true in He. apply Is_true_true.
    unfold keyword_hit in *. apply existsb_elem_of in He as (k & Hk & Hkc).
    apply existsb_elem_of. exists k. split; [exact Hk |].
    eapply contains_trans; eassumption. }
  split; [exact Hsub |]. split.
  - intros t. rewrite !map_to_mitre_tactics, !first_occurrences_elem_of.
    rewrite !list_elem_of_omap. intros (tid & Hin & Ht).
    exists tid. split; [| exact Ht]. eapply elem_of_sublist; eassumption.
  - intros Hl. unfold map_to_mitre. rewrite (Hl "" eq_refl). vm_compute. reflexivity.
Qed.

Lemma map_to_mitre_monotone_witness :
  matched_techniques (map_to_mitre lower "Phishing")
    `sublist_of` matched_techniques (map_to_mitre lower "a Phishing mail with a script").
Proof.
  apply (map_to_mitre_monotone lower "Phishing" "a Phishing mail with a script").
  right. split; [apply lowers_ascii_lower |]. split; vm_compute; reflexivity.
Defined.

(** X8. [map_to_mitre] reports at most the fifteen techniques of the
    catalog and at most nine tactics, never more tactics than
    techniques; every reported tactic is one of [get_tactics] and every
    reported technique has its tactic among the reported ones. *)
Theorem map_to_mitre_bounds (str_lower : string -> string) (description : string) :
  let r := map_to_mitre str_lower description in
  (length (matched_techniques r) <= 15)%nat
  /\ (length (matched_tactics r) <= length (matched_techniques r))%nat
  /\ (length (matched_tactics r) <= 9)%nat
  /\ (forall t, t ∈ matched_tactics r -> t ∈ get_tactics)
  /\ (forall tid, tid ∈ matched_techniques r ->
        exists t, dict_get TACTIC_MAPPING tid = Some t /\ t ∈ matched_tactics r).
Proof.
  intros r. subst r.
  set (ids := matched_techniques (map_to_mitre str_lower description)).
  assert (Hsub : ids `sublist_of` TECHNIQUE_KEYWORDS.*1).
  { unfold ids. rewrite map_to_mitre_techniques. apply fmap_sublist, sublist_filter. }
  assert (Hget : forall t, t ∈ matched_tactics (map_to_mitre str_lower description) ->
                           t ∈ get_tactics).
  { intros t. rewrite map_to_mitre_tactics, first_occurrences_elem_of.
    rewrite list_elem_of_omap. intros (tid & _ & Ht).
    apply dict_get_Some in Ht. unfold get_tactics.
    apply elem_of_list_to_set, list_elem_of_fmap.
    exists (tid, t). split; [reflexivity | exact Ht]. }
  split; [| split; [| split; [| split; [exact Hget |]]]].
  - apply sublist_length in Hsub. exact Hsub.
  - rewrite map_to_mitre_tactics. fold ids.
    etransitivity; [apply first_occurrences_length |].
    rewrite (catalog_tactic_total ids Hsub), length_map. lia.
  - assert (Hnd : NoDup (matched_tactics (map_to_mitre str_lower description))).
    { rewrite map_to_mitre_tactics. apply first_occurrences_NoDup. }
    assert (Hle : matched_tactics (map_to_mitre str_lower description) ⊆+ elements get_tactics).
    { apply NoDup_submseteq; [exact Hnd |].
      intros t Ht. apply elem_of_elements, Hget, Ht. }
    apply submseteq_length in Hle.
    change (length (elements get_tactics)) with (size get_tactics) in Hle.
    assert (E : size get_tactics = 9%nat) by (vm_compute; reflexivity).
    lia.
  - intros tid Hin.
    assert (Hc : tid ∈ TECHNIQUE_KEYWORDS.*1) by (eapply elem_of_sublist; eauto).
    pose proof (proj2 (tactic_known tid) Hc) as Hk.
    destruct (dict_get TACTIC_MAPPING tid) as [t |] eqn:E;
      [| contradiction Hk; reflexivity].
    exists t. split; [reflexivity |].
    rewrite map_to_mitre_tactics, first_occurrences_elem_of, list_elem_of_omap.
    exists tid. split; [exact Hin | exact E].
Qed.
End MitreCatalogFacts.

(* ===================================================================== *)
(** * Further properties: the correlator                                  *)
(* ===================================================================== *)

Module CorrelatorMoreFacts.
Import PyStr Float64 Float64Facts Correlator CorrelatorFacts Clustering.

Lemma similarity_values (ioc1 ioc2 ioc_type : string) :
  let s := _calculate_similarity ioc1 ioc2 ioc_type in
  s = lit 0.8 \/ s = lit 0.6 \/ s = lit 0.3 \/ s = lit 1.0 \/ s = lit 0.0.
Proof.
  cbv zeta. unfold _calculate_similarity.
  repeat match goal with
         | |- context [decide ?P] => destruct (decide P)
         end; tauto.
Qed.

Lemma similarity_other_types (ioc1 ioc2 ioc_type : string) :
  ioc1 ≠ ioc2 -> ioc_type ≠ "ip" -> ioc_type ≠ "domain" ->
  flt (lit 0.5) (_calculate_similarity ioc1 ioc2 ioc_type) = false.
Proof.
  intros Hne Hip Hdom. unfold _calculate_similarity.
  rewrite (decide_False (P := ioc_type = "ip")) by exact Hip.
  rewrite (decide_False (P := ioc_type = "domain")) by exact Hdom.
  rewrite (decide_False (P := ioc1 = ioc2)) by exact Hne.
  destruct (decide _); vm_compute; reflexivity.
Qed.

(** A similarity of two different values above the threshold is 0.8 or
    0.6. *)
Lemma similarity_above_threshold (ioc1 ioc2 ioc_type : string) :
  ioc2 ≠ ioc1 ->
  flt (lit 0.5) (_calculate_similarity ioc1 ioc2 ioc_type) = true ->
  _calculate_similarity ioc1 ioc2 ioc_type = lit 0.8
  \/ _calculate_similarity ioc1 ioc2 ioc_type = lit 0.6.
Proof.
  intros Hne Hflt.
  destruct (similarity_values ioc1 ioc2 ioc_type) as [E | [E | [E | [E | E]]]]; auto.
  - rewrite E in Hflt. vm_compute in Hflt. discriminate Hflt.
  - exfalso. revert E Hflt. unfold _calculate_similarity.
    repeat match goal with
           | |- context [decide ?P] => destruct (decide P)
           end; intros E Hflt; try congruence;
      try (vm_compute in E; discriminate E);
      try (vm_compute in Hflt; discriminate Hflt).
  - rewrite E in Hflt. vm_compute in Hflt. discriminate Hflt.
Qed.

(** X9. The similarity is one of 0.0, 0.3, 0.6, 0.8 and 1.0, hence a
    score between 0 and 1; it exceeds the 0.5 threshold of
    [find_related] only for the types ["ip"] and ["domain"] or for two
    equal hashes, and two different hashes always score 0.0. *)
Theorem similarity_range (ioc1 ioc2 ioc_type : string) :
  let s := _calculate_similarity ioc1 ioc2 ioc_type in
  (0 <= s <= 1)%Q
  /\ (flt (lit 0.5) s = true ->
        ioc_type = "ip" \/ ioc_type = "domain" \/ ioc1 = ioc2)
  /\ (ioc1 ≠ ioc2 -> ioc_type ≠ "ip" -> ioc_type ≠ "domain" ->
        flt (lit 0.5) s = false).
Proof.
  cbv zeta. split; [| split].
  - destruct (similarity_values ioc1 ioc2 ioc_type) as [E | [E | [E | [E | E]]]];
      rewrite E; split; vm_compute; discriminate.
  - unfold _calculate_similarity.
    repeat match goal with
           | |- context [decide ?P] => destruct (decide P)
           end; auto; vm_compute; discriminate.
  - apply similarity_other_types.
Qed.

Section MoreFacts.
Context {Meta : Type}.
Implicit Types (db : gmap string (list (threat_entry Meta))).
Implicit Types (l : list (related_threat Meta)) (r : related_threat Meta).

Lemma sort_nil : sort_by_similarity_desc ([] : list (related_threat Meta)) = [].
Proof. reflexivity. Qed.

Lemma slice_to_nil {A : Type} (k : Z) : slice_to ([] : list A) k = [].
Proof. unfold slice_to. destruct (0 <=? k)%Z; apply take_nil. Qed.

Lemma same_type_scan_other db (ioc ioc_type : string) :
  ioc_type ≠ "ip" -> ioc_type ≠ "domain" -> same_type_scan db ioc ioc_type = [].
Proof.
  intros Hip Hdom. unfold same_type_scan.
  induction (default [] (db !! ioc_type)) as [| threat ts IH]; [reflexivity |].
  cbn [omap list_omap]. rewrite IH.
  destruct (decide (t_ioc threat ≠ ioc)) as [Hne | _]; [| reflexivity].
  rewrite similarity_other_types by congruence. reflexivity.
Qed.

(** X10. A query of any type other than ["ip"] and ["domain"] (a hash, a
    URL, an e-mail address, ["unknown"]) has no related threat, whatever
    the database holds and whatever limit is asked for. *)
Theorem find_related_other_types_empty
    db (ioc ioc_type : string) (max_results : Z) :
  ioc_type ≠ "ip" -> ioc_type ≠ "domain" ->
  find_related db ioc ioc_type max_results = [].
Proof.
  intros Hip Hdom. unfold find_related.
  rewrite same_type_scan_other by assumption.
  unfold _find_cross_type_correlations.
  rewrite (decide_False (P := ioc_type = "ip")) by exact Hip.
  cbn [app]. rewrite sort_nil. apply slice_to_nil.
Qed.

Lemma same_type_scan_elem db (ioc ioc_type : string) r :
  r ∈ same_type_scan db ioc ioc_type <->
  exists threat,
    threat ∈ default [] (db !! ioc_type)
    /\ t_ioc threat ≠ ioc
    /\ flt (lit 0.5) (_calculate_similarity ioc (t_ioc threat) ioc_type) = true
    /\ r = RelatedThreat (t_ioc threat) (t_type threat)
                         (_calculate_similarity ioc (t_ioc threat) ioc_type)
                         "same_type" (t_metadata threat).
Proof.
  unfold same_type_scan. rewrite list_elem_of_omap. split.
  - intros (threat & Hin & Hsome). exists threat.
    destruct (decide (t_ioc threat ≠ ioc)) as [Hne | _]; [| discriminate].
    destruct (flt _ _) eqn:E; [| discriminate].
    injection Hsome as <-. repeat split; assumption.
  - intros (threat & Hin & Hne & Hflt & ->). exists threat.
    split; [exact Hin |]. rewrite (decide_True (P := t_ioc threat ≠ ioc)) by exact Hne.
    rewrite Hflt. reflexivity.
Qed.

Lemma cross_type_elem db (ioc ioc_type : string) r :
  r ∈ _find_cross_type_correlations db ioc ioc_type <->
  ioc_type = "ip"
  /\ exists threat,
       threat ∈ default [] (db !! "domain")
       /\ r = RelatedThreat (t_ioc threat) "domain" (lit 0.7)
                            "dns_resolution" (t_metadata threat).
Proof.
  unfold _find_cross_type_correlations.
  destruct (decide (ioc_type = "ip")) as [-> | Hne].
  - rewrite list_elem_of_fmap. split.
    + intros (threat & -> & Hin). split; [reflexivity |]. exists threat. tauto.
    + intros (_ & threat & Hin & ->). exists threat. tauto.
  - split; [intros H; inversion H | tauto].
Qed.

(** X11. Every related threat returned comes from a stored entry, whose
    value and metadata it carries: either an entry of the queried type
    with another value, compared with the query and scoring 0.8 or 0.6,
    or, for a query of type ["ip"], a stored domain reported at 0.7.  So
    every similarity returned is above the 0.5 threshold. *)
Theorem find_related_provenance
    db (ioc ioc_type : string) (max_results : Z) r :
  r ∈ find_related db ioc ioc_type max_results ->
  (flt (lit 0.5) (r_similarity r) = true)
  /\ ((r_relationship r = "same_type"
       /\ (r_similarity r = lit 0.8 \/ r_similarity r = lit 0.6)
       /\ r_similarity r = _calculate_similarity ioc (r_ioc r) ioc_type
       /\ r_ioc r ≠ ioc
       /\ exists threat, threat ∈ default [] (db !! ioc_type)
                         /\ t_ioc threat = r_ioc r
                         /\ t_type threat = r_type r
                         /\ t_metadata threat = r_metadata r)
      \/ (r_relationship r = "dns_resolution"
          /\ r_similarity r = lit 0.7 /\ ioc_type = "ip" /\ r_type r = "domain"
          /\ exists threat, threat ∈ default [] (db !! "domain")
                            /\ t_ioc threat = r_ioc r
                            /\ t_metadata threat = r_metadata r)).
Proof.
  intros Hin. apply elem_of_find_related in Hin as [Hs | Hc].
  - apply same_type_scan_elem in Hs as (threat & Hin & Hne & Hflt & ->).
    cbn [r_similarity r_relationship r_ioc r_type r_metadata].
    split; [exact Hflt |]. left. split; [reflexivity |].
    split; [| split; [reflexivity | split; [exact Hne |]]].
    + apply similarity_above_threshold; assumption.
    + exists threat. repeat split; first [exact Hin | reflexivity].
  - apply cross_type_elem in Hc as (-> & threat & Hin & ->).
    cbn [r_similarity r_relationship r_ioc r_type r_metadata].
    split; [vm_compute; reflexivity |]. right.
    repeat split; try reflexivity. exists threat. repeat split; first [exact Hin | reflexivity].
Qed.

Lemma with_similarity_all (s : Q) l :
  (forall r, r ∈ l -> (r_similarity r == s)%Q) -> with_similarity s l = l.
Proof.
  intros H. unfold with_similarity. induction l as [| x l IH]; [reflexivity |].
  cbn [List.filter]. rewrite (proj2 (Qeq_bool_iff _ _) (H x (list_elem_of_here _ _))).
  f_equal. apply IH. intros r Hr. apply H. right. exact Hr.
Qed.

Lemma with_similarity_none (s : Q) l :
  (forall r, r ∈ l -> ~ (r_similarity r == s)%Q) -> with_similarity s l = [].
Proof.
  intros H. unfold with_similarity. induction l as [| x l IH]; [reflexivity |].
  cbn [List.filter].
  destruct (Qeq_bool (r_similarity x) s) eqn:E.
  - apply Qeq_bool_iff in E. exfalso. apply (H x); [left | exact E].
  - apply IH. intros r Hr. apply H. right. exact Hr.
Qed.

Lemma with_similarity_elem (s : Q) l r :
  r ∈ with_similarity s l <-> r ∈ l /\ (r_similarity r == s)%Q.
Proof.
  unfold with_similarity. rewrite !list_elem_of_In, List.filter_In, Qeq_bool_iff.
  reflexivity.
Qed.

Lemma with_similarity_proper (s s' : Q) l :
  (s == s')%Q -> with_similarity s l = with_similarity s' l.
Proof.
  intros E. unfold with_similarity. apply List.filter_ext. intros r.
  destruct (Qeq_bool (r_similarity r) s) eqn:A;
    destruct (Qeq_bool (r_similarity r) s') eqn:B; try reflexivity.
  - apply Qeq_bool_iff in A. rewrite E in A. apply Qeq_bool_iff in A. congruence.
  - apply Qeq_bool_iff in B. rewrite <- E in B. apply Qeq_bool_iff in B. congruence.
Qed.

Lemma with_similarity_app (s : Q) l1 l2 :
  with_similarity s (l1 ++ l2) = with_similarity s l1 ++ with_similarity s l2.
Proof. apply List.filter_app. Qed.

Lemma sorted_constant (s : Q) l :
  (forall r, r ∈ l -> (r_similarity r == s)%Q) ->
  StronglySorted by_similarity_desc l.
Proof.
  intros Hall. induction l as [| y l IH]; [constructor |].
  constructor.
  - apply IH. intros z Hz. apply Hall. right. exact Hz.
  - apply Forall_forall. intros z Hz. unfold by_similarity_desc.
    rewrite (Hall y (list_elem_of_here _ _)), (Hall z); [apply Qle_refl |].
    right. exact Hz.
Qed.

(** A list already in descending order is left as it is. *)
Lemma sort_sorted_id l :
  StronglySorted by_similarity_desc l -> sort_by_similarity_desc l = l.
Proof.
  intros H. symmetry. apply stable_sort_unique; [exact H | reflexivity].
Qed.

Lemma same_type_scan_levels db (ioc ioc_type : string) r :
  r ∈ same_type_scan db ioc ioc_type ->
  r_similarity r = lit 0.8 \/ r_similarity r = lit 0.6.
Proof.
  intros Hr. apply same_type_scan_elem in Hr as (threat & _ & Hne & Hflt & ->).
  cbn [r_similarity]. apply similarity_above_threshold; assumption.
Qed.

Lemma cross_type_level db (ioc ioc_type : string) r :
  r ∈ _find_cross_type_correlations db ioc ioc_type -> r_similarity r = lit 0.7.
Proof. intros H. apply cross_type_elem in H as (_ & threat & _ & ->). reflexivity. Qed.

(** X12. For a query of type ["ip"] the result lists, in this order, the
    stored addresses of the same /24 (0.8), then every stored domain
    (0.7), then the addresses that share only the first two components
    (0.6), each group in insertion order, cut by the limit. *)
Theorem find_related_ip_ranking db (ioc : string) (max_results : Z) :
  let same := same_type_scan db ioc "ip" in
  let domains := _find_cross_type_correlations db ioc "ip" in
  find_related db ioc "ip" max_results
  = slice_to (with_similarity (lit 0.8) same ++ domains
              ++ with_similarity (lit 0.6) same) max_results.
Proof.
  intros same domains. unfold find_related. fold same domains. f_equal.
  symmetry. apply stable_sort_unique.
  - apply StronglySorted_app_2; [| | apply StronglySorted_app_2].
    + intros x y Hx Hy. apply with_similarity_elem in Hx as [_ Hx].
      unfold by_similarity_desc. rewrite Hx.
      apply elem_of_app in Hy as [Hy | Hy].
      * rewrite (cross_type_level _ _ _ _ Hy). vm_compute. discriminate.
      * apply with_similarity_elem in Hy as [_ Hy]. rewrite Hy.
        vm_compute. discriminate.
    + apply (sorted_constant (lit 0.8)). intros y Hy.
      apply with_similarity_elem in Hy. tauto.
    + intros x y Hx Hy. unfold by_similarity_desc.
      rewrite (cross_type_level _ _ _ _ Hx).
      apply with_similarity_elem in Hy as [_ Hy]. rewrite Hy.
      vm_compute. discriminate.
    + apply (sorted_constant (lit 0.7)). intros y Hy.
      rewrite (cross_type_level _ _ _ _ Hy). reflexivity.
    + apply (sorted_constant (lit 0.6)). intros y Hy.
      apply with_similarity_elem in Hy. tauto.
  - intros s. rewrite !with_similarity_app.
    assert (H88 : with_similarity (lit 0.8) (with_similarity (lit 0.8) same)
                  = with_similarity (lit 0.8) same).
    { apply with_similarity_all. intros r Hr.
      apply with_similarity_elem in Hr. tauto. }
    assert (H66 : with_similarity (lit 0.6) (with_similarity (lit 0.6) same)
                  = with_similarity (lit 0.6) same).
    { apply with_similarity_all. intros r Hr.
      apply with_similarity_elem in Hr. tauto. }
    assert (Hoff : forall s1 s2, ~ (s2 == s1)%Q ->
               with_similarity s1 (with_similarity s2 same) = []).
    { intros s1 s2 Hne. apply with_similarity_none. intros r Hr.
      apply with_similarity_elem in Hr as [_ Hr]. rewrite Hr. exact Hne. }
    assert (Hdom : forall s1, ~ (lit 0.7 == s1)%Q -> with_similarity s1 domains = []).
    { intros s1 Hne. apply with_similarity_none. intros r Hr.
      rewrite (cross_type_level _ _ _ _ Hr). exact Hne. }
    assert (Hsame : forall s1, ~ (lit 0.8 == s1)%Q -> ~ (lit 0.6 == s1)%Q ->
               with_similarity s1 same = []).
    { intros s1 N8 N6. apply with_similarity_none. intros r Hr.
      destruct (same_type_scan_levels _ _ _ _ Hr) as [-> | ->]; assumption. }
    destruct (Qeq_dec s (lit 0.8)) as [E8 | N8];
      [| destruct (Qeq_dec s (lit 0.7)) as [E7 | N7];
         [| destruct (Qeq_dec s (lit 0.6)) as [E6 | N6]]].
    + rewrite !(with_similarity_proper s (lit 0.8) _ E8).
      rewrite H88, (Hoff (lit 0.8) (lit 0.6)) by (vm_compute; discriminate).
      rewrite app_nil_r. reflexivity.
    + rewrite !(with_similarity_proper s (lit 0.7) _ E7).
      rewrite !Hoff by (vm_compute; discriminate).
      rewrite Hsame by (vm_compute; discriminate).
      rewrite app_nil_r. reflexivity.
    + rewrite !(with_similarity_proper s (lit 0.6) _ E6).
      rewrite H66, (Hoff (lit 0.6) (lit 0.8)) by (vm_compute; discriminate).
      rewrite Hdom by (vm_compute; discriminate).
      rewrite app_nil_r. reflexivity.
    + assert (forall q, ~ (s == q)%Q -> ~ (q == s)%Q)
        by (intros q Hq E; apply Hq; symmetry; exact E).
      rewrite !Hoff, Hsame, Hdom by auto. reflexivity.
Qed.


(** X13. For a query of type ["domain"] nothing is reordered: the
    result is the stored domains with another value and the same last
    dot-separated label as the query, in insertion order, all at
    similarity 0.6, cut by the limit. *)
Theorem find_related_domain_insertion_order db (ioc : string) (max_results : Z) :
  find_related db ioc "domain" max_results
  = slice_to
      (map (fun threat =>
              RelatedThreat (t_ioc threat) (t_type threat) (lit 0.6)
                            "same_type" (t_metadata threat))
           (filter (fun threat =>
                      t_ioc threat ≠ ioc
                      /\ last_item (split_dot ioc) = last_item (split_dot (t_ioc threat)))
                   (default [] (db !! "domain"))))
      max_results.
Proof.
  unfold find_related.
  assert (Hscan : same_type_scan db ioc "domain"
                  = map (fun threat =>
                           RelatedThreat (t_ioc threat) (t_type threat) (lit 0.6)
                                         "same_type" (t_metadata threat))
                        (filter (fun threat =>
                                   t_ioc threat ≠ ioc
                                   /\ last_item (split_dot ioc)
                                      = last_item (split_dot (t_ioc threat)))
                                (default [] (db !! "domain")))).
  { unfold same_type_scan.
    induction (default [] (db !! "domain")) as [| threat ts IH]; [reflexivity |].
    cbn [omap list_omap]. rewrite IH, filter_cons. unfold _calculate_similarity.
    rewrite (decide_False (P := "domain" = "ip")) by discriminate.
    rewrite (decide_True (P := "domain" = "domain")) by reflexivity.
    destruct (decide (t_ioc threat ≠ ioc)) as [Hne | He].
    - destruct (decide (last_item (split_dot ioc)
                        = last_item (split_dot (t_ioc threat)))) as [El | Nl].
      + rewrite decide_True by (split; assumption). reflexivity.
      + rewrite decide_False by tauto. reflexivity.
    - rewrite decide_False by tauto. reflexivity. }
  rewrite Hscan. unfold _find_cross_type_correlations.
  rewrite (decide_False (P := "domain" = "ip")) by discriminate.
  rewrite app_nil_r. f_equal. apply sort_sorted_id.
  apply (sorted_constant (lit 0.6)). intros r Hr.
  apply list_elem_of_fmap in Hr as (threat & -> & _). reflexivity.
Qed.

(** X14. Recording a threat changes the answers only to queries of its
    own type and, when it is a domain, to queries of type ["ip"]. *)
Theorem add_threat_frame db (ioc ioc_type : string) (metadata : Meta) (now : Z)
    (query query_type : string) (max_results : Z) :
  ioc_type ≠ query_type ->
  (query_type = "ip" -> ioc_type ≠ "domain") ->
  find_related (add_threat db ioc ioc_type metadata now) query query_type max_results
  = find_related db query query_type max_results.
Proof.
  intros Hne Hdom. unfold find_related, same_type_scan, _find_cross_type_correlations,
    add_threat.
  rewrite lookup_insert_ne by exact Hne.
  destruct (decide (query_type = "ip")) as [E | _]; [| reflexivity].
  rewrite lookup_insert_ne by (apply Hdom, E). reflexivity.
Qed.

Lemma same_type_scan_length db (ioc ioc_type : string) :
  (length (same_type_scan db ioc ioc_type)
   <= length (default [] (db !! ioc_type)))%nat.
Proof.
  unfold same_type_scan.
  induction (default [] (db !! ioc_type)) as [| threat ts IH]; [reflexivity |].
  cbn [omap list_omap length]. destruct (decide _); [destruct (flt _ _) |];
    cbn [length]; lia.
Qed.

Lemma cross_type_length db (ioc ioc_type : string) :
  (length (_find_cross_type_correlations db ioc ioc_type)
   <= length (default [] (db !! "domain")))%nat.
Proof.
  unfold _find_cross_type_correlations. destruct (decide _).
  - rewrite length_map. lia.
  - cbn. lia.
Qed.

Lemma find_related_no_cut db (ioc ioc_type : string) (max_results : Z) :
  (Z.of_nat (length (default [] (db !! ioc_type))
             + length (default [] (db !! "domain"))) <= max_results)%Z ->
  find_related db ioc ioc_type max_results
    ≡ₚ same_type_scan db ioc ioc_type ++ _find_cross_type_correlations db ioc ioc_type.
Proof.
  intros Hk. unfold find_related, slice_to.
  rewrite (proj2 (Z.leb_le 0 max_results)) by lia.
  pose proof (same_type_scan_length db ioc ioc_type).
  pose proof (cross_type_length db ioc ioc_type).
  rewrite take_ge; [apply sort_perm |].
  rewrite sort_perm, length_app. lia.
Qed.

(** X15. With a limit of at least the number of stored threats of the
    queried type and of type ["domain"], nothing is cut off: the result
    is a rearrangement of everything the two scans found.  A limit of
    zero returns nothing. *)
Theorem find_related_large_limit db (ioc ioc_type : string) (max_results : Z) :
  (Z.of_nat (length (default [] (db !! ioc_type))
             + length (default [] (db !! "domain"))) <= max_results)%Z ->
  find_related db ioc ioc_type max_results
    ≡ₚ same_type_scan db ioc ioc_type ++ _find_cross_type_correlations db ioc ioc_type
  /\ find_related db ioc ioc_type 0 = [].
Proof.
  intros Hk. split; [| unfold find_related, slice_to; cbn; apply take_0].
  apply find_related_no_cut. exact Hk.
Qed.

(** X16. A newly recorded address of the same /24 as the queried one
    (another value with the same first three components) is reported to
    the next ["ip"] query at similarity 0.8 with its metadata, provided
    the limit does not cut it off. *)
Theorem add_threat_then_found db (ioc neighbour : string) (metadata : Meta)
    (now max_results : Z) :
  neighbour ≠ ioc ->
  take 3 (split_dot ioc) = take 3 (split_dot neighbour) ->
  let db' := add_threat db neighbour "ip" metadata now in
  (Z.of_nat (length (default [] (db' !! "ip"))
             + length (default [] (db' !! "domain"))) <= max_results)%Z ->
  RelatedThreat neighbour "ip" (lit 0.8) "same_type" metadata
    ∈ find_related db' ioc "ip" max_results.
Proof.
  intros Hne H24 db' Hk.
  rewrite (find_related_no_cut db' ioc "ip" max_results Hk).
  apply elem_of_app. left. apply same_type_scan_elem.
  exists (ThreatEntry neighbour "ip" metadata now).
  cbn [t_ioc t_type t_metadata].
  assert (Hs : _calculate_similarity ioc neighbour "ip" = lit 0.8).
  { unfold _calculate_similarity.
    rewrite (decide_True (P := "ip" = "ip")) by reflexivity.
    rewrite decide_True by exact H24. reflexivity. }
  rewrite Hs. split; [| split; [exact Hne | split; [vm_compute; reflexivity | reflexivity]]].
  unfold db', add_threat. rewrite lookup_insert_eq. cbn [default from_option].
  apply elem_of_app. right. apply list_elem_of_here.
Qed.

(** X17. In the statistics, [by_type] gives for each type of the
    database the length of its list, [total_threats] is the sum of these
    counts, and the three correlation rules are all active; recording a
    threat raises the count of its type by one (from zero for a new
    type) and leaves the other counts alone. *)
Theorem statistics_by_type db (ioc ioc_type : string) (metadata : Meta) (now : Z) :
  let st := get_statistics db in
  let st' := get_statistics (add_threat db ioc ioc_type metadata now) in
  (forall t, by_type st !! t = length <$> db !! t)
  /\ total_threats st = map_fold (fun _ n total => n + total)%nat 0%nat (by_type st)
  /\ correlation_rules_active st = 3%nat
  /\ by_type st' = <[ioc_type := S (default 0%nat (by_type st !! ioc_type))]> (by_type st)
  /\ total_threats (get_statistics (∅ : gmap string (list (threat_entry Meta)))) = 0%nat.
Proof.
  cbv zeta. unfold get_statistics. cbn [by_type total_threats correlation_rules_active].
  split; [intros t; apply lookup_fmap |].
  split; [rewrite map_fold_fmap; reflexivity |].
  split; [reflexivity |]. split; [| apply map_fold_empty].
  unfold add_threat. rewrite fmap_insert, lookup_fmap, length_app. cbn [length].
  f_equal. destruct (db !! ioc_type); cbn; lia.
Qed.

Lemma recent_threats_elem (items : list (string * list (threat_entry Meta)))
    (now time_window : Z) (e : threat_entry Meta) :
  e ∈ recent_threats items now time_window <->
  (now - t_timestamp e <= time_window)%Z
  /\ exists k ts, (k, ts) ∈ items /\ e ∈ ts.
Proof.
  unfold recent_threats. rewrite list_elem_of_In, in_flat_map. split.
  - intros ([k ts] & Hin & He). apply list_elem_of_In in Hin, He.
    apply list_elem_of_filter in He as [Hrec He].
    split; [exact Hrec |]. exists k, ts. tauto.
  - intros (Hrec & k & ts & Hin & He). exists (k, ts).
    rewrite <- !list_elem_of_In. split; [exact Hin |].
    apply list_elem_of_filter. tauto.
Qed.

Lemma recent_threats_length (items : list (string * list (threat_entry Meta)))
    (now time_window : Z) :
  (length (recent_threats items now time_window)
   <= sum_list_with (fun p => length p.2) items)%nat.
Proof.
  unfold recent_threats. induction items as [| [k ts] items IH]; [reflexivity |].
  cbn [flat_map sum_list_with snd]. rewrite length_app.
  pose proof (length_filter (fun threat => (now - t_timestamp threat <= time_window)%Z) ts).
  lia.
Qed.

Lemma recent_threats_all (items : list (string * list (threat_entry Meta)))
    (now time_window : Z) :
  (forall k ts e, (k, ts) ∈ items -> e ∈ ts ->
     (now - t_timestamp e <= time_window)%Z) ->
  length (recent_threats items now time_window)
  = sum_list_with (fun p => length p.2) items.
Proof.
  unfold recent_threats. induction items as [| [k ts] items IH]; intros Hall;
    [reflexivity |].
  cbn [flat_map sum_list_with snd]. rewrite length_app, IH.
  - f_equal. f_equal.
    assert (Hts : forall e, e ∈ ts -> (now - t_timestamp e <= time_window)%Z)
      by (intros e He; apply (Hall k ts e); [left | exact He]).
    clear - Hts. induction ts as [| e ts IH]; [reflexivity |].
    rewrite filter_cons_True by (apply Hts; left). f_equal.
    apply IH. intros e' He'. apply Hts. right. exact He'.
  - intros k' ts' e Hin He. apply (Hall k' ts' e); [right; exact Hin | exact He].
Qed.

Lemma total_threats_sum db :
  total_threats (get_statistics db)
  = sum_list_with (fun p => length p.2) (map_to_list db).
Proof.
  unfold get_statistics. cbn [total_threats]. rewrite map_fold_foldr.
  induction (map_to_list db) as [| [k ts] l IH]; [reflexivity |].
  cbn [foldr sum_list_with snd uncurry]. rewrite IH. reflexivity.
Qed.

(** X18. [cluster_threats] returns at most one cluster, and none exactly
    when no stored threat lies within the window.  The one cluster has
    id 1, counts every threat with [now - timestamp <= time_window], and
    shows the first ten of them, so its count can exceed the number of
    threats it shows; every threat shown is a stored one within the
    window. *)
Theorem cluster_threats_single (items : list (string * list (threat_entry Meta)))
    (now time_window : Z) :
  let clusters := cluster_threats items now time_window in
  let recent := recent_threats items now time_window in
  (clusters = [] <->
     forall k ts e, (k, ts) ∈ items -> e ∈ ts ->
       ~ (now - t_timestamp e <= time_window)%Z)
  /\ (forall c, c ∈ clusters ->
        clusters = [c]
        /\ c_cluster_id c = 1%Z
        /\ (1 <= c_threat_count c)%nat
        /\ c_threat_count c = length recent
        /\ c_threats c = take 10 recent
        /\ length (c_threats c) = Nat.min 10 (c_threat_count c)
        /\ (forall e, e ∈ c_threats c ->
              (now - t_timestamp e <= time_window)%Z
              /\ exists k ts, (k, ts) ∈ items /\ e ∈ ts)).
Proof.
  intros clusters recent. subst clusters. unfold cluster_threats. fold recent.
  pose proof (recent_threats_elem items now time_window) as Helem. fold recent in Helem.
  destruct recent as [| e0 rest] eqn:E.
  - split.
    + split; [| reflexivity]. intros _ k ts e Hin He Hrec.
      assert (H : e ∈ ([] : list (threat_entry Meta))).
      { apply Helem. split; [exact Hrec |]. exists k, ts. tauto. }
      inversion H.
    + intros c Hc. inversion Hc.
  - split.
    + split; [discriminate |]. intros Hnone. exfalso.
      destruct (proj1 (Helem e0) (list_elem_of_here _ _)) as (Hrec & k & ts & Hin & He).
      apply (Hnone k ts e0 Hin He Hrec).
    + intros c Hc. apply list_elem_of_singleton in Hc. subst c.
      cbn [c_cluster_id c_threat_count c_threats].
      split; [reflexivity |]. split; [reflexivity |].
      split; [cbn [length]; lia |]. split; [reflexivity |].
      split; [reflexivity |]. split.
      * unfold slice_to. cbn [Z.leb Z.compare]. rewrite length_take. reflexivity.
      * intros e He. apply Helem. unfold slice_to in He. cbn [Z.leb Z.compare] in He.
        apply elem_of_take in He as (i & Hi & _).
        eapply list_elem_of_lookup_2. exact Hi.
Qed.

Lemma cluster_count (items : list (string * list (threat_entry Meta)))
    (now time_window : Z) (c : cluster Meta) :
  c ∈ cluster_threats items now time_window ->
  c_threat_count c = length (recent_threats items now time_window).
Proof.
  unfold cluster_threats. destruct (recent_threats items now time_window) as [| e rest].
  - intros H. inversion H.
  - intros H. apply list_elem_of_singleton in H. subst c. reflexivity.
Qed.

(** X19. When [items] enumerates the database, the count of a cluster
    never exceeds [total_threats] of the statistics, and equals it when
    every stored threat lies within the window. *)
Theorem cluster_count_vs_total db (items : list (string * list (threat_entry Meta)))
    (now time_window : Z) (c : cluster Meta) :
  items ≡ₚ map_to_list db ->
  c ∈ cluster_threats items now time_window ->
  (c_threat_count c <= total_threats (get_statistics db))%nat
  /\ ((forall k ts e, (k, ts) ∈ items -> e ∈ ts ->
         (now - t_timestamp e <= time_window)%Z) ->
      c_threat_count c = total_threats (get_statistics db)).
Proof.
  intros Hperm Hc.
  rewrite (cluster_count items now time_window c Hc), total_threats_sum, <- Hperm. split.
  - apply recent_threats_length.
  - apply recent_threats_all.
Qed.

End MoreFacts.

Lemma find_related_other_types_empty_witness :
  find_related (add_threat (∅ : gmap string (list (threat_entry unit)))
                           "d41d8cd98f00b204e9800998ecf8427e" "hash_md5" tt 0)
               "d41d8cd98f00b204e9800998ecf8427f" "hash_md5" 10
  = [].
Proof. apply find_related_other_types_empty; discriminate. Defined.

Lemma find_related_provenance_witness :
  flt (lit 0.5) (lit 0.8) = true.
Proof.
  apply (find_related_provenance
           (add_threat (∅ : gmap string (list (threat_entry unit)))
                       "10.0.0.1" "ip" tt 0)
           "10.0.0.2" "ip" 10
           (RelatedThreat "10.0.0.1" "ip" (lit 0.8) "same_type" tt)).
  vm_compute. apply list_elem_of_here.
Defined.
Lemma add_threat_frame_witness :
  find_related (add_threat (∅ : gmap string (list (threat_entry unit)))
                           "evil.example" "domain" tt 0)
               "other.example" "url" 10
  = find_related (∅ : gmap string (list (threat_entry unit))) "other.example" "url" 10.
Proof. apply add_threat_frame; [discriminate | discriminate]. Defined.

Lemma find_related_large_limit_witness :
  find_related (add_threat (∅ : gmap string (list (threat_entry unit)))
                           "10.0.0.1" "ip" tt 0)
               "10.0.0.2" "ip" 0
  = [].
Proof.
  apply (find_related_large_limit
           (add_threat (∅ : gmap string (list (threat_entry unit)))
                       "10.0.0.1" "ip" tt 0) "10.0.0.2" "ip" 1).
  vm_compute. discriminate.
Defined.

Lemma add_threat_then_found_witness :
  RelatedThreat "10.0.0.7" "ip" (lit 0.8) "same_type" tt
    ∈ find_related (add_threat (∅ : gmap string (list (threat_entry unit)))
                               "10.0.0.7" "ip" tt 0)
                   "10.0.0.2" "ip" 10.
Proof.
  apply (add_threat_then_found ∅ "10.0.0.2" "10.0.0.7" tt 0 10).
  - discriminate.
  - reflexivity.
  - vm_compute. discriminate.
Defined.

Lemma cluster_count_vs_total_witness :
  (1 <= total_threats
          (get_statistics (add_threat (∅ : gmap string (list (threat_entry unit)))
                                      "10.0.0.1" "ip" tt 100)))%nat.
Proof.
  apply (cluster_count_vs_total
           (add_threat (∅ : gmap string (list (threat_entry unit)))
                       "10.0.0.1" "ip" tt 100)
           (map_to_list (add_threat (∅ : gmap string (list (threat_entry unit)))
                                    "10.0.0.1" "ip" tt 100))
           150 86400
           (Cluster 1 1 86400 [ThreatEntry "10.0.0.1" "ip" tt 100])).
  - reflexivity.
  - vm_compute. apply list_elem_of_here.
Defined.

End CorrelatorMoreFacts.

(* ===================================================================== *)
(** * Further properties: regular expressions and type detection         *)
(* ===================================================================== *)

Module RegexFacts.
Import Regex.

Lemma lang_cat_iff (r1 r2 : regex) (s : list ascii) :
  lang (Cat r1 r2) s <-> exists s1 s2, s = s1 ++ s2 /\ lang r1 s1 /\ lang r2 s2.
Proof.
  split.
  - intros H. inversion H; subst. eauto.
  - intros (s1 & s2 & -> & H1 & H2). constructor; assumption.
Qed.

Lemma lang_alt_iff (r1 r2 : regex) (s : list ascii) :
  lang (Alt r1 r2) s <-> lang r1 s \/ lang r2 s.
Proof.
  split.
  - intros H. inversion H; subst; auto.
  - intros [H | H]; [apply lang_alt_l | apply lang_alt_r]; exact H.
Qed.

Lemma lang_eps_iff (s : list ascii) : lang Eps s <-> s = [].
Proof. split; [intros H; inversion H; reflexivity | intros ->; constructor]. Qed.

Lemma lang_void_iff (s : list ascii) : lang Void s <-> False.
Proof. split; [intros H; inversion H | contradiction]. Qed.

Lemma lang_class_iff (p : ascii -> bool) (s : list ascii) :
  lang (Class p) s <-> exists c, s = [c] /\ p c = true.
Proof.
  split.
  - intros H. inversion H; subst. eauto.
  - intros (c & -> & Hc). constructor. exact Hc.
Qed.

Lemma nullable_spec (r : regex) : nullable r = true <-> lang r [].
Proof.
  induction r as [| | p | r1 IH1 r2 IH2 | r1 IH1 r2 IH2 | r IH]; cbn [nullable].
  - rewrite lang_void_iff. split; [discriminate | contradiction].
  - rewrite lang_eps_iff. tauto.
  - rewrite lang_class_iff. split; [discriminate | intros (c & H & _); discriminate H].
  - rewrite andb_true_iff, IH1, IH2, lang_cat_iff. split.
    + intros [H1 H2]. exists [], []. auto.
    + intros (s1 & s2 & E & H1 & H2). symmetry in E.
      apply app_eq_nil in E as [-> ->]. auto.
  - rewrite orb_true_iff, IH1, IH2, lang_alt_iff. tauto.
  - split; [intros _; constructor | reflexivity].
Qed.

(** A non-empty string of [Star r] starts with a non-empty string of [r]. *)
Lemma lang_star_cons_inv (r : regex) (c : ascii) (s : list ascii) :
  lang (Star r) (c :: s) ->
  exists s1 s2, s = s1 ++ s2 /\ lang r (c :: s1) /\ lang (Star r) s2.
Proof.
  intros H. remember (Star r) as r' eqn:Er. remember (c :: s) as s' eqn:Es.
  revert c s Es.
  induction H as [| p0 c0 Hc0 | ra rb sa sb Ha _ Hb _ | ra rb sa Ha _
                  | ra rb sa Ha _ | r0 | r0 s1 s2 H1 _ H2 IH2];
    intros c s Es; try discriminate.
  injection Er as ->. destruct s1 as [| c1 s1].
  - cbn in Es. apply (IH2 eq_refl c s Es).
  - cbn in Es. injection Es as -> <-. exists s1, s2. auto.
Qed.

Lemma deriv_spec (c : ascii) (r : regex) (s : list ascii) :
  lang (deriv c r) s <-> lang r (c :: s).
Proof.
  revert s. induction r as [| | p | r1 IH1 r2 IH2 | r1 IH1 r2 IH2 | r IH];
    intros s; cbn [deriv].
  - rewrite !lang_void_iff. tauto.
  - rewrite lang_void_iff, lang_eps_iff. split; [contradiction | discriminate].
  - rewrite lang_class_iff. destruct (p c) eqn:E.
    + rewrite lang_eps_iff. split.
      * intros ->. exists c. auto.
      * intros (c' & [= -> ->] & _). reflexivity.
    + rewrite lang_void_iff. split; [contradiction |].
      intros (c' & [= -> ->] & H). congruence.
  - assert (Hcat : lang (Cat (deriv c r1) r2) s
                   <-> exists s1 s2, s = s1 ++ s2 /\ lang r1 (c :: s1) /\ lang r2 s2).
    { rewrite lang_cat_iff. split; intros (s1 & s2 & E & H1 & H2);
        exists s1, s2; (split; [exact E |]); (split; [apply IH1; exact H1 | exact H2]). }
    rewrite (lang_cat_iff r1 r2).
    destruct (nullable r1) eqn:N.
    + rewrite lang_alt_iff, Hcat, IH2. apply nullable_spec in N. split.
      * intros [(s1 & s2 & -> & H1 & H2) | H2].
        -- exists (c :: s1), s2. auto.
        -- exists [], (c :: s). auto.
      * intros (s1 & s2 & E & H1 & H2). destruct s1 as [| c1 s1].
        -- cbn in E. subst s2. right. exact H2.
        -- cbn in E. injection E as -> ->. left. exists s1, s2. auto.
    + rewrite Hcat. split.
      * intros (s1 & s2 & -> & H1 & H2). exists (c :: s1), s2. auto.
      * intros (s1 & s2 & E & H1 & H2). destruct s1 as [| c1 s1].
        -- apply nullable_spec in H1. congruence.
        -- cbn in E. injection E as -> ->. exists s1, s2. auto.
  - rewrite !lang_alt_iff, IH1, IH2. tauto.
  - rewrite lang_cat_iff. split.
    + intros (s1 & s2 & -> & H1 & H2). apply IH in H1.
      apply (lang_star_cons r (c :: s1) s2 H1 H2).
    + intros H. apply lang_star_cons_inv in H as (s1 & s2 & -> & H1 & H2).
      exists s1, s2. split; [reflexivity |]. split; [apply IH; exact H1 | exact H2].
Qed.

(** The matcher decides membership in the language. *)
Lemma matches_spec (r : regex) (s : list ascii) : matches r s = true <-> lang r s.
Proof.
  revert r. induction s as [| c s IH]; intros r; cbn [matches].
  - apply nullable_spec.
  - rewrite IH. apply deriv_spec.
Qed.

Lemma matches_prefix_spec (r : regex) (s : list ascii) :
  matches_prefix r s = true <-> exists s1 s2, s = s1 ++ s2 /\ lang r s1.
Proof.
  revert r. induction s as [| c s IH]; intros r; cbn [matches_prefix].
  - rewrite orb_false_r, nullable_spec. split.
    + intros H. exists [], []. auto.
    + intros (s1 & s2 & E & H). symmetry in E. apply app_eq_nil in E as [-> _]. exact H.
  - rewrite orb_true_iff, nullable_spec, IH. split.
    + intros [H | (s1 & s2 & -> & H)].
      * exists [], (c :: s). auto.
      * exists (c :: s1), s2. split; [reflexivity |]. apply deriv_spec. exact H.
    + intros (s1 & s2 & E & H). destruct s1 as [| c1 s1].
      * left. exact H.
      * cbn in E. injection E as -> ->. right. exists s1, s2.
        split; [reflexivity |]. apply deriv_spec. exact H.
Qed.

(** *** Repetitions of a character class *)

Lemma lang_rep_class (n : nat) (p : ascii -> bool) (s : list ascii) :
  lang (rep n (Class p)) s <-> length s = n /\ all_in p s.
Proof.
  revert s. induction n as [| n IH]; intros s; cbn [rep].
  - rewrite lang_eps_iff. split.
    + intros ->. split; [reflexivity | constructor].
    + intros [H _]. destruct s; [reflexivity | discriminate H].
  - rewrite lang_cat_iff. split.
    + intros (s1 & s2 & -> & H1 & H2). apply lang_class_iff in H1 as (c & -> & Hc).
      apply IH in H2 as [Hl Ha]. cbn. split; [congruence |]. constructor; assumption.
    + intros [Hl Ha]. destruct s as [| c s]; [discriminate Hl |].
      inversion Ha; subst. exists [c], s. split; [reflexivity |].
      split; [constructor; assumption |]. apply IH. cbn in Hl. split; [congruence | assumption].
Qed.

Lemma lang_rep_upto_class (n : nat) (p : ascii -> bool) (s : list ascii) :
  lang (rep_upto n (Class p)) s <-> (length s <= n)%nat /\ all_in p s.
Proof.
  revert s. induction n as [| n IH]; intros s; cbn [rep_upto].
  - rewrite lang_eps_iff. split.
    + intros ->. split; [reflexivity | constructor].
    + intros [H _]. destruct s; [reflexivity | cbn in H; lia].
  - unfold opt. rewrite lang_alt_iff, lang_cat_iff, lang_eps_iff. split.
    + intros [(s1 & s2 & -> & H1 & H2) | ->].
      * apply lang_class_iff in H1 as (c & -> & Hc). apply IH in H2 as [Hl Ha].
        cbn. split; [lia |]. constructor; assumption.
      * split; [cbn; lia | constructor].
    + intros [Hl Ha]. destruct s as [| c s]; [right; reflexivity |].
      left. inversion Ha; subst. exists [c], s. split; [reflexivity |].
      split; [constructor; assumption |]. apply IH. cbn in Hl. split; [lia | assumption].
Qed.

Lemma all_in_app (p : ascii -> bool) (s1 s2 : list ascii) :
  all_in p (s1 ++ s2) <-> all_in p s1 /\ all_in p s2.
Proof. apply Forall_app. Qed.

Lemma lang_rep_range_class (m n : nat) (p : ascii -> bool) (s : list ascii) :
  (m <= n)%nat ->
  lang (rep_range m n (Class p)) s <-> (m <= length s <= n)%nat /\ all_in p s.
Proof.
  intros Hmn. unfold rep_range. rewrite lang_cat_iff. split.
  - intros (s1 & s2 & -> & H1 & H2). apply lang_rep_class in H1 as [L1 A1].
    apply lang_rep_upto_class in H2 as [L2 A2]. rewrite length_app.
    split; [lia |]. apply all_in_app. auto.
  - intros [Hl Ha]. exists (take m s), (drop m s).
    rewrite take_drop. split; [reflexivity |].
    rewrite <- (take_drop m s) in Ha. apply all_in_app in Ha as [A1 A2]. split.
    + apply lang_rep_class. split; [rewrite length_take; lia | exact A1].
    + apply lang_rep_upto_class. split; [rewrite length_drop; lia | exact A2].
Qed.

Lemma lang_star_class (p : ascii -> bool) (s : list ascii) :
  lang (Star (Class p)) s <-> all_in p s.
Proof.
  split.
  - intros H. remember (Star (Class p)) as r eqn:Er.
    induction H as [| p0 c0 Hc0 | ra rb sa sb Ha _ Hb _ | ra rb sa Ha _
                    | ra rb sa Ha _ | r0 | r0 s1 s2 H1 _ H2 IH2]; try discriminate.
    + constructor.
    + injection Er as ->. apply lang_class_iff in H1 as (c & -> & Hc).
      constructor; [exact Hc | apply IH2; reflexivity].
  - intros H. induction H as [| c s Hc _ IH]; [constructor |].
    apply (lang_star_cons (Class p) [c] s); [constructor; exact Hc | exact IH].
Qed.

Lemma lang_rep_from_class (m : nat) (p : ascii -> bool) (s : list ascii) :
  lang (rep_from m (Class p)) s <-> (m <= length s)%nat /\ all_in p s.
Proof.
  unfold rep_from. rewrite lang_cat_iff. split.
  - intros (s1 & s2 & -> & H1 & H2). apply lang_rep_class in H1 as [L1 A1].
    apply lang_star_class in H2. rewrite length_app.
    split; [lia |]. apply all_in_app. auto.
  - intros [Hl Ha]. exists (take m s), (drop m s).
    rewrite take_drop. split; [reflexivity |].
    rewrite <- (take_drop m s) in Ha. apply all_in_app in Ha as [A1 A2]. split.
    + apply lang_rep_class. split; [rewrite length_take; lia | exact A1].
    + apply lang_star_class. exact A2.
Qed.

Lemma lang_plus_class (p : ascii -> bool) (s : list ascii) :
  lang (plus (Class p)) s <-> (1 <= length s)%nat /\ all_in p s.
Proof.
  unfold plus. rewrite lang_cat_iff. split.
  - intros (s1 & s2 & -> & H1 & H2). apply lang_class_iff in H1 as (c & -> & Hc).
    apply lang_star_class in H2. cbn. split; [lia |]. constructor; assumption.
  - intros [Hl Ha]. destruct s as [| c s]; [cbn in Hl; lia |].
    inversion Ha; subst. exists [c], s. split; [reflexivity |].
    split; [constructor; assumption | apply lang_star_class; assumption].
Qed.

Lemma lang_chr_iff (c : ascii) (s : list ascii) : lang (chr c) s <-> s = [c].
Proof.
  unfold chr. rewrite lang_class_iff. split.
  - intros (c' & -> & H). apply Ascii.eqb_eq in H. subst. reflexivity.
  - intros ->. exists c. split; [reflexivity | apply Ascii.eqb_refl].
Qed.

Lemma lang_opt_iff (r : regex) (s : list ascii) :
  lang (opt r) s <-> lang r s \/ s = [].
Proof. unfold opt. rewrite lang_alt_iff, lang_eps_iff. reflexivity. Qed.

Lemma lang_str_iff (t : string) (s : list ascii) :
  lang (str t) s <-> s = list_ascii_of_string t.
Proof.
  revert s. induction t as [| c t IH]; intros s; cbn [str list_ascii_of_string].
  - apply lang_eps_iff.
  - rewrite lang_cat_iff. split.
    + intros (s1 & s2 & -> & H1 & H2). apply lang_chr_iff in H1. apply IH in H2.
      subst. reflexivity.
    + intros ->. exists [c], (list_ascii_of_string t).
      split; [reflexivity |]. split; [apply lang_chr_iff | apply IH]; reflexivity.
Qed.
End RegexFacts.

Module DetectFacts.
Import PyStr PyStrFacts Regex RegexFacts Detect.

Lemma chars_append (a b : string) : chars (a ++ b)%string = chars a ++ chars b.
Proof.
  unfold chars. induction a as [| c a IH]; [reflexivity |].
  rewrite append_cons. cbn [list_ascii_of_string]. rewrite IH. reflexivity.
Qed.

Lemma chars_inj (a b : string) : chars a = chars b -> a = b.
Proof.
  unfold chars. intros H.
  rewrite <- (string_of_list_ascii_of_string a), <- (string_of_list_ascii_of_string b), H.
  reflexivity.
Qed.

Lemma chars_of_list (l : list ascii) : chars (string_of_list_ascii l) = l.
Proof. apply list_ascii_of_string_of_list_ascii. Qed.

(** A pattern ending with [$] matches the strings of its body, possibly
    followed by a newline. *)
Lemma re_match_dollar (p : pattern) (s : string) :
  dollar p = true ->
  re_match p s = true <->
  exists w, lang (body p) w /\ (chars s = w \/ chars s = w ++ [newline]).
Proof.
  intros Hd. unfold re_match. rewrite Hd. fold (chars s).
  rewrite matches_spec, lang_cat_iff. split.
  - intros (w & e & E & Hw & He). exists w. split; [exact Hw |].
    apply lang_opt_iff in He as [He | ->].
    + apply lang_chr_iff in He. subst e. right. exact E.
    + rewrite app_nil_r in E. left. exact E.
  - intros (w & Hw & [E | E]).
    + exists w, []. rewrite app_nil_r. split; [exact E |].
      split; [exact Hw |]. apply lang_opt_iff. right. reflexivity.
    + exists w, [newline]. split; [exact E |]. split; [exact Hw |].
      apply lang_opt_iff. left. apply lang_chr_iff. reflexivity.
Qed.

(** *** The languages of the seven patterns *)

Lemma lang_octet (o : list ascii) :
  lang (rep_range 1 3 (Class digit)) o <-> octet_chars o.
Proof. apply lang_rep_range_class. lia. Qed.

Lemma lang_ip (w : list ascii) :
  lang (body ip_pattern) w <->
  exists o1 o2 o3 o4,
    w = o1 ++ "."%char :: o2 ++ "."%char :: o3 ++ "."%char :: o4
    /\ octet_chars o1 /\ octet_chars o2 /\ octet_chars o3 /\ octet_chars o4.
Proof.
  cbn [body ip_pattern rep]. split.
  - intros H. apply lang_cat_iff in H as (w123 & o4 & -> & H123 & H4).
    apply lang_cat_iff in H123 as (w1 & w23 & -> & H1 & H23).
    apply lang_cat_iff in H23 as (w2 & w3 & -> & H2 & H3).
    apply lang_cat_iff in H3 as (w3' & e & -> & H3 & He).
    apply lang_eps_iff in He. subst e.
    apply lang_cat_iff in H1 as (o1 & d1 & -> & H1 & Hd1).
    apply lang_cat_iff in H2 as (o2 & d2 & -> & H2 & Hd2).
    apply lang_cat_iff in H3 as (o3 & d3 & -> & H3 & Hd3).
    apply lang_chr_iff in Hd1, Hd2, Hd3. subst d1 d2 d3.
    apply lang_octet in H1, H2, H3, H4.
    exists o1, o2, o3, o4. split; [| tauto].
    rewrite app_nil_r, <- !app_assoc. cbn [app]. reflexivity.
  - intros (o1 & o2 & o3 & o4 & -> & H1 & H2 & H3 & H4).
    apply lang_octet in H1, H2, H3, H4.
    replace (o1 ++ "."%char :: o2 ++ "."%char :: o3 ++ "."%char :: o4)
      with (((o1 ++ ["."%char]) ++ (o2 ++ ["."%char]) ++ (o3 ++ ["."%char]) ++ []) ++ o4)
      by (rewrite app_nil_r, <- !app_assoc; reflexivity).
    repeat (first [apply lang_cat | apply lang_eps | apply lang_chr_iff; reflexivity
                  | assumption]).
Qed.

Lemma lang_hash (n : nat) (w : list ascii) :
  lang (body (hash_pattern n)) w <-> length w = n /\ all_in hex w.
Proof. apply lang_rep_class. Qed.

Lemma lang_tld (t : list ascii) :
  lang (rep_from 2 (Class alpha)) t <-> tld_chars t.
Proof. apply lang_rep_from_class. Qed.

Lemma lang_domain (w : list ascii) :
  lang (body domain_pattern) w <->
  exists (a : ascii) (middle final t : list ascii),
    w = (a :: middle ++ final) ++ "."%char :: t
    /\ alnum a = true
    /\ (length middle <= 61)%nat /\ all_in alnum_dash middle
    /\ (length final <= 1)%nat /\ all_in alnum final
    /\ tld_chars t.
Proof.
  cbn [body domain_pattern]. split.
  - intros H. apply lang_cat_iff in H as (wa & w1 & -> & Ha & H).
    apply lang_cat_iff in H as (middle & w2 & -> & Hm & H).
    apply lang_cat_iff in H as (final & w3 & -> & Hf & H).
    apply lang_cat_iff in H as (d & t & -> & Hd & Ht).
    apply lang_class_iff in Ha as (a & -> & Ha).
    apply lang_rep_range_class in Hm as [Lm Am]; [| lia].
    apply lang_chr_iff in Hd. subst d. apply lang_tld in Ht.
    exists a, middle, final, t. split; [cbn; rewrite <- !app_assoc; reflexivity |].
    split; [exact Ha |]. split; [lia |]. split; [exact Am |].
    apply lang_opt_iff in Hf as [Hf | ->].
    + apply lang_class_iff in Hf as (c & -> & Hc).
      split; [cbn; lia |]. split; [repeat constructor; exact Hc | exact Ht].
    + split; [cbn; lia |]. split; [constructor | exact Ht].
  - intros (a & middle & final & t & -> & Ha & Lm & Am & Lf & Af & Ht).
    replace ((a :: middle ++ final) ++ "."%char :: t)
      with ([a] ++ middle ++ final ++ ["."%char] ++ t)
      by (cbn; rewrite <- !app_assoc; reflexivity).
    apply lang_cat; [constructor; exact Ha |].
    apply lang_cat; [apply lang_rep_range_class; [lia | split; [lia | exact Am]] |].
    apply lang_cat.
    + apply lang_opt_iff. destruct final as [| c [| c' final]].
      * right. reflexivity.
      * left. inversion Af; subst. constructor. assumption.
      * cbn in Lf. lia.
    + apply lang_cat; [apply lang_chr_iff; reflexivity | apply lang_tld; exact Ht].
Qed.

Lemma lang_email (w : list ascii) :
  lang (body email_pattern) w <->
  exists local host t : list ascii,
    w = local ++ "@"%char :: host ++ "."%char :: t
    /\ (1 <= length local)%nat /\ all_in email_local local
    /\ (1 <= length host)%nat /\ all_in email_host host
    /\ tld_chars t.
Proof.
  cbn [body email_pattern]. split.
  - intros H. apply lang_cat_iff in H as (local & w1 & -> & Hl & H).
    apply lang_cat_iff in H as (at_ & w2 & -> & Hat & H).
    apply lang_cat_iff in H as (host & w3 & -> & Hh & H).
    apply lang_cat_iff in H as (d & t & -> & Hd & Ht).
    apply lang_plus_class in Hl as [Ll Al]. apply lang_plus_class in Hh as [Lh Ah].
    apply lang_chr_iff in Hat, Hd. subst at_ d. apply lang_tld in Ht.
    exists local, host, t. cbn [app]. tauto.
  - intros (local & host & t & -> & Ll & Al & Lh & Ah & Ht).
    replace (local ++ "@"%char :: host ++ "."%char :: t)
      with (local ++ ["@"%char] ++ host ++ ["."%char] ++ t) by reflexivity.
    apply lang_cat; [apply lang_plus_class; tauto |].
    apply lang_cat; [apply lang_chr_iff; reflexivity |].
    apply lang_cat; [apply lang_plus_class; tauto |].
    apply lang_cat; [apply lang_chr_iff; reflexivity | apply lang_tld; exact Ht].
Qed.

Lemma lang_url (w : list ascii) :
  lang (body url_pattern) w <-> w = chars "http://" \/ w = chars "https://".
Proof.
  cbn [body url_pattern]. rewrite lang_cat_iff. split.
  - intros (w1 & w2 & -> & H1 & H2). apply lang_str_iff in H1. subst w1.
    apply lang_cat_iff in H2 as (o & w3 & -> & Ho & H3).
    apply lang_str_iff in H3. subst w3.
    apply lang_opt_iff in Ho as [Ho | ->].
    + apply lang_chr_iff in Ho. subst o. right. reflexivity.
    + left. reflexivity.
  - intros [-> | ->].
    + exists (chars "http"), (chars "://"). split; [reflexivity |].
      split; [apply lang_str_iff; reflexivity |].
      apply (lang_cat _ _ [] (chars "://")).
      * apply lang_opt_iff. right. reflexivity.
      * apply lang_str_iff. reflexivity.
    + exists (chars "http"), (chars "s://"). split; [reflexivity |].
      split; [apply lang_str_iff; reflexivity |].
      apply (lang_cat _ _ ["s"%char] (chars "://")).
      * apply lang_opt_iff. left. apply lang_chr_iff. reflexivity.
      * apply lang_str_iff. reflexivity.
Qed.

(** *** At most one pattern matches *)

Ltac by_chars :=
  let c := fresh "c" in
  intros c; destruct c as [[] [] [] [] [] [] [] []]; vm_compute; congruence.

Lemma digit_not_alpha : forall c, digit c = true -> alpha c = false.
Proof. by_chars. Qed.

Lemma all_in_impl (p q : ascii -> bool) (w : list ascii) :
  (forall c, p c = true -> q c = true) -> all_in p w -> all_in q w.
Proof. intros H Ha. eapply Forall_impl; [exact Ha | exact H]. Qed.

Lemma all_in_elem (p : ascii -> bool) (w : list ascii) (c : ascii) :
  all_in p w -> c ∈ w -> p c = true.
Proof. unfold all_in. rewrite Forall_forall. auto. Qed.

Lemma all_in_cons (p : ascii -> bool) (c : ascii) (w : list ascii) :
  all_in p (c :: w) <-> p c = true /\ all_in p w.
Proof. unfold all_in. rewrite Forall_cons. reflexivity. Qed.

Lemma all_in_nil (p : ascii -> bool) : all_in p [].
Proof. apply Forall_nil_2. Qed.

Lemma last_is_app (p : ascii -> bool) (w1 w2 : list ascii) :
  last_is p w2 -> last_is p (w1 ++ w2).
Proof.
  intros (c & Hl & Hc). exists c. split; [| exact Hc].
  destruct w2 as [| d w2] using rev_ind; [discriminate Hl |].
  rewrite app_assoc. rewrite last_snoc in *. exact Hl.
Qed.

Lemma last_is_cons (p : ascii -> bool) (c : ascii) (w : list ascii) :
  last_is p w -> last_is p (c :: w).
Proof. apply (last_is_app p [c]). Qed.

Lemma last_is_all (p : ascii -> bool) (w : list ascii) :
  w <> [] -> all_in p w -> last_is p w.
Proof.
  intros Hne Ha. destruct w as [| c w] using rev_ind; [contradiction |].
  exists c. rewrite last_snoc. split; [reflexivity |].
  apply all_in_app in Ha as [_ Ha]. inversion Ha; assumption.
Qed.

Lemma octet_nonempty (o : list ascii) : octet_chars o -> o <> [].
Proof. intros [[H _] _] ->. cbn in H. lia. Qed.

Lemma tld_nonempty (t : list ascii) : tld_chars t -> t <> [].
Proof. intros [H _] ->. cbn in H. lia. Qed.

Lemma all_in_not_elem (p : ascii -> bool) (w : list ascii) (c : ascii) :
  all_in p w -> p c = false -> c ∉ w.
Proof. intros Ha Hc Hin. rewrite (all_in_elem _ _ _ Ha Hin) in Hc. discriminate. Qed.

Ltac class_step :=
  match goal with
  | |- all_in _ (_ ++ _) => apply all_in_app; split
  | |- all_in _ (_ :: _) => apply all_in_cons; split
  | |- all_in _ [] => apply all_in_nil
  | H : all_in ?p ?w |- all_in ?q ?w => apply (all_in_impl p q w); [by_chars | exact H]
  | H : ?p ?c = true |- ?q ?c = true => revert H; generalize c; by_chars
  | |- _ = true => reflexivity
  end.

Lemma ip_features (w : list ascii) :
  lang (body ip_pattern) w ->
  all_in plain w /\ (dot ∈ w) /\ (at_sign ∉ w) /\ last_is digit w.
Proof.
  intros H. apply lang_ip in H
    as (o1 & o2 & o3 & o4 & -> & [L1 A1] & [L2 A2] & [L3 A3] & [L4 A4]).
  split; [repeat class_step |]. split; [| split].
  - apply elem_of_app. right. left.
  - apply (all_in_not_elem not_at); [repeat class_step | reflexivity].
  - repeat (apply last_is_app || apply last_is_cons).
    apply last_is_all; [apply octet_nonempty; split; assumption | exact A4].
Qed.

Lemma domain_features (w : list ascii) :
  lang (body domain_pattern) w ->
  all_in plain w /\ (dot ∈ w) /\ (at_sign ∉ w) /\ last_is alpha w.
Proof.
  intros H. apply lang_domain in H
    as (a & middle & final & t & -> & Ha & Lm & Am & Lf & Af & [Lt At]).
  split; [cbn [app]; repeat class_step |]. split; [| split].
  - apply elem_of_app. right. left.
  - apply (all_in_not_elem not_at); [cbn [app]; repeat class_step | reflexivity].
  - apply last_is_app, last_is_cons.
    apply last_is_all; [apply tld_nonempty; split; assumption | exact At].
Qed.

Lemma hash_features (n : nat) (w : list ascii) :
  lang (body (hash_pattern n)) w ->
  all_in plain w /\ (dot ∉ w) /\ (at_sign ∉ w) /\ length w = n.
Proof.
  intros H. apply lang_hash in H as [L A].
  split; [class_step |]. split; [| split; [| exact L]].
  - apply (all_in_not_elem not_dot); [class_step | reflexivity].
  - apply (all_in_not_elem not_at); [class_step | reflexivity].
Qed.

Lemma email_features (w : list ascii) :
  lang (body email_pattern) w -> all_in plain w /\ (at_sign ∈ w).
Proof.
  intros H. apply lang_email in H
    as (local & host & t & -> & Ll & Al & Lh & Ah & [Lt At]).
  split; [repeat class_step |]. apply elem_of_app. right. left.
Qed.

Lemma last_digit_alpha (w : list ascii) : last_is digit w -> last_is alpha w -> False.
Proof.
  intros (c & Hc & Hd) (c' & Hc' & Ha). rewrite Hc in Hc'. injection Hc' as <-.
  rewrite (digit_not_alpha _ Hd) in Ha. discriminate Ha.
Qed.

(** A string has at most one decomposition into plain characters and an
    optional final newline. *)
Lemma core_unique (l w1 w2 : list ascii) :
  all_in plain w1 -> all_in plain w2 ->
  l = w1 \/ l = w1 ++ [newline] -> l = w2 \/ l = w2 ++ [newline] -> w1 = w2.
Proof.
  assert (Hnl : forall w w', all_in plain w -> w = w' ++ [newline] -> False).
  { intros w w' P ->. apply all_in_app in P as [_ P].
    apply all_in_cons in P as [P _]. discriminate P. }
  intros P1 P2 [E1 | E1] [E2 | E2]; rewrite E1 in E2.
  - exact E2.
  - destruct (Hnl _ _ P1 E2).
  - symmetry in E2. destruct (Hnl _ _ P2 E2).
  - apply app_inj_tail in E2 as [E2 _]. exact E2.
Qed.

Lemma core_elem (l w : list ascii) (c : ascii) :
  all_in plain w -> l = w \/ l = w ++ [newline] -> c ∈ l -> plain c = true \/ c = newline.
Proof.
  intros P [-> | ->] Hin.
  - left. exact (all_in_elem _ _ _ P Hin).
  - apply elem_of_app in Hin as [Hin | Hin].
    + left. exact (all_in_elem _ _ _ P Hin).
    + right. apply list_elem_of_singleton in Hin. exact Hin.
Qed.

Ltac in_table H :=
  unfold IOC_PATTERNS in H;
  repeat (apply elem_of_cons in H as [H | H]; [inversion H; subst; clear H |]);
  [.. | apply elem_of_nil in H; destruct H].

Ltac feat L :=
  first [ apply ip_features in L as (?P & ?Hd & ?Ha & ?Hl)
        | apply domain_features in L as (?P & ?Hd & ?Ha & ?Hl)
        | apply hash_features in L as (?P & ?Hd & ?Ha & ?Hn)
        | apply email_features in L as (?P & ?Ha) ].

Ltac clash :=
  match goal with
  | H1 : ?c ∈ ?w, H2 : ?c ∉ ?w |- _ => destruct (H2 H1)
  | H1 : length ?w = _, H2 : length ?w = _ |- _ => rewrite H1 in H2; discriminate H2
  | H1 : last_is digit ?w, H2 : last_is alpha ?w |- _ =>
      destruct (last_digit_alpha _ H1 H2)
  end.

(** What a match of a pattern ending with [$] matched. *)
Lemma dollar_core (t : string) (p : pattern) (s : string) :
  (t, p) ∈ IOC_PATTERNS -> dollar p = true -> re_match p s = true ->
  exists w, lang (body p) w /\ all_in plain w
            /\ (chars s = w \/ chars s = w ++ [newline]).
Proof.
  intros Hin Hd M. apply (re_match_dollar p s Hd) in M as (w & L & E).
  exists w. split; [exact L |]. split; [| exact E].
  in_table Hin; try discriminate Hd; pose proof L as L'; feat L'; assumption.
Qed.

Lemma url_match (s : string) :
  re_match url_pattern s = true <->
  startswith s "http://" = true \/ startswith s "https://" = true.
Proof.
  unfold re_match. cbn [dollar url_pattern]. fold url_pattern. fold (chars s).
  rewrite matches_prefix_spec, !startswith_spec. split.
  - intros (w & rest & E & L). apply lang_url in L as [-> | ->]; [left | right];
      exists (string_of_list_ascii rest); apply chars_inj;
      rewrite chars_append, chars_of_list; exact E.
  - intros [[rest ->] | [rest ->]]; rewrite chars_append.
    + exists (chars "http://"), (chars rest). split; [reflexivity |].
      apply lang_url. left. reflexivity.
    + exists (chars "https://"), (chars rest). split; [reflexivity |].
      apply lang_url. right. reflexivity.
Qed.

Lemma url_colon (s : string) : re_match url_pattern s = true -> ":"%char ∈ chars s.
Proof.
  intros M. apply url_match in M. rewrite !startswith_spec in M.
  destruct M as [[rest ->] | [rest ->]]; rewrite chars_append;
    apply elem_of_app; left; apply list_elem_of_In; cbn; tauto.
Qed.

Lemma url_not_dollar (t : string) (p : pattern) (s : string) :
  (t, p) ∈ IOC_PATTERNS -> dollar p = true ->
  re_match url_pattern s = true -> re_match p s = true -> False.
Proof.
  intros Hin Hd Mu M. apply url_colon in Mu.
  destruct (dollar_core t p s Hin Hd M) as (w & _ & P & E).
  destruct (core_elem _ _ _ P E Mu) as [H | H]; discriminate H.
Qed.

(** No string is matched by the patterns of two different types. *)
Lemma patterns_exclusive (s t1 t2 : string) (p1 p2 : pattern) :
  (t1, p1) ∈ IOC_PATTERNS -> (t2, p2) ∈ IOC_PATTERNS ->
  re_match p1 s = true -> re_match p2 s = true -> t1 = t2.
Proof.
  intros H1 H2 M1 M2. pose proof H1 as I1. pose proof H2 as I2.
  in_table H1; in_table H2; try reflexivity; exfalso;
    try (exact (url_not_dollar _ _ _ I2 eq_refl M1 M2));
    try (exact (url_not_dollar _ _ _ I1 eq_refl M2 M1));
    destruct (dollar_core _ _ _ I1 eq_refl M1) as (w1 & L1 & P1 & E1);
    destruct (dollar_core _ _ _ I2 eq_refl M2) as (w2 & L2 & P2 & E2);
    pose proof (core_unique _ _ _ P1 P2 E1 E2) as E; subst w2;
    feat L1; feat L2; clash.
Qed.

Lemma first_match_Some (patterns : list (string * pattern)) (s t : string) :
  first_match patterns s = Some t ->
  exists p, (t, p) ∈ patterns /\ re_match p s = true.
Proof.
  induction patterns as [| [t0 p0] rest IH]; cbn [first_match]; [discriminate |].
  destruct (re_match p0 s) eqn:M.
  - intros [= <-]. exists p0. split; [left | exact M].
  - intros H. destruct (IH H) as (p & Hin & Hp). exists p. split; [right; exact Hin | exact Hp].
Qed.

Lemma first_match_exclusive (patterns : list (string * pattern)) (s t : string)
    (p : pattern) :
  (forall t1 p1 t2 p2, (t1, p1) ∈ patterns -> (t2, p2) ∈ patterns ->
     re_match p1 s = true -> re_match p2 s = true -> t1 = t2) ->
  (t, p) ∈ patterns -> re_match p s = true -> first_match patterns s = Some t.
Proof.
  induction patterns as [| [t0 p0] rest IH]; intros Hx Hin M.
  - apply elem_of_nil in Hin. destruct Hin.
  - cbn [first_match]. destruct (re_match p0 s) eqn:M0.
    + f_equal. apply (Hx t0 p0 t p); [left | exact Hin | exact M0 | exact M].
    + apply IH; [| | exact M].
      * intros t1 p1 t2 p2 I1 I2. apply Hx; right; assumption.
      * apply elem_of_cons in Hin as [[= -> ->] | Hin]; [congruence | exact Hin].
Qed.

Lemma detect_spec (s t : string) :
  detect_ioc_type s = Some t <->
  exists p, (t, p) ∈ IOC_PATTERNS /\ re_match p s = true.
Proof.
  split; [apply first_match_Some |].
  intros (p & Hin & M). apply (first_match_exclusive _ _ _ p); [| exact Hin | exact M].
  intros t1 p1 t2 p2 I1 I2 M1 M2. exact (patterns_exclusive s t1 t2 p1 p2 I1 I2 M1 M2).
Qed.

Lemma detect_key (s t : string) (p : pattern) :
  (t, p) ∈ IOC_PATTERNS ->
  detect_ioc_type s = Some t <-> re_match p s = true.
Proof.
  intros Hin. rewrite detect_spec. split.
  - intros (q & Hq & M). replace p with q; [exact M |].
    in_table Hin; in_table Hq; reflexivity.
  - intros M. exists p. auto.
Qed.

(** *** Strings instead of character lists *)

Lemma line_end_chars (l : list ascii) :
  l = [] \/ l = [newline] <-> line_end (string_of_list_ascii l).
Proof.
  unfold line_end. split.
  - intros [-> | ->]; [left | right]; reflexivity.
  - intros [H | H]; apply (f_equal chars) in H; rewrite chars_of_list in H;
      [left | right]; exact H.
Qed.

Ltac to_chars :=
  repeat first [rewrite chars_append | rewrite chars_of_list];
  change (chars ".") with ["."%char]; change (chars "@") with ["@"%char];
  cbn [app].

(** A pattern ending with [$] matches the strings of its body, possibly
    followed by a newline. *)
Lemma dollar_match (p : pattern) (s : string) :
  dollar p = true ->
  re_match p s = true <->
  exists w e, s = (w ++ e)%string /\ lang (body p) (chars w) /\ line_end e.
Proof.
  intros Hd. rewrite (re_match_dollar p s Hd). split.
  - intros (w & L & [E | E]).
    + exists s, "". split; [| split; [rewrite E; exact L | left; reflexivity]].
      apply chars_inj. to_chars. rewrite app_nil_r. reflexivity.
    + exists (string_of_list_ascii w), (String newline "").
      split; [| split; [rewrite chars_of_list; exact L | right; reflexivity]].
      apply chars_inj. to_chars. exact E.
  - intros (w & e & -> & L & [-> | ->]); exists (chars w); (split; [exact L |]).
    + left. to_chars. rewrite app_nil_r. reflexivity.
    + right. to_chars. reflexivity.
Qed.

Ltac same_chars :=
  apply chars_inj; to_chars;
  repeat match goal with H : chars _ = _ |- _ => rewrite H end;
  repeat (rewrite <- app_assoc || rewrite <- app_comm_cons); reflexivity.

Lemma ip_in_table : ("ip", ip_pattern) ∈ IOC_PATTERNS.
Proof. unfold IOC_PATTERNS. set_solver. Qed.

Lemma domain_in_table : ("domain", domain_pattern) ∈ IOC_PATTERNS.
Proof. unfold IOC_PATTERNS. set_solver. Qed.

Lemma url_in_table : ("url", url_pattern) ∈ IOC_PATTERNS.
Proof. unfold IOC_PATTERNS. set_solver. Qed.

Lemma email_in_table : ("email", email_pattern) ∈ IOC_PATTERNS.
Proof. unfold IOC_PATTERNS. set_solver. Qed.

(** X20. a string is typed [ip] exactly when it consists of four groups
    of one to three decimal digits separated by dots, possibly followed
    by one newline; the value of a group is not checked. *)
Theorem detect_ip_shape (s : string) :
  detect_ioc_type s = Some "ip" <->
  exists o1 o2 o3 o4 e,
    s = (o1 ++ "." ++ o2 ++ "." ++ o3 ++ "." ++ o4 ++ e)%string
    /\ octet o1 /\ octet o2 /\ octet o3 /\ octet o4 /\ line_end e.
Proof.
  rewrite (detect_key s "ip" ip_pattern ip_in_table).
  rewrite (dollar_match ip_pattern s eq_refl). split.
  - intros (w & e & -> & L & He).
    apply lang_ip in L as (o1 & o2 & o3 & o4 & E & H1 & H2 & H3 & H4).
    exists (string_of_list_ascii o1), (string_of_list_ascii o2),
      (string_of_list_ascii o3), (string_of_list_ascii o4), e.
    split; [same_chars |]. unfold octet, octet_chars in *. rewrite !chars_of_list. tauto.
  - intros (o1 & o2 & o3 & o4 & e & -> & H1 & H2 & H3 & H4 & He).
    exists (o1 ++ "." ++ o2 ++ "." ++ o3 ++ "." ++ o4)%string, e.
    split; [same_chars |]. split; [| exact He].
    apply lang_ip. exists (chars o1), (chars o2), (chars o3), (chars o4).
    split; [to_chars; reflexivity | unfold octet, octet_chars in *; tauto].
Qed.

(** X21. a string is typed [domain] exactly when it is one host label
    (a letter or digit, up to 61 letters, digits or hyphens, possibly one
    more letter or digit), a dot and at least two letters, possibly
    followed by one newline. *)
Theorem detect_domain_shape (s : string) :
  detect_ioc_type s = Some "domain" <->
  exists l t e,
    s = (l ++ "." ++ t ++ e)%string /\ host_label l /\ tld t /\ line_end e.
Proof.
  rewrite (detect_key s "domain" domain_pattern domain_in_table).
  rewrite (dollar_match domain_pattern s eq_refl). split.
  - intros (w & e & -> & L & He).
    apply lang_domain in L as (a & middle & final & t & E & Ha & Lm & Am & Lf & Af & Ht).
    exists (string_of_list_ascii (a :: middle ++ final)), (string_of_list_ascii t), e.
    split; [same_chars |]. split; [| split; [| exact He]].
    + exists a, middle, final. rewrite chars_of_list. tauto.
    + unfold tld. rewrite chars_of_list. exact Ht.
  - intros (l & t & e & -> & (a & middle & final & El & Ha & Lm & Am & Lf & Af) & Ht & He).
    exists (l ++ "." ++ t)%string, e.
    split; [same_chars |]. split; [| exact He].
    apply lang_domain. exists a, middle, final, (chars t).
    split; [to_chars; rewrite El; reflexivity | unfold tld, tld_chars in *; tauto].
Qed.

(** X22. a string is typed [url] exactly when it starts with [http://]
    or [https://], whatever follows. *)
Theorem detect_url_prefix (s : string) :
  detect_ioc_type s = Some "url" <->
  startswith s "http://" = true \/ startswith s "https://" = true.
Proof.
  rewrite (detect_key s "url" url_pattern url_in_table). apply url_match.
Qed.

(** X23. a string is typed [email] exactly when it is a non-empty local
    part, an at sign, a non-empty host part, a dot and at least two
    letters, possibly followed by one newline. *)
Theorem detect_email_shape (s : string) :
  detect_ioc_type s = Some "email" <->
  exists local host t e,
    s = (local ++ "@" ++ host ++ "." ++ t ++ e)%string
    /\ some_of email_local local /\ some_of email_host host /\ tld t /\ line_end e.
Proof.
  rewrite (detect_key s "email" email_pattern email_in_table).
  rewrite (dollar_match email_pattern s eq_refl). split.
  - intros (w & e & -> & L & He).
    apply lang_email in L as (local & host & t & E & Ll & Al & Lh & Ah & Ht).
    exists (string_of_list_ascii local), (string_of_list_ascii host),
      (string_of_list_ascii t), e.
    split; [same_chars |]. unfold some_of, tld, tld_chars in *. rewrite !chars_of_list. tauto.
  - intros (local & host & t & e & -> & [Ll Al] & [Lh Ah] & Ht & He).
    exists (local ++ "@" ++ host ++ "." ++ t)%string, e.
    split; [same_chars |]. split; [| exact He].
    apply lang_email. exists (chars local), (chars host), (chars t).
    split; [to_chars; reflexivity | unfold tld, tld_chars in *; tauto].
Qed.

(** X24. the seven patterns exclude one another, so the type found does
    not depend on the order in which the table is traversed. *)
Theorem detect_order_independent (patterns : list (string * pattern)) (s : string) :
  patterns ≡ₚ IOC_PATTERNS -> first_match patterns s = detect_ioc_type s.
Proof.
  intros Hp.
  assert (Hx : forall t p, (t, p) ∈ patterns -> re_match p s = true ->
                 first_match patterns s = Some t).
  { intros t p Hin M. apply (first_match_exclusive _ _ _ p); [| exact Hin | exact M].
    intros t1 p1 t2 p2 I1 I2. rewrite Hp in I1, I2. apply patterns_exclusive; assumption. }
  destruct (detect_ioc_type s) as [t |] eqn:D.
  - apply detect_spec in D as (p & Hin & M). rewrite <- Hp in Hin. exact (Hx t p Hin M).
  - destruct (first_match patterns s) as [t |] eqn:F; [| reflexivity].
    apply first_match_Some in F as (p & Hin & M). rewrite Hp in Hin.
    rewrite <- D. symmetry. apply detect_spec. exists p. auto.
Qed.

Lemma detect_order_independent_witness :
  first_match (reverse IOC_PATTERNS) "example.com" = detect_ioc_type "example.com".
Proof. apply detect_order_independent. apply reverse_Permutation. Defined.

Lemma hex_string_match (t : string) (p : pattern) (h e : string) :
  all_in hex (chars h) -> line_end e ->
  (t, p) ∈ IOC_PATTERNS -> re_match p (h ++ e) = true ->
  hash_type_of_length (length (chars h)) = Some t.
Proof.
  intros Hh He Hin M.
  assert (P : all_in plain (chars h)) by class_step.
  assert (E : chars (h ++ e) = chars h \/ chars (h ++ e) = chars h ++ [newline]).
  { rewrite chars_append. destruct He as [-> | ->]; [left; apply app_nil_r | right; reflexivity]. }
  assert (Hdot : dot ∉ chars h)
    by (apply (all_in_not_elem not_dot); [class_step | reflexivity]).
  assert (Hat : at_sign ∉ chars h)
    by (apply (all_in_not_elem not_at); [class_step | reflexivity]).
  destruct (dollar p) eqn:Hd.
  - destruct (dollar_core t p _ Hin Hd M) as (w & L & Pw & Ew).
    pose proof (core_unique _ _ _ Pw P Ew E) as ->.
    in_table Hin; try discriminate Hd; feat L; try clash;
      match goal with H : length _ = _ |- _ => rewrite H end; reflexivity.
  - in_table Hin; try discriminate Hd. apply url_colon in M.
    destruct (core_elem _ _ _ P E M) as [H | H]; discriminate H.
Qed.

(** X25. a string of hexadecimal digits, possibly followed by one
    newline, is typed by its length alone: 32, 40 and 64 digits give
    [hash_md5], [hash_sha1] and [hash_sha256], any other length gives no
    type at all. *)
Theorem detect_hex_by_length (h e : string) :
  all_in hex (chars h) -> line_end e ->
  detect_ioc_type (h ++ e) = hash_type_of_length (length (chars h)).
Proof.
  intros Hh He. destruct (detect_ioc_type (h ++ e)) as [t |] eqn:D.
  - apply detect_spec in D as (p & Hin & M). symmetry.
    exact (hex_string_match t p h e Hh He Hin M).
  - destruct (hash_type_of_length (length (chars h))) as [t |] eqn:T; [| reflexivity].
    rewrite <- D.
    assert (Hn : exists n, (t, hash_pattern n) ∈ IOC_PATTERNS /\ length (chars h) = n).
    { revert T. unfold hash_type_of_length, IOC_PATTERNS.
      destruct (Nat.eqb_spec (length (chars h)) 32) as [-> | _];
        [intros [= <-]; exists 32%nat; split; [set_solver | reflexivity] |].
      destruct (Nat.eqb_spec (length (chars h)) 40) as [-> | _];
        [intros [= <-]; exists 40%nat; split; [set_solver | reflexivity] |].
      destruct (Nat.eqb_spec (length (chars h)) 64) as [-> | _];
        [intros [= <-]; exists 64%nat; split; [set_solver | reflexivity] |].
      discriminate. }
    destruct Hn as (n & Hin & Hn).
    apply (detect_key _ t (hash_pattern n) Hin).
    apply (dollar_match (hash_pattern n) _ eq_refl). exists h, e.
    split; [reflexivity |]. split; [| exact He]. apply lang_hash. auto.
Qed.

Lemma detect_hex_by_length_witness :
  detect_ioc_type ("d41d8cd98f00b204e9800998ecf8427e" ++ "")
  = hash_type_of_length (length (chars "d41d8cd98f00b204e9800998ecf8427e")).
Proof.
  apply detect_hex_by_length.
  - repeat (apply Forall_cons; split; [reflexivity |]). apply Forall_nil_2.
  - left. reflexivity.
Defined.

Lemma first_match_ext (patterns : list (string * pattern)) (s s' : string) :
  (forall t p, (t, p) ∈ patterns -> re_match p s = re_match p s') ->
  first_match patterns s = first_match patterns s'.
Proof.
  induction patterns as [| [t p] rest IH]; intros H; [reflexivity |].
  cbn [first_match]. rewrite (H t p) by left. rewrite IH; [reflexivity |].
  intros t' p' Hin. apply (H t' p'). right. exact Hin.
Qed.

Lemma dollar_newline (t : string) (p : pattern) (s : string) :
  (t, p) ∈ IOC_PATTERNS -> dollar p = true -> last (chars s) <> Some newline ->
  re_match p (s ++ String newline "") = re_match p s.
Proof.
  intros Hin Hd Hl. apply Bool.eq_true_iff_eq. split; intros M.
  - destruct (dollar_core t p _ Hin Hd M) as (w & L & P & E).
    rewrite chars_append in E. change (chars (String newline "")) with [newline] in E.
    apply (re_match_dollar p s Hd). exists w. split; [exact L |]. left.
    destruct E as [E | E].
    + subst w. apply all_in_app in P as [_ P]. apply all_in_cons in P as [P _].
      discriminate P.
    + apply app_inj_tail in E as [E _]. exact E.
  - apply (re_match_dollar p s Hd) in M as (w & L & [E | E]).
    + apply (re_match_dollar p _ Hd). exists w. split; [exact L |]. right.
      rewrite chars_append, E. reflexivity.
    + rewrite E, last_snoc in Hl. congruence.
Qed.

Lemma startswith_newline (s pre : string) :
  last (chars pre) <> Some newline ->
  startswith (s ++ String newline "") pre = startswith s pre.
Proof.
  intros Hl. apply Bool.eq_true_iff_eq. rewrite !startswith_spec. split.
  - intros [rest E]. apply (f_equal chars) in E. rewrite !chars_append in E.
    change (chars (String newline "")) with [newline] in E.
    destruct (chars rest) as [| x r] eqn:Er using rev_ind.
    + rewrite app_nil_r in E. rewrite <- E, last_snoc in Hl. congruence.
    + clear IHr. rewrite app_assoc in E. apply app_inj_tail in E as [E _].
      exists (string_of_list_ascii r). apply chars_inj.
      rewrite chars_append, chars_of_list. exact E.
  - intros [rest ->]. exists (rest ++ String newline "")%string.
    apply append_assoc.
Qed.

(** X26. a string that does not end with a newline gets the same type
    with a newline appended. *)
Theorem detect_trailing_newline (s : string) :
  last (chars s) <> Some newline ->
  detect_ioc_type (s ++ String newline "") = detect_ioc_type s.
Proof.
  intros Hl. apply first_match_ext. intros t p Hin.
  destruct (dollar p) eqn:Hd; [exact (dollar_newline t p s Hin Hd Hl) |].
  in_table Hin; try discriminate Hd.
  apply Bool.eq_true_iff_eq. rewrite !url_match.
  rewrite !startswith_newline by (cbn; discriminate). reflexivity.
Qed.

Lemma detect_trailing_newline_witness :
  detect_ioc_type ("192.168.1.1" ++ String newline "") = detect_ioc_type "192.168.1.1".
Proof. apply detect_trailing_newline. cbn. discriminate. Defined.
End DetectFacts.

(* ===================================================================== *)
(** * Further properties: the analysis of one indicator                  *)
(* ===================================================================== *)

Module ThreatAnalyzerFacts.
Import Float64 Float64Facts PyStr PyStrFacts Regex Detect DetectFacts.
Import Mitre Analyzer AnalyzerFacts Correlator CorrelatorFacts LLMEngine ThreatAnalyzer.

Lemma description_nonempty (response : string) :
  p_description (_parse_llm_response response) <> "".
Proof.
  cbn [_parse_llm_response p_description].
  destruct (String.eqb_spec response "") as [-> | Hne]; [discriminate |].
  apply take_chars_nonempty. exact Hne.
Qed.

Lemma description_count (response : string) :
  (char_count (p_description (_parse_llm_response response)) <= 500)%nat.
Proof.
  cbn [_parse_llm_response p_description].
  destruct (String.eqb_spec response "") as [-> | Hne]; [| apply take_chars_count].
  assert (E : char_count "No description available" = 24%nat)
    by (vm_compute; reflexivity).
  rewrite E. lia.
Qed.

(** The description of an answer that is not empty is the answer cut
    after its 500th character. *)
Lemma description_cut (response : string) :
  response <> "" ->
  startswith response (p_description (_parse_llm_response response)) = true
  /\ char_count (p_description (_parse_llm_response response))
     = Nat.min 500 (char_count response)
  /\ ((char_count response <= 500)%nat ->
      p_description (_parse_llm_response response) = response).
Proof.
  intros Hne. cbn [_parse_llm_response p_description].
  destruct (String.eqb_spec response "") as [E | _]; [contradiction |].
  split; [apply take_chars_startswith |].
  split; [apply take_chars_count_min | apply take_chars_all].
Qed.

(** The score and the severity for the confidence [0.7] that
    [_parse_llm_response] reports. *)
Lemma score_at_0_7 (techniques : list string) :
  let n := Z.of_nat (length techniques) in
  let score := _calculate_threat_score (Some (lit 0.7)) (Some techniques) in
  (score == (7 # 10) * inject_Z (50 + Z.min (n * 5) 30))%Q
  /\ _get_severity score = if (2 <=? n)%Z then "MEDIUM" else "LOW".
Proof.
  cbv zeta. rewrite (score_unfold (length techniques) techniques _ eq_refl).
  destruct (bonus_cases (length techniques)) as [H _]. cbv zeta in H.
  destruct (Z.leb_spec 2 (Z.of_nat (length techniques)));
    destruct H as [E | [E | [E | [E | [E | [E | E]]]]]]; try lia;
    rewrite E; split; vm_compute; reflexivity.
Qed.

Lemma truthy_nonempty (o : option string) (t : string) : truthy o = Some t -> t <> "".
Proof. destruct o as [[| c s] |]; cbn; congruence. Qed.

Lemma detected_types (s t : string) :
  detect_ioc_type s = Some t -> t ∈ IOC_PATTERNS.*1.
Proof.
  intros H. apply first_match_Some in H as (p & Hin & _).
  apply (list_elem_of_fmap_2 fst) in Hin. exact Hin.
Qed.

Lemma detected_truthy (s : string) : truthy (detect_ioc_type s) = detect_ioc_type s.
Proof.
  destruct (detect_ioc_type s) as [t |] eqn:D; [| reflexivity].
  apply detected_types in D. destruct t; [| reflexivity].
  apply list_elem_of_In in D. cbn in D. intuition discriminate.
Qed.

Section Facts.
Context {Meta : Type}.
Implicit Types (db : gmap string (list (threat_entry Meta))).

(** X27. Whatever the model answers, an analysis that is not served
    from the cache scores exactly [0.7 * (50 + min(5 n, 30))] for [n]
    mapped techniques, because the confidence is the constant [0.7]; its
    severity is MEDIUM with two techniques or more and LOW otherwise,
    never HIGH or CRITICAL. *)
Theorem fresh_analysis_score (str_lower : string -> string) db
    (llm : option (string -> option string))
    (now ioc : string) (ioc_type context : option string) :
  let r := analyze_ioc str_lower db llm None now ioc ioc_type context in
  let n := Z.of_nat (length (res_mitre_techniques r)) in
  (res_threat_score r == (7 # 10) * inject_Z (50 + Z.min (n * 5) 30))%Q
  /\ res_severity r = if (2 <=? n)%Z then "MEDIUM" else "LOW".
Proof.
  cbv zeta. unfold analyze_ioc.
  cbn [res_threat_score res_severity res_mitre_techniques _parse_llm_response p_confidence].
  apply score_at_0_7.
Qed.

(** X28. An analysis that is not served from the cache echoes the
    indicator and never has an empty type: a type passed by the caller
    is kept, otherwise it is the detected type or [unknown].  Its
    description is not empty and has at most 500 characters: it is the
    answer of the model cut after its 500th character, so that it has
    500 characters or is the whole answer, or the default text for an
    empty answer.
    The techniques are computed from this description alone, and at
    most ten related threats are listed. *)
Theorem fresh_analysis_invariants (str_lower : string -> string) db
    (llm : option (string -> option string))
    (now ioc : string) (ioc_type context : option string) :
  let r := analyze_ioc str_lower db llm None now ioc ioc_type context in
  let response :=
    analyze llm (_build_analysis_prompt ioc (res_ioc_type r) context) in
  res_ioc r = ioc
  /\ res_ioc_type r <> ""
  /\ res_ioc_type r
     = default (default "unknown" (detect_ioc_type ioc)) (truthy ioc_type)
  /\ res_description r <> ""
  /\ (char_count (res_description r) <= 500)%nat
  /\ (response <> "" ->
      startswith response (res_description r) = true
      /\ char_count (res_description r) = Nat.min 500 (char_count response)
      /\ ((char_count response <= 500)%nat -> res_description r = response))
  /\ (response = "" -> res_description r = "No description available")
  /\ res_mitre_techniques r
     = matched_techniques (map_to_mitre str_lower (res_description r))
  /\ (length (res_related_threats r) <= 10)%nat.
Proof.
  cbv zeta. unfold analyze_ioc.
  cbn [res_ioc res_ioc_type res_description res_mitre_techniques res_related_threats].
  rewrite detected_truthy.
  split; [reflexivity |].
  split; [| split; [| split; [| split; [| split; [| split; [| split; [reflexivity |]]]]]]].
  - destruct (truthy ioc_type) as [t |] eqn:T; [exact (truthy_nonempty _ _ T) |].
    destruct (detect_ioc_type ioc) as [t |] eqn:D; [| discriminate].
    rewrite <- detected_truthy in D. exact (truthy_nonempty _ _ D).
  - destruct (truthy ioc_type); [reflexivity |].
    destruct (detect_ioc_type ioc); reflexivity.
  - apply description_nonempty.
  - apply description_count.
  - apply description_cut.
  - intros E. rewrite E. reflexivity.
  - match goal with |- (length (find_related ?d ?i ?t 10) <= 10)%nat =>
      pose proof (slice_to_length
                    (sort_by_similarity_desc
                       (same_type_scan d i t ++ _find_cross_type_correlations d i t)) 10)
        as H
    end.
    unfold find_related. lia.
Qed.


End Facts.


End ThreatAnalyzerFacts.
